(** * CapCutTimeline: thumbnail cache, bounded generator, scrubber model

    A shallow embedding of [src/components/CapCutTimeline.tsx].

    Conventions of the embedding:
    - a JavaScript [number] is the rational ([Q]) it stands for, NaN and
      the infinities being outside the model; comparisons, clamps and
      floors are taken on that value, and where the code hands on or prints
      a value it computed (the sample times, the hundredths of a label) the
      operations are those of IEEE 754 binary64, each one rounded
      ([Double]);
    - a value of type [string | null] is an [option string];
    - a JavaScript [Map] is an association list kept in insertion order;
    - asynchronous code is a transition system whose steps are the
      run-to-completion jobs of the event loop. *)

From Stdlib Require Import String Ascii DecimalString DecimalZ.
From Stdlib Require Import List Arith Lia Lqa Bool ZArith QArith Qround Qminmax
  Permutation.
From Stdlib Require SpecFloat.
Import ListNotations.

Local Open Scope nat_scope.

(* ================================================================== *)
(** * JavaScript values used by the component *)
(* ================================================================== *)

(** [string | null]: a thumbnail uri or the absent marker. *)
Definition slot : Type := option string.

(** Truthiness of a string: only the empty string is falsy. *)
Definition truthy_string (s : string) : bool :=
  match s with
  | EmptyString => false
  | String _ _ => true
  end.

(** Truthiness of a [string | null]: [if (uri)]. *)
Definition truthy (v : slot) : bool :=
  match v with
  | Some s => truthy_string s
  | None => false
  end.

(** [Math.round] on a number: the nearest integer, halves rounded up. *)
Definition Math_round (x : Q) : Z := Qfloor (x + (1 # 2))%Q.

(** A whole number inside a template literal: its decimal digits. *)
Definition number_to_string (z : Z) : string :=
  NilZero.string_of_int (Z.to_int z).

(** IEEE 754 binary64, the format of a JavaScript [number]: the
    operations round to nearest, ties to even. *)
Module Double.

Definition t : Type := SpecFloat.spec_float.

Definition prec : Z := 53.
Definition emax : Z := 1024.

(** [x * y] and [x / y]. *)
Definition mul (x y : t) : t := SpecFloat.SFmul prec emax x y.
Definition div (x y : t) : t := SpecFloat.SFdiv prec emax x y.

(** The double of a whole number. *)
Definition of_Z (z : Z) : t := SpecFloat.binary_normalize prec emax z 0 false.
Definition of_nat (n : nat) : t := of_Z (Z.of_nat n).

(** The double a rational stands for: the nearest one, which is the
    rational itself when it is a double. *)
Definition of_Q (q : Q) : t :=
  match Qnum q with
  | Z0 => SpecFloat.S754_zero false
  | Zpos a =>
      div (SpecFloat.S754_finite false a 0)
          (SpecFloat.S754_finite false (Qden q) 0)
  | Zneg a =>
      div (SpecFloat.S754_finite true a 0)
          (SpecFloat.S754_finite false (Qden q) 0)
  end.

(** The value of a finite double; [None] for NaN and the infinities. *)
Definition to_Q (x : t) : option Q :=
  match x with
  | SpecFloat.S754_zero _ => Some 0%Q
  | SpecFloat.S754_finite s m e =>
      Some (match e with
            | Zneg k => SpecFloat.cond_Zopp s (Zpos m) # (2 ^ k)
            | _ => inject_Z (SpecFloat.cond_Zopp s (Zpos m) * 2 ^ e)
            end)
  | _ => None
  end.

End Double.

(** [Math.max(0, Math.min(x, hi))] as the gesture handlers write it. *)
Definition Math_min (a b : Q) : Q := Qmin a b.
Definition Math_max (a b : Q) : Q := Qmax a b.

(** [Array(n).fill(v)]. *)
Definition Array_fill {A : Type} (n : nat) (v : A) : list A := repeat v n.

(** [a[idx] = v] on a JavaScript array.  Inside the array the cell is
    replaced; past its end the array grows up to [idx], the skipped cells
    being filled with [hole]. *)
Fixpoint array_set {A : Type} (hole : A) (a : list A) (idx : nat) (v : A)
  : list A :=
  match a, idx with
  | [], O => [v]
  | [], S i => hole :: array_set hole [] i v
  | _ :: t, O => v :: t
  | x :: t, S i => x :: array_set hole t i v
  end.

(* ================================================================== *)
(** * The JavaScript [Map], keyed by strings *)
(* ================================================================== *)

Module JsMap.
Section WithValues.
Context {V : Type}.

(** Entries in insertion order; keys are pairwise distinct. *)
Definition t : Type := list (string * V).

Definition empty : t := [].

Definition size (m : t) : nat := length m.

Definition keys (m : t) : list string := map fst m.

Fixpoint get (k : string) (m : t) : option V :=
  match m with
  | [] => None
  | (k', v) :: rest => if String.eqb k k' then Some v else get k rest
  end.

Definition has (k : string) (m : t) : bool :=
  match get k m with Some _ => true | None => false end.

(** Overwrite the value of an existing key; its position is kept. *)
Fixpoint replace (k : string) (v : V) (m : t) : t :=
  match m with
  | [] => []
  | (k', v') :: rest =>
      if String.eqb k k' then (k', v) :: rest
      else (k', v') :: replace k v rest
  end.

(** [Map.prototype.set]: a present key keeps its place, a new key goes
    last. *)
Definition set (k : string) (v : V) (m : t) : t :=
  if has k m then replace k v m else m ++ [(k, v)].

(** [Map.prototype.delete]. *)
Fixpoint delete (k : string) (m : t) : t :=
  match m with
  | [] => []
  | (k', v') :: rest =>
      if String.eqb k k' then rest else (k', v') :: delete k rest
  end.

(** [m.keys().next().value]: the first key in insertion order, or
    [undefined] on an empty map. *)
Definition first_key (m : t) : option string :=
  match m with
  | [] => None
  | (k, _) :: _ => Some k
  end.
End WithValues.
Arguments t : clear implicits.
End JsMap.

(* ================================================================== *)
(** * ThumbnailCache *)
(* ================================================================== *)

Module ThumbnailCache.

(** [private cache = new Map<string, string[]>()]. *)
Definition t : Type := JsMap.t (list slot).

Definition maxSize : nat := 5.

Definition empty : t := JsMap.empty.

Definition get (key : string) (c : t) : option (list slot) :=
  JsMap.get key c.

(** The eviction step of [set]: [if (this.cache.size >= this.maxSize)]
    take the first key and delete it [if (firstKey)]. *)
Definition evict (c : t) : t :=
  if maxSize <=? JsMap.size c then
    match JsMap.first_key c with
    | Some firstKey =>
        if truthy_string firstKey then JsMap.delete firstKey c else c
    | None => c
    end
  else c.

Definition set (key : string) (thumbnails : list slot) (c : t) : t :=
  JsMap.set key thumbnails (evict c).

Definition clear (c : t) : t := JsMap.empty.

End ThumbnailCache.

(** [`${videoUri}_${Math.round(duration)}`]. *)
Definition cacheKey (videoUri : string) (duration : Q) : string :=
  (videoUri ++ "_" ++ number_to_string (Math_round duration))%string.

(** The cache states the component can produce: every key it stores is a
    [cacheKey]. *)
Inductive cache_reachable : ThumbnailCache.t -> Prop :=
| reach_empty : cache_reachable ThumbnailCache.empty
| reach_set : forall c videoUri duration thumbnails,
    cache_reachable c ->
    cache_reachable
      (ThumbnailCache.set (cacheKey videoUri duration) thumbnails c)
| reach_clear : forall c,
    cache_reachable c -> cache_reachable (ThumbnailCache.clear c).

(** Storing a list of entries one after the other. *)
Definition set_all (entries : list (string * list slot))
  (c : ThumbnailCache.t) : ThumbnailCache.t :=
  fold_left (fun acc kv => ThumbnailCache.set (fst kv) (snd kv) acc) entries c.

(* ================================================================== *)
(** * Device configuration *)
(* ================================================================== *)

(** [IS_LOW_END_DEVICE] depends on the handset; the constants derived from
    it take it as an argument. *)
Definition THUMBNAIL_COUNT (IS_LOW_END_DEVICE : bool) : nat :=
  if IS_LOW_END_DEVICE then 6 else 10.

Definition MAX_CONCURRENT_THUMBNAILS (IS_LOW_END_DEVICE : bool) : nat :=
  if IS_LOW_END_DEVICE then 2 else 4.

Definition THUMBNAIL_CONFIG_quality (IS_LOW_END_DEVICE : bool) : Q :=
  if IS_LOW_END_DEVICE then 2 # 10 else 3 # 10.

Definition TIMELINE_PADDING : Q := 20.

Definition TIMELINE_WIDTH (SCREEN_WIDTH : Q) : Q :=
  SCREEN_WIDTH - TIMELINE_PADDING * 2.

(* ================================================================== *)
(** * generateThumbnailsWithLimit *)
(* ================================================================== *)

(** The function is a [for] loop that suspends at [await Promise.race] and
    finally at [await Promise.all].  Between two suspensions it runs
    without interruption, so its observable states are those in which it
    is suspended or has returned.  A task is named by its index in
    [tasks]; the promise [p] made for it is named by the same index. *)
Module Pool.

Inductive Loop : Type :=
| AwaitRace (settled : bool)
    (** suspended in the loop; [settled] once a raced promise resolved *)
| AwaitAll   (** past the loop, suspended at [Promise.all] *)
| Returned.

(** [executing.splice(executing.indexOf(p), 1)]: [indexOf] gives the first
    position of [p], or -1, and [splice(-1, 1)] removes the last cell. *)
Fixpoint remove_first (k : nat) (l : list nat) : list nat :=
  match l with
  | [] => []
  | x :: rest => if Nat.eqb x k then rest else x :: remove_first k rest
  end.

Definition splice_indexOf (k : nat) (l : list nat) : list nat :=
  if existsb (Nat.eqb k) l then remove_first k l else removelast l.

Section WithResults.
Context {T : Type}.

Record t : Type := mk {
  queue : list nat;      (** tasks the loop has not reached yet *)
  executing : list nat;  (** the [executing] array *)
  results : list T;      (** the [results] array *)
  loop : Loop;
  started : list nat     (** every [task()] call made so far, in order *)
}.

(** The loop from its current position to its next suspension: call the
    task, push its promise, and suspend once
    [executing.length >= limit]. *)
Fixpoint for_loop (limit : nat) (queue executing : list nat)
  (results : list T) (started : list nat) : t :=
  match queue with
  | [] => mk [] executing results AwaitAll started
  | task :: rest =>
      let executing' := executing ++ [task] in
      let started' := started ++ [task] in
      if limit <=? length executing'
      then mk rest executing' results (AwaitRace false) started'
      else for_loop limit rest executing' results started'
  end.

(** The call itself, up to its first suspension. *)
Definition start (limit : nat) (tasks : list nat) : t :=
  for_loop limit tasks [] [] [].

(** The [then] callback of task [k], run when the task resolved with
    [r]: push the result, drop the promise; a pending race settles. *)
Definition settle (k : nat) (r : T) (p : t) : t :=
  mk (queue p) (splice_indexOf k (executing p)) (results p ++ [r])
     (match loop p with
      | AwaitRace _ => AwaitRace true
      | l => l
      end)
     (started p).

(** Whether the suspended function can continue: its race has settled,
    or every promise given to [Promise.all] has resolved. *)
Definition can_resume (p : t) : bool :=
  match loop p with
  | AwaitRace settled => settled
  | AwaitAll => match executing p with [] => true | _ => false end
  | Returned => false
  end.

(** The continuation of the suspended function. *)
Definition resume (limit : nat) (p : t) : t :=
  match loop p with
  | AwaitRace true =>
      for_loop limit (queue p) (executing p) (results p) (started p)
  | AwaitAll =>
      match executing p with
      | [] => mk (queue p) [] (results p) Returned (started p)
      | _ => p
      end
  | _ => p
  end.

(** One job of the event loop.  [resolves k r] says that task [k] may
    resolve with [r]. *)
Inductive step (limit : nat) (resolves : nat -> T -> Prop) : t -> t -> Prop :=
| step_settle : forall k r p,
    In k (executing p) -> resolves k r ->
    step limit resolves p (settle k r p)
| step_resume : forall p,
    can_resume p = true -> step limit resolves p (resume limit p).

Inductive reachable (limit : nat) (resolves : nat -> T -> Prop)
  (tasks : list nat) : t -> Prop :=
| reachable_start : reachable limit resolves tasks (start limit tasks)
| reachable_step : forall p p',
    reachable limit resolves tasks p ->
    step limit resolves p p' ->
    reachable limit resolves tasks p'.

(** A bound on the number of jobs still to come. *)
Definition loop_weight (l : Loop) : nat :=
  match l with
  | AwaitRace true => 2
  | AwaitRace false => 1
  | AwaitAll => 1
  | Returned => 0
  end.

Definition measure (p : t) : nat :=
  2 * length (queue p) + 2 * length (executing p) + loop_weight (loop p).

(** A scheduler that, at every turn, lets the [pick]-th promise of
    [executing] resolve and then lets the function continue. *)
Definition turn (limit : nat) (outcome : nat -> T) (pick : nat) (p : t)
  : t :=
  match executing p with
  | [] => resume limit p
  | k0 :: _ =>
      let k := nth (Nat.modulo pick (length (executing p))) (executing p) k0 in
      resume limit (settle k (outcome k) p)
  end.

Definition drive (limit : nat) (outcome : nat -> T) (picks : list nat)
  (p : t) : t :=
  fold_left (fun acc pick => turn limit outcome pick acc) picks p.

End WithResults.
Arguments t : clear implicits.
End Pool.

(* ================================================================== *)
(** * The generation effect of CapCutTimeline *)
(* ================================================================== *)

Module Generator.

(** One [VideoThumbnails.getThumbnailAsync(videoUri, {time, quality})]. *)
Record Request : Type := mkRequest {
  req_source : string;
  req_time : Double.t;       (** milliseconds *)
  req_quality : Q
}.

(** [r !== null]. *)
Definition not_null (r : slot) : bool :=
  match r with Some _ => true | None => false end.

Section WithConfig.
  (** [THUMBNAIL_COUNT], [MAX_CONCURRENT_THUMBNAILS] and
      [THUMBNAIL_CONFIG.quality]. *)
Variables (count limit : nat) (quality : Q).

(** [(duration / THUMBNAIL_COUNT) * i * 1000], three operations on
    doubles. *)
Definition timeMs (duration : Q) (i : nat) : Double.t :=
  Double.mul
    (Double.mul (Double.div (Double.of_Q duration) (Double.of_nat count))
                (Double.of_nat i))
    (Double.of_Z 1000).

(** Task [i] up to its [await]: nothing is requested when the signal is
    already aborted. *)
Definition task (videoUri : string) (duration : Q) (aborted : bool)
  (i : nat) : option Request :=
  if aborted then None
  else Some (mkRequest videoUri (timeMs duration i) quality).

(** What task [i] resolves with.  [extraction] is the outcome of the
    request: [Some uri] when it resolved, [None] when it rejected and the
    [catch] returned [null]. *)
Definition task_result (call : option Request) (extraction : option string)
  : slot :=
  match call with
  | None => None
  | Some _ => extraction
  end.

(** [Array(THUMBNAIL_COUNT).fill(null)] followed by
    [results.forEach((uri, idx) => { if (uri) orderedResults[idx] = uri })]. *)
Definition forEach_store (acc : list slot) (entry : nat * slot) : list slot :=
  let (idx, uri) := entry in
  if truthy uri then array_set None acc idx uri else acc.

Definition orderedResults (results : list slot) : list slot :=
  fold_left forEach_store
    (combine (seq 0 (length results)) results)
    (Array_fill count None).

Record Run : Type := mkRun {
  run_uri : string;
  run_duration : Q;
  pool : Pool.t slot;
  calls : list (nat * option Request)
    (** per started task, the request it issued, if any *)
}.

(** An [AbortController] made by the effect, with the run it guards. *)
Record Gen : Type := mkGen {
  aborted : bool;    (** [controller.signal.aborted] *)
  run : option Run
}.

Record World : Type := mkWorld {
  thumbnails : list slot;
  isLoadingThumbnails : bool;
  isMountedRef : bool;
  abortControllerRef : option nat;
  cleanup : option nat;  (** controller aborted by the effect's cleanup *)
  gens : list Gen;
  cache : ThumbnailCache.t
}.

Definition initial (c : ThumbnailCache.t) : World :=
  mkWorld (Array_fill count None) true true None None [] c.

Fixpoint update_nth {A : Type} (n : nat) (f : A -> A) (l : list A)
  {struct l} : list A :=
  match l, n with
  | [], _ => []
  | x :: rest, O => f x :: rest
  | x :: rest, S n' => x :: update_nth n' f rest
  end.

Definition with_gens (g : list Gen) (w : World) : World :=
  mkWorld (thumbnails w) (isLoadingThumbnails w) (isMountedRef w)
          (abortControllerRef w) (cleanup w) g (cache w).

(** [ref?.abort()]. *)
Definition abort (ref : option nat) (w : World) : World :=
  match ref with
  | Some id =>
      with_gens (update_nth id (fun g => mkGen true (run g)) (gens w)) w
  | None => w
  end.

Definition is_aborted (id : nat) (w : World) : bool :=
  match nth_error (gens w) id with
  | Some g => aborted g
  | None => false
  end.

Definition set_run (id : nat) (r : Run) (w : World) : World :=
  with_gens (update_nth id (fun g => mkGen (aborted g) (Some r)) (gens w)) w.

Definition log_calls (videoUri : string) (duration : Q) (signal : bool)
  (fresh : list nat) : list (nat * option Request) :=
  map (fun i => (i, task videoUri duration signal i)) fresh.

(** [generate()] up to its first suspension, inside
    [generateThumbnailsWithLimit]. *)
Definition start_run (videoUri : string) (duration : Q) : Run :=
  let p := Pool.start limit (seq 0 count) in
  mkRun videoUri duration p
        (log_calls videoUri duration false (Pool.started p)).

(** The body of the effect, after the cleanup of its previous run. *)
Definition effect_body (videoUri : string) (duration : Q) (w : World)
  : World :=
  if Qle_bool duration 0 || negb (truthy_string videoUri) then
    mkWorld (thumbnails w) (isLoadingThumbnails w) (isMountedRef w)
            (abortControllerRef w) None (gens w) (cache w)
  else
    let w1 := abort (abortControllerRef w) w in
    let controller := length (gens w1) in
    let hit :=
      match ThumbnailCache.get (cacheKey videoUri duration) (cache w1) with
      | Some cached =>
          if Nat.eqb (length cached) count then Some cached else None
      | None => None
      end in
    match hit with
    | Some cached =>
        mkWorld cached false (isMountedRef w1) (Some controller) None
                (gens w1 ++ [mkGen false None]) (cache w1)
    | None =>
        if isMountedRef w1 then
          mkWorld (thumbnails w1) true (isMountedRef w1) (Some controller)
                  (Some controller)
                  (gens w1 ++ [mkGen false (Some (start_run videoUri duration))])
                  (cache w1)
        else
          mkWorld (thumbnails w1) (isLoadingThumbnails w1) (isMountedRef w1)
                  (Some controller) (Some controller)
                  (gens w1 ++ [mkGen false None]) (cache w1)
    end.

Definition effect (videoUri : string) (duration : Q) (w : World) : World :=
  effect_body videoUri duration (abort (cleanup w) w).

(** The [then] callback of task [k] of a run. *)
Definition settle_run (k : nat) (extraction : option string) (r : Run)
  : Run :=
  let call :=
    match find (fun c => Nat.eqb (fst c) k) (calls r) with
    | Some c => snd c
    | None => None
    end in
  mkRun (run_uri r) (run_duration r)
        (Pool.settle k (task_result call extraction) (pool r))
        (calls r).

(** The continuation of [generateThumbnailsWithLimit]; the tasks it calls
    read the controller's signal. *)
Definition resume_run (signal : bool) (r : Run) : Run :=
  let p' := Pool.resume limit (pool r) in
  let fresh := skipn (length (Pool.started (pool r))) (Pool.started p') in
  mkRun (run_uri r) (run_duration r) p'
        (calls r ++ log_calls (run_uri r) (run_duration r) signal fresh).

(** [generate()] after [await generateThumbnailsWithLimit(...)].  No task
    rejects, each one catching the failure of its request, so the call
    does not reject either and the [catch] of [generate] is never
    entered. *)
Definition complete (signal : bool) (r : Run) (w : World) : World :=
  if negb signal && isMountedRef w then
    let ordered := orderedResults (Pool.results (pool r)) in
    mkWorld ordered false (isMountedRef w) (abortControllerRef w)
            (cleanup w) (gens w)
            (if existsb not_null ordered
             then ThumbnailCache.set
                    (cacheKey (run_uri r) (run_duration r)) ordered (cache w)
             else cache w)
  else w.

Inductive Event : Type :=
| Effect (videoUri : string) (duration : Q)
    (** the generation effect re-runs with these dependencies *)
| Settle (id k : nat) (extraction : option string)
    (** task [k] of run [id] resolves and its callback runs *)
| Resume (id : nat)
    (** [generateThumbnailsWithLimit] of run [id] continues *)
| Unmount.

(** The run an event belongs to. *)
Definition owner (e : Event) : option nat :=
  match e with
  | Settle id _ _ => Some id
  | Resume id => Some id
  | _ => None
  end.

(** One job of the event loop.  An unmounted component runs no effect
    any more. *)
Definition step (w : World) (e : Event) : World :=
  match e with
  | Effect videoUri duration =>
      if isMountedRef w then effect videoUri duration w else w
  | Settle id k extraction =>
      match nth_error (gens w) id with
      | Some (mkGen _ (Some r)) =>
          if existsb (Nat.eqb k) (Pool.executing (pool r))
          then set_run id (settle_run k extraction r) w
          else w
      | _ => w
      end
  | Resume id =>
      match nth_error (gens w) id with
      | Some (mkGen signal (Some r)) =>
          if Pool.can_resume (pool r) then
            let r' := resume_run signal r in
            let w' := set_run id r' w in
            match Pool.loop (pool r') with
            | Pool.Returned => complete signal r' w'
            | _ => w'
            end
          else w
      | _ => w
      end
  | Unmount =>
      let w1 :=
        mkWorld (thumbnails w) (isLoadingThumbnails w) false
                (abortControllerRef w) (cleanup w) (gens w) (cache w) in
      abort (cleanup w1) (abort (abortControllerRef w1) w1)
  end.

Definition exec (w : World) (events : list Event) : World :=
  fold_left step events w.

(** What a run could overwrite: the screen state and the cache. *)
Definition visible (w : World)
  : list slot * bool * ThumbnailCache.t :=
  (thumbnails w, isLoadingThumbnails w, cache w).

End WithConfig.
End Generator.

(* ================================================================== *)
(** * Playback position and gestures *)
(* ================================================================== *)

Module Scrubber.
Local Open Scope Q_scope.

Record t : Type := mk {
  duration : Q;        (** [duration] state, 0 until the player reports it *)
  displayTime : Q;     (** [displayTime] state *)
  isDragging : bool;   (** [isDragging.value] *)
  progress : Q;        (** [progress.value] *)
  playheadScale : Q;   (** target of the spring on [playheadScale] *)
  currentTime : Q      (** [player.currentTime] *)
}.

(** A call handed to [scheduleOnRN]. *)
Inductive RNCall : Type :=
| seekTo (time : Q)
| updateDisplayTime (time : Q).

Definition run_call (s : t) (c : RNCall) : t :=
  match c with
  | seekTo time =>
      mk (duration s) (displayTime s) (isDragging s) (progress s)
         (playheadScale s) time
  | updateDisplayTime time =>
      mk (duration s) time (isDragging s) (progress s)
         (playheadScale s) (currentTime s)
  end.

Definition run_calls (s : t) (cs : list RNCall) : t :=
  fold_left run_call cs s.

(** [clamp] as the specification words it. *)
Definition clamp (x lo hi : Q) : Q :=
  if Qle_bool x lo then lo else if Qle_bool hi x then hi else x.

Section WithScreen.
Variable SCREEN_WIDTH : Q.

Let width : Q := TIMELINE_WIDTH SCREEN_WIDTH.

(** [Math.max(0, Math.min(event.x, TIMELINE_WIDTH))]. *)
Definition clamped_x (x : Q) : Q := Math_max 0 (Math_min x width).

(** The [timeUpdate] listener. *)
Definition timeUpdate (payload_currentTime : Q) (s : t) : t * list RNCall :=
  if negb (isDragging s) && negb (Qle_bool (duration s) 0) then
    (mk (duration s) (displayTime s) (isDragging s)
        (payload_currentTime / duration s) (playheadScale s) (currentTime s),
     [updateDisplayTime payload_currentTime])
  else (s, []).

Definition tap_onStart (s : t) : t * list RNCall :=
  (mk (duration s) (displayTime s) (isDragging s) (progress s)
      (14 # 10) (currentTime s), []).

Definition tap_onEnd (event_x : Q) (s : t) : t * list RNCall :=
  let x := clamped_x event_x in
  let newProgress := x / width in
  let newTime := newProgress * duration s in
  (mk (duration s) (displayTime s) (isDragging s) newProgress 1
      (currentTime s),
   [seekTo newTime; updateDisplayTime newTime]).

Definition pan_onStart (s : t) : t * list RNCall :=
  (mk (duration s) (displayTime s) true (progress s) (125 # 100)
      (currentTime s), []).

Definition pan_onUpdate (event_x : Q) (s : t) : t * list RNCall :=
  let x := clamped_x event_x in
  let newProgress := x / width in
  let newTime := newProgress * duration s in
  (mk (duration s) (displayTime s) (isDragging s) newProgress
      (playheadScale s) (currentTime s),
   [updateDisplayTime newTime]).

Definition pan_onEnd (event_x : Q) (s : t) : t * list RNCall :=
  let x := clamped_x event_x in
  let newProgress := x / width in
  let newTime := newProgress * duration s in
  (mk (duration s) (displayTime s) false (progress s) 1 (currentTime s),
   [seekTo newTime]).

(** A handler together with the calls it scheduled. *)
Definition settled (r : t * list RNCall) : t := run_calls (fst r) (snd r).

(** The time a handler asks the player to seek to, if it does. *)
Fixpoint seek_target (cs : list RNCall) : option Q :=
  match cs with
  | [] => None
  | seekTo time :: _ => Some time
  | _ :: rest => seek_target rest
  end.

End WithScreen.
End Scrubber.

(* ================================================================== *)
(** * Timeline geometry and the events of the scrubber *)
(* ================================================================== *)

Definition PLAYHEAD_WIDTH : Q := 4.

(** The animated styles, as functions of [progress.value].  The products
    are taken on the numbers themselves; what is proved of them is their
    order and their values at the two ends of the timeline, which the
    rounding of a double keeps. *)
Module Render.
Local Open Scope Q_scope.

(** [playheadStyle]: [translateX]. *)
Definition playhead_translateX (SCREEN_WIDTH progress : Q) : Q :=
  progress * (TIMELINE_WIDTH SCREEN_WIDTH - PLAYHEAD_WIDTH).

(** [timeIndicatorStyle]: [translateX]. *)
Definition timeIndicator_translateX (SCREEN_WIDTH progress : Q) : Q :=
  progress * (TIMELINE_WIDTH SCREEN_WIDTH - PLAYHEAD_WIDTH) - 30.

(** [progressOverlayStyle]: [width]. *)
Definition progressOverlay_width (SCREEN_WIDTH progress : Q) : Q :=
  progress * TIMELINE_WIDTH SCREEN_WIDTH.

End Render.

Module Timeline.
Import Scrubber.
Local Open Scope Q_scope.

(** The [statusChange] listener, which is also what the effect does when
    it subscribes: [if (player.duration > 0) setDuration(player.duration)]. *)
Definition statusChange (player_duration : Q) (s : t) : t * list RNCall :=
  if negb (Qle_bool player_duration 0) then
    (mk player_duration (displayTime s) (isDragging s) (progress s)
        (playheadScale s) (currentTime s), [])
  else (s, []).

(** What reaches the component: events of the player and callbacks of the
    two gestures. *)
Inductive Event : Type :=
| TimeUpdate (payload_currentTime : Q)
| StatusChange (player_duration : Q)
| TapStart
| TapEnd (event_x : Q)
| PanStart
| PanUpdate (event_x : Q)
| PanEnd (event_x : Q).

Definition handle (SCREEN_WIDTH : Q) (e : Event) (s : t) : t * list RNCall :=
  match e with
  | TimeUpdate payload_currentTime => timeUpdate payload_currentTime s
  | StatusChange player_duration => statusChange player_duration s
  | TapStart => tap_onStart s
  | TapEnd event_x => tap_onEnd SCREEN_WIDTH event_x s
  | PanStart => pan_onStart s
  | PanUpdate event_x => pan_onUpdate SCREEN_WIDTH event_x s
  | PanEnd event_x => pan_onEnd SCREEN_WIDTH event_x s
  end.

(** The events handled one after the other, with every call they handed
    to [scheduleOnRN], in order. *)
Definition trace (SCREEN_WIDTH : Q) (events : list Event) (s : t)
  : t * list RNCall :=
  fold_left
    (fun acc e =>
       (fst (handle SCREEN_WIDTH e (fst acc)),
        snd acc ++ snd (handle SCREEN_WIDTH e (fst acc))))
    events (s, []).

(** The seeks among scheduled calls. *)
Definition seeks (cs : list RNCall) : list Q :=
  flat_map (fun c => match c with seekTo time => [time] | _ => [] end) cs.

End Timeline.

(* ================================================================== *)
(** * The time labels *)
(* ================================================================== *)

(** [Math.floor]. *)
Definition Math_floor (x : Q) : Z := Qfloor x.

(** Rounding towards zero, as the division under [%] does. *)
Definition Math_trunc (x : Q) : Z :=
  if Qle_bool 0 x then Qfloor x else Qceiling x.

(** [a % b] on numbers: what is left of [a] after taking out [b] a whole
    number of times, counted towards zero; it has the sign of [a]. *)
Definition js_rem (a b : Q) : Q := (a - b * inject_Z (Math_trunc (a / b)))%Q.

(** [s.padStart(targetLength, pad)] for a one-character [pad]. *)
Definition padStart (targetLength : nat) (pad : ascii) (s : string) : string :=
  (string_of_list_ascii (repeat pad (targetLength - String.length s)) ++ s)%string.

(** [formatTime]: [!seconds] holds for 0 (NaN is outside the model). *)
Definition formatTime (seconds : Q) : string :=
  if Qeq_bool seconds 0 then "00:00"%string
  else
    let mins := Math_floor (seconds / 60) in
    let secs := Math_floor (js_rem seconds 60) in
    (padStart 2 "0" (number_to_string mins) ++ ":"
     ++ padStart 2 "0" (number_to_string secs))%string.

(** [Math.floor((seconds % 1) * 100)]: the remainder of a double is a
    double, the product is rounded to a double before it is floored.
    [None] stands for NaN. *)
Definition hundredths (seconds : Q) : option Z :=
  option_map Math_floor
    (Double.to_Q
       (Double.mul (Double.of_Q (js_rem seconds 1)) (Double.of_Z 100))).

(** [n.toString()] for a whole number or NaN. *)
Definition whole_to_string (n : option Z) : string :=
  match n with
  | Some z => number_to_string z
  | None => "NaN"%string
  end.

Definition formatTimeMs (seconds : Q) : string :=
  if Qeq_bool seconds 0 then "00:00.00"%string
  else
    let mins := Math_floor (seconds / 60) in
    let secs := Math_floor (js_rem seconds 60) in
    let ms := hundredths seconds in
    (padStart 2 "0" (number_to_string mins) ++ ":"
     ++ padStart 2 "0" (number_to_string secs) ++ "."
     ++ padStart 2 "0" (whole_to_string ms))%string.

(** [timeMarkers]:
    [Array.from({ length: 5 }, (_, i) => formatTime((duration / 4) * i))]. *)
Definition timeMarkers (duration : Q) : list string :=
  map (fun i => formatTime (duration / 4 * inject_Z (Z.of_nat i))) (seq 0 5).

(* ================================================================== *)
(** * The memo comparison of ThumbnailStrip *)
(* ================================================================== *)

Module ThumbnailStrip.

Record Props : Type := mkProps {
  thumbnails : list slot;
  isLoading : bool
}.

(** [a === b] on values of type [string | null]. *)
Definition strict_eq (a b : slot) : bool :=
  match a, b with
  | Some x, Some y => String.eqb x y
  | None, None => true
  | _, _ => false
  end.

(** [t === next.thumbnails[i]]: an index past the end reads [undefined],
    which equals no slot. *)
Definition equals_at (next : list slot) (i : nat) (t : slot) : bool :=
  match nth_error next i with
  | Some u => strict_eq t u
  | None => false
  end.

(** [a.every((t, i) => f(t, i))], the indices starting at [from]. *)
Fixpoint every_from (f : nat -> slot -> bool) (from : nat) (a : list slot)
  : bool :=
  match a with
  | [] => true
  | t :: rest => f from t && every_from f (S from) rest
  end.

(** The second argument of [memo]: whether a re-render can be skipped. *)
Definition areEqual (prev next : Props) : bool :=
  Bool.eqb (isLoading prev) (isLoading next)
  && Nat.eqb (length (thumbnails prev)) (length (thumbnails next))
  && every_from (equals_at (thumbnails next)) 0 (thumbnails prev).

End ThumbnailStrip.

(* ================================================================== *)
(** * The seek buttons of the video screen (src/app/video.tsx) *)
(* ================================================================== *)

Module VideoControls.
Local Open Scope Q_scope.

(** What the buttons read and write of the player. *)
Record Player : Type := mkPlayer {
  currentTime : Q;
  duration : Q
}.

(** [player.duration || 0]: 0 is the only falsy number of the model. *)
Definition duration_or_0 (p : Player) : Q :=
  if Qeq_bool (duration p) 0 then 0 else duration p.

(** [player.currentTime = Math.max(0, player.currentTime - 10)]. *)
Definition seekBackward (p : Player) : Player :=
  mkPlayer (Math_max 0 (currentTime p - 10)) (duration p).

(** [player.currentTime =
     Math.min(player.duration || 0, player.currentTime + 10)]. *)
Definition seekForward (p : Player) : Player :=
  mkPlayer (Math_min (duration_or_0 p) (currentTime p + 10)) (duration p).

End VideoControls.

(* ================================================================== *)
(** * Vocabulary of the properties *)
(* ================================================================== *)

(** The last [n] cells of a list. *)
Definition lastn {A : Type} (n : nat) (l : list A) : list A :=
  skipn (length l - n) l.

(** The shape a reachable cache keeps: distinct truthy keys, at most
    [maxSize] of them. *)
Record cache_wf (c : ThumbnailCache.t) : Prop := {
  wf_nodup : NoDup (JsMap.keys c);
  wf_truthy : Forall (fun k => truthy_string k = true) (JsMap.keys c);
  wf_size : JsMap.size c <= ThumbnailCache.maxSize
}.

(** The entries the component stores for a list of (media, duration,
    thumbnails): each goes under its [cacheKey]. *)
Definition keyed (entries : list (string * Q * list slot))
  : list (string * list slot) :=
  map (fun e => (cacheKey (fst (fst e)) (snd (fst e)), snd e)) entries.

Section PoolVocabulary.
Context {T : Type}.

(** The invariant of the pool. *)
Record pool_inv (limit : nat) (resolves : nat -> T -> Prop)
  (tasks : list nat) (p : Pool.t T) : Prop := {
  inv_tasks : Pool.started p ++ Pool.queue p = tasks;
  inv_done : exists done,
      Forall2 resolves done (Pool.results p) /\
      Permutation (done ++ Pool.executing p) (Pool.started p);
  inv_loop :
    match Pool.loop p with
    | Pool.AwaitRace false =>
        limit <= length (Pool.executing p) /\ 1 <= length (Pool.executing p)
    | Pool.AwaitRace true => 1 <= limit -> length (Pool.executing p) < limit
    | Pool.AwaitAll => Pool.queue p = []
    | Pool.Returned => Pool.queue p = [] /\ Pool.executing p = []
    end;
  inv_bound : 1 <= limit -> length (Pool.executing p) <= limit
}.

End PoolVocabulary.

(** What [forEach] leaves in a slot for a result: falsy results are not
    stored, so the slot keeps its [null]. *)
Definition keep_truthy (v : slot) : slot := if truthy v then v else None.

(** What task [k] of a run that is not cancelled resolves with, when
    [extraction k] is the outcome of its request ([None]: it failed). *)
Definition run_result (count : nat) (quality : Q) (videoUri : string)
  (duration : Q) (extraction : nat -> option string) (k : nat) : slot :=
  Generator.task_result
    (Generator.task count quality videoUri duration false k) (extraction k).

Definition run_resolves (count : nat) (quality : Q) (videoUri : string)
  (duration : Q) (extraction : nat -> option string) (k : nat) (r : slot)
  : Prop :=
  r = run_result count quality videoUri duration extraction k.

Section GeneratorVocabulary.
Import Generator.
Variables (count limit : nat) (quality : Q).

(** The run [id] exists in [w]. *)
Definition has_run (id : nat) (w : World) : Prop :=
  exists g r, nth_error (gens w) id = Some g /\ run g = Some r.

(** The events that cancel the runs in flight: teardown, and the effect
    running again. *)
Definition cancels (e : Event) : Prop :=
  e = Unmount \/ exists videoUri duration, e = Effect videoUri duration.

(** Every run that is not aborted is the one the pending cleanup guards,
    and the component is still mounted. *)
Definition live_runs_guarded (w : World) : Prop :=
  forall id g r,
    nth_error (gens w) id = Some g -> run g = Some r -> aborted g = false ->
    cleanup w = Some id /\ isMountedRef w = true.

(** Every run of [w] is aborted. *)
Definition all_aborted (w : World) : Prop :=
  forall id g r,
    nth_error (gens w) id = Some g -> run g = Some r -> aborted g = true.

(** Every run that is not aborted is the one the cleanup guards. *)
Definition cleanup_guards (w : World) : Prop :=
  forall id g r,
    nth_error (gens w) id = Some g -> run g = Some r -> aborted g = false ->
    cleanup w = Some id.

(** Every started task of a run logged what it did, and a logged request
    is the one task [i] makes. *)
Definition run_logged (count : nat) (quality : Q) (r : Run) : Prop :=
  map fst (calls r) = Pool.started (pool r) /\
  Forall (fun c => exists signal,
              snd c = task count quality (run_uri r) (run_duration r)
                           signal (fst c))
         (calls r).

(** Every run drives its pool by the jobs of
    [generateThumbnailsWithLimit] and logs each task it starts. *)
Definition run_sound (r : Run) : Prop :=
  pool_inv limit (fun _ _ => True) (seq 0 count) (pool r) /\
  run_logged count quality r.

Definition runs_sound (w : World) : Prop :=
  forall id g r,
    nth_error (gens w) id = Some g -> run g = Some r -> run_sound r.

End GeneratorVocabulary.

(** The jobs of run [id] when its tasks resolve in the given order, the
    call continuing after each of them. *)
Definition schedule (id : nat) (order : list (nat * option string))
  : list Generator.Event :=
  flat_map (fun ko => [Generator.Settle id (fst ko) (snd ko);
                       Generator.Resume id]) order.

(** A low-end device showing a 60 second video, nothing cached. *)
Definition low_end_exec (events : list Generator.Event) : Generator.World :=
  Generator.exec (THUMBNAIL_COUNT true) (MAX_CONCURRENT_THUMBNAILS true)
                 (THUMBNAIL_CONFIG_quality true)
                 (Generator.initial (THUMBNAIL_COUNT true) ThumbnailCache.empty)
                 events.

Definition in_order_run : list Generator.Event :=
  Generator.Effect "v" 60
  :: schedule 0 [(0, Some "frame0"); (1, Some "frame1"); (2, Some "frame2");
                 (3, Some "frame3"); (4, Some "frame4");
                 (5, Some "frame5")]%string.

(** The extraction for sample 1 finishes before the one for sample 0. *)
Definition swapped_run : list Generator.Event :=
  Generator.Effect "v" 60
  :: schedule 0 [(1, Some "frame1"); (0, Some "frame0"); (2, Some "frame2");
                 (3, Some "frame3"); (4, Some "frame4");
                 (5, Some "frame5")]%string.

(** The extraction for sample 1 fails, and does so before the one for
    sample 0 succeeds. *)
Definition failing_run : list Generator.Event :=
  Generator.Effect "v" 60
  :: schedule 0 [(1, None); (0, Some "frame0"); (2, Some "frame2");
                 (3, Some "frame3"); (4, Some "frame4");
                 (5, Some "frame5")]%string.

(** Run 0 with every task resolved, its call not yet continued. *)
Definition pending_completion : list Generator.Event :=
  Generator.Effect "v" 60
  :: schedule 0 [(0, Some "frame0"); (1, Some "frame1"); (2, Some "frame2");
                 (3, Some "frame3"); (4, Some "frame4")]%string
  ++ [Generator.Settle 0 5 (Some "frame5"%string)].

(** The effect runs again for another video, and that run completes. *)
Definition second_run : list Generator.Event :=
  schedule 1 [(0, Some "other0"); (1, Some "other1"); (2, Some "other2");
              (3, Some "other3"); (4, Some "other4");
              (5, Some "other5")]%string.

Definition run_of (id : nat) (w : Generator.World) : option Generator.Run :=
  match nth_error (Generator.gens w) id with
  | Some g => Generator.run g
  | None => None
  end.

Definition empty_run : Generator.Run :=
  Generator.mkRun "" 0 (Pool.mk [] [] [] Pool.Returned []) [].

Definition run_or_empty (id : nat) (w : Generator.World) : Generator.Run :=
  match run_of id w with
  | Some r => r
  | None => empty_run
  end.

Section ScrubberVocabulary.
Import Scrubber.
Local Open Scope Q_scope.

(** The calls a handler scheduled ask the player to seek to [time]. *)
Definition seeks_to (cs : list RNCall) (time : Q) : Prop :=
  match seek_target cs with
  | Some t => t == time
  | None => False
  end.

(** The claim on time updates, as it is worded: dragging leaves the
    progress alone, and otherwise the progress and the display time follow
    the event. *)
Definition timeUpdate_always_tracks : Prop :=
  forall (payload_currentTime : Q) (s : t),
    (isDragging s = true ->
     progress (fst (timeUpdate payload_currentTime s)) = progress s) /\
    (isDragging s = false ->
     progress (fst (timeUpdate payload_currentTime s))
     == payload_currentTime / duration s /\
     displayTime (settled (timeUpdate payload_currentTime s))
     == payload_currentTime).

(** The state of a screen whose player has not reported a duration yet,
    after a tap in the middle of the timeline. *)
Definition before_duration : t := mk 0 0 false (1 # 2) 1 0.

End ScrubberVocabulary.

(** Whether the character [c] occurs in [s]. *)
Fixpoint has_char (c : ascii) (s : string) : bool :=
  match s with
  | EmptyString => false
  | String a rest => Ascii.eqb a c || has_char c rest
  end.

(** Three extractions of which the second fails, and the pool of a run
    over them after the scheduler [Pool.drive] took the given turns. *)
Definition sample_extraction (i : nat) : option string :=
  if Nat.eqb i 1 then None else Some "frame"%string.

Definition sample_pool (limit : nat) (picks : list nat) : Pool.t slot :=
  Pool.drive limit (run_result 3 (3 # 10) "v" 30 sample_extraction) picks
             (Pool.start limit (seq 0 3)).

Section GeneratorVocabularyMore.
Import Generator.

(** The requests a run has issued: the [getThumbnailAsync] calls of the
    tasks that did not find the signal aborted. *)
Definition requests_of (r : Run) : list Request :=
  flat_map (fun c => match snd c with Some q => [q] | None => [] end)
           (calls r).

Definition run_requests (id : nat) (w : World) : list Request :=
  match run_of id w with
  | Some r => requests_of r
  | None => []
  end.

(** Every run was started for a media and a known duration. *)
Definition runs_keyed (w : World) : Prop :=
  forall id g r,
    nth_error (gens w) id = Some g -> run g = Some r ->
    truthy_string (run_uri r) = true /\ (0 < run_duration r)%Q.

(** While a run is neither aborted nor returned, the loading flag is
    set. *)
Definition loading_while_generating (w : World) : Prop :=
  forall id g r,
    nth_error (gens w) id = Some g -> run g = Some r ->
    aborted g = false -> Pool.loop (pool r) <> Pool.Returned ->
    isLoadingThumbnails w = true.

End GeneratorVocabularyMore.

(** Run 0 was started and then superseded by a run for another video. *)
Definition superseded_world : Generator.World :=
  low_end_exec [Generator.Effect "v" 60; Generator.Effect "w" 30].

Section TimelineVocabulary.
Import Scrubber Timeline.
Local Open Scope Q_scope.

(** What may happen between the start and the end of a drag: moves of the
    pointer and events of the player. *)
Definition during_drag (e : Event) : bool :=
  match e with
  | TimeUpdate _ | StatusChange _ | PanUpdate _ => true
  | _ => false
  end.

(** The progress the moves of a drag leave behind: that of the last
    move, or the one held before. *)
Definition drag_progress (SCREEN_WIDTH : Q) (moves : list Event) (before : Q)
  : Q :=
  fold_left
    (fun p e =>
       match e with
       | PanUpdate event_x =>
           clamped_x SCREEN_WIDTH event_x / TIMELINE_WIDTH SCREEN_WIDTH
       | _ => p
       end)
    moves before.

(** A time handed to [seekTo] or to [updateDisplayTime] lies within the
    media. *)
Definition within_media (duration : Q) (c : RNCall) : Prop :=
  match c with
  | seekTo time => 0 <= time <= duration
  | updateDisplayTime time => 0 <= time <= duration
  end.

End TimelineVocabulary.

(** Reading a string of decimal digits as a number. *)
Definition decode_digits (s : string) : option Z :=
  option_map Z.of_uint (NilEmpty.uint_of_string s).

(** [(duration / count) * i] seconds, computed as the code computes it:
    a division and a multiplication on doubles. *)
Definition sample_seconds (count : nat) (duration : Q) (i : nat) : Double.t :=
  Double.mul (Double.div (Double.of_Q duration) (Double.of_nat count))
             (Double.of_nat i).

Section GeneratorVocabularyRequests.
Import Generator.
Variables (count : nat) (quality : Q).

(** Every run that is not aborted has called the extraction in each task
    it started. *)
Definition live_runs_request (w : World) : Prop :=
  forall id g r,
    nth_error (gens w) id = Some g -> run g = Some r -> aborted g = false ->
    calls r
    = log_calls count quality (run_uri r) (run_duration r) false
                (Pool.started (pool r)).

End GeneratorVocabularyRequests.

(** Run 0 with every extraction failed, its call not yet continued. *)
Definition failed_completion : list Generator.Event :=
  Generator.Effect "v" 60
  :: schedule 0 [(0, None); (1, None); (2, None); (3, None); (4, None)]
  ++ [Generator.Settle 0 5 None].

(** A device that is not low-end showing a 100 second video, nothing
    cached, every extraction finishing in turn. *)
Definition high_end_exec (events : list Generator.Event) : Generator.World :=
  Generator.exec (THUMBNAIL_COUNT false) (MAX_CONCURRENT_THUMBNAILS false)
                 (THUMBNAIL_CONFIG_quality false)
                 (Generator.initial (THUMBNAIL_COUNT false)
                                    ThumbnailCache.empty)
                 events.

Definition hundred_second_run : list Generator.Event :=
  Generator.Effect "v" 100
  :: schedule 0 [(0, Some "frame0"); (1, Some "frame1"); (2, Some "frame2");
                 (3, Some "frame3"); (4, Some "frame4"); (5, Some "frame5");
                 (6, Some "frame6"); (7, Some "frame7"); (8, Some "frame8");
                 (9, Some "frame9")]%string.

Section RenderVocabulary.
Import Scrubber.
Variables (SCREEN_WIDTH : Q) (s : Scrubber.t).

(** Where the progress fill ends and where the playhead starts once a tap
    or a move at pointer offset [event_x] has set the progress. *)
Definition fill_at (event_x : Q) : Q :=
  Render.progressOverlay_width SCREEN_WIDTH
    (progress (fst (tap_onEnd SCREEN_WIDTH event_x s))).

Definition playhead_at (event_x : Q) : Q :=
  Render.playhead_translateX SCREEN_WIDTH
    (progress (fst (tap_onEnd SCREEN_WIDTH event_x s))).

End RenderVocabulary.

(** C8 as worded, on the numbers themselves: the time requested for
    sample [i], taken in seconds, is exactly [(duration / count) * i]. *)
Definition requested_exactly (count : nat) (duration : Q) (i : nat) : Prop :=
  exists ms,
    Double.to_Q (Generator.timeMs count duration i) = Some ms /\
    (ms / 1000
     == duration / inject_Z (Z.of_nat count) * inject_Z (Z.of_nat i))%Q.

(** A device that is not low-end starting on a video of one second. *)
Definition one_second_start : Generator.World :=
  high_end_exec [Generator.Effect "v" 1].

(* ================================================================== *)
(** * Properties of the cache *)
(* ================================================================== *)

Section JsMapFacts.
Context {V : Type}.
Implicit Types (m : JsMap.t V) (k : string) (v : V).

Lemma get_none_not_in m k :
  JsMap.get k m = None <-> ~ In k (JsMap.keys m).
Proof.
  induction m as [|[k' v'] rest IH]; simpl.
  - tauto.
  - destruct (String.eqb_spec k k') as [->|Hne].
    + split; [discriminate | intros H; exfalso; apply H; now left].
    + rewrite IH. split.
      * intros H [E|E]; [congruence | tauto].
      * tauto.
Qed.

Lemma has_true_in m k : JsMap.has k m = true <-> In k (JsMap.keys m).
Proof.
  unfold JsMap.has. destruct (JsMap.get k m) eqn:E.
  - split; [intros _ | reflexivity].
    destruct (in_dec string_dec k (JsMap.keys m)) as [H|H]; [exact H|].
    apply get_none_not_in in H. congruence.
  - apply get_none_not_in in E. split; [discriminate | tauto].
Qed.

Lemma keys_replace m k v : JsMap.keys (JsMap.replace k v m) = JsMap.keys m.
Proof.
  induction m as [|[k' v'] rest IH]; simpl; [reflexivity|].
  destruct (String.eqb k k'); simpl; [reflexivity | now rewrite IH].
Qed.

Lemma get_replace_same m k v :
  In k (JsMap.keys m) -> JsMap.get k (JsMap.replace k v m) = Some v.
Proof.
  induction m as [|[k' v'] rest IH]; simpl; [tauto|].
  intros H. destruct (String.eqb_spec k k') as [->|Hne]; simpl.
  - now rewrite String.eqb_refl.
  - destruct (String.eqb_spec k k'); [congruence|].
    apply IH. destruct H; [congruence | assumption].
Qed.

Lemma get_app_fresh m k v :
  ~ In k (JsMap.keys m) -> JsMap.get k (m ++ [(k, v)]) = Some v.
Proof.
  induction m as [|[k' v'] rest IH]; simpl; intros H.
  - now rewrite String.eqb_refl.
  - destruct (String.eqb_spec k k') as [->|Hne]; [tauto|].
    apply IH. tauto.
Qed.

Lemma get_set_same m k v : JsMap.get k (JsMap.set k v m) = Some v.
Proof.
  unfold JsMap.set. destruct (JsMap.has k m) eqn:E.
  - apply get_replace_same, has_true_in, E.
  - apply get_app_fresh. intros H. apply has_true_in in H. congruence.
Qed.

Lemma size_replace m k v : JsMap.size (JsMap.replace k v m) = JsMap.size m.
Proof.
  unfold JsMap.size. rewrite <- !(length_map fst).
  change (map fst (JsMap.replace k v m)) with (JsMap.keys (JsMap.replace k v m)).
  now rewrite keys_replace.
Qed.

Lemma size_set_le m k v : JsMap.size (JsMap.set k v m) <= S (JsMap.size m).
Proof.
  unfold JsMap.set. destruct (JsMap.has k m).
  - rewrite size_replace. lia.
  - unfold JsMap.size. rewrite length_app. simpl. lia.
Qed.

Lemma keys_set_nodup m k v :
  NoDup (JsMap.keys m) -> NoDup (JsMap.keys (JsMap.set k v m)).
Proof.
  intros H. unfold JsMap.set. destruct (JsMap.has k m) eqn:E.
  - now rewrite keys_replace.
  - unfold JsMap.keys. rewrite map_app. simpl.
    apply NoDup_app; [exact H | repeat constructor; simpl; tauto |].
    intros x Hx [<-|[]]. apply has_true_in in Hx. congruence.
Qed.

Lemma keys_set_in m k v x :
  In x (JsMap.keys (JsMap.set k v m)) -> x = k \/ In x (JsMap.keys m).
Proof.
  unfold JsMap.set. destruct (JsMap.has k m).
  - rewrite keys_replace. tauto.
  - unfold JsMap.keys. rewrite map_app, in_app_iff. simpl.
    intros [H|[H|[]]]; [tauto | left; congruence].
Qed.

Lemma get_in_nodup m k v :
  NoDup (JsMap.keys m) -> In (k, v) m -> JsMap.get k m = Some v.
Proof.
  induction m as [|[k' v'] rest IH]; simpl; [tauto|].
  intros Hnd [E|Hin].
  - inversion E; subst. now rewrite String.eqb_refl.
  - inversion Hnd as [|? ? Hnot Hnd']; subst.
    destruct (String.eqb_spec k k') as [->|Hne].
    + exfalso. apply Hnot. apply (in_map fst) in Hin. exact Hin.
    + now apply IH.
Qed.
End JsMapFacts.

(** Every key the component builds is a truthy string. *)
Lemma cacheKey_truthy videoUri duration :
  truthy_string (cacheKey videoUri duration) = true.
Proof.
  unfold cacheKey. induction videoUri as [|a rest _]; reflexivity.
Qed.

Lemma evict_full (c : ThumbnailCache.t) :
  cache_wf c -> JsMap.size c = ThumbnailCache.maxSize ->
  exists k0 v0 rest, c = (k0, v0) :: rest /\ ThumbnailCache.evict c = rest.
Proof.
  intros [Hnd Htr Hsz] Hfull.
  destruct c as [|[k0 v0] rest]; [discriminate|].
  exists k0, v0, rest. split; [reflexivity|].
  unfold ThumbnailCache.evict. rewrite Hfull, Nat.leb_refl. simpl.
  inversion Htr as [|? ? Hk0 _]; subst. rewrite Hk0.
  now rewrite String.eqb_refl.
Qed.

Lemma evict_not_full (c : ThumbnailCache.t) :
  JsMap.size c < ThumbnailCache.maxSize -> ThumbnailCache.evict c = c.
Proof.
  intros H. unfold ThumbnailCache.evict.
  destruct (Nat.leb_spec ThumbnailCache.maxSize (JsMap.size c)); [lia|reflexivity].
Qed.

Lemma evict_wf (c : ThumbnailCache.t) :
  cache_wf c ->
  NoDup (JsMap.keys (ThumbnailCache.evict c)) /\
  Forall (fun k => truthy_string k = true) (JsMap.keys (ThumbnailCache.evict c)) /\
  JsMap.size (ThumbnailCache.evict c) < ThumbnailCache.maxSize.
Proof.
  intros Hwf.
  destruct (Nat.eq_dec (JsMap.size c) ThumbnailCache.maxSize) as [Hfull|Hne].
  - destruct (evict_full c Hwf Hfull) as (k0 & v0 & rest & -> & ->).
    destruct Hwf as [Hnd Htr Hsz]. simpl in *.
    inversion Hnd; inversion Htr; subst.
    repeat split; try assumption; unfold JsMap.size in *; simpl in *; lia.
  - destruct Hwf as [Hnd Htr Hsz].
    rewrite evict_not_full by lia. repeat split; try assumption; lia.
Qed.

Lemma set_wf (c : ThumbnailCache.t) key thumbnails :
  cache_wf c -> truthy_string key = true ->
  cache_wf (ThumbnailCache.set key thumbnails c).
Proof.
  intros Hwf Hkey. destruct (evict_wf c Hwf) as (Hnd & Htr & Hsz).
  unfold ThumbnailCache.set. constructor.
  - now apply keys_set_nodup.
  - apply Forall_forall. intros x Hx.
    apply keys_set_in in Hx as [->|Hx]; [exact Hkey|].
    rewrite Forall_forall in Htr. now apply Htr.
  - pose proof (size_set_le (ThumbnailCache.evict c) key thumbnails). lia.
Qed.

Lemma reachable_wf (c : ThumbnailCache.t) : cache_reachable c -> cache_wf c.
Proof.
  induction 1.
  - constructor; simpl; [constructor | constructor | unfold ThumbnailCache.maxSize; lia].
  - apply set_wf; [assumption | apply cacheKey_truthy].
  - constructor; simpl; [constructor | constructor | unfold ThumbnailCache.maxSize; lia].
Qed.

(** Storing under a key that is absent: the oldest entry leaves when the
    cache is full, and the new entry goes last. *)
Lemma set_fresh (c : ThumbnailCache.t) key thumbnails :
  cache_wf c -> ~ In key (JsMap.keys c) ->
  ThumbnailCache.set key thumbnails c
  = lastn ThumbnailCache.maxSize (c ++ [(key, thumbnails)]).
Proof.
  intros Hwf Hfresh.
  assert (Habsent : forall c' : ThumbnailCache.t,
             (forall x, In x (JsMap.keys c') -> In x (JsMap.keys c)) ->
             JsMap.set key thumbnails c' = c' ++ [(key, thumbnails)]).
  { intros c' Hsub. unfold JsMap.set.
    destruct (JsMap.has key c') eqn:E; [|reflexivity].
    apply has_true_in in E. exfalso. auto. }
  unfold ThumbnailCache.set, lastn. rewrite length_app. simpl.
  destruct (Nat.eq_dec (JsMap.size c) ThumbnailCache.maxSize) as [Hfull|Hne].
  - destruct (evict_full c Hwf Hfull) as (k0 & v0 & rest & -> & ->).
    unfold JsMap.size in Hfull. simpl in Hfull.
    rewrite Habsent by (intros x Hx; simpl; tauto).
    simpl length. replace (S (length rest) + 1 - ThumbnailCache.maxSize) with 1 by lia.
    reflexivity.
  - pose proof (wf_size c Hwf) as Hsz. unfold JsMap.size in *.
    rewrite evict_not_full by (unfold JsMap.size; lia).
    rewrite Habsent by auto.
    replace (length c + 1 - ThumbnailCache.maxSize) with 0 by lia.
    reflexivity.
Qed.

Lemma lastn_short {A : Type} (n : nat) (l : list A) :
  length l <= n -> lastn n l = l.
Proof.
  intros H. unfold lastn. replace (length l - n) with 0 by lia. reflexivity.
Qed.

Lemma lastn_length {A : Type} (n : nat) (l : list A) :
  length (lastn n l) = Nat.min n (length l).
Proof. unfold lastn. rewrite length_skipn. lia. Qed.

Lemma lastn_snoc {A : Type} (n : nat) (l : list A) (x : A) :
  1 <= n -> lastn n (lastn n l ++ [x]) = lastn n (l ++ [x]).
Proof.
  intros Hn. destruct (Nat.le_gt_cases (length l) n) as [Hle|Hgt].
  - now rewrite (lastn_short n l).
  - unfold lastn at 1 3. rewrite !length_app, lastn_length. simpl.
    replace (Nat.min n (length l) + 1 - n) with 1 by lia.
    unfold lastn. rewrite !skipn_app, skipn_skipn.
    replace (1 - length (skipn (length l - n) l)) with 0
      by (rewrite length_skipn; lia).
    replace (length l + 1 - n - length l) with 0 by lia.
    replace (1 + (length l - n)) with (length l + 1 - n) by lia.
    reflexivity.
Qed.

Lemma lastn_incl {A : Type} (n : nat) (l : list A) x :
  In x (lastn n l) -> In x l.
Proof.
  unfold lastn. intros H. rewrite <- (firstn_skipn (length l - n) l).
  apply in_or_app. now right.
Qed.

Lemma lastn_keys_nodup {A B : Type} (n : nat) (l : list (A * B)) :
  NoDup (map fst l) -> NoDup (map fst (lastn n l)).
Proof.
  unfold lastn. intros H.
  rewrite <- (firstn_skipn (length l - n) l), map_app in H.
  now apply NoDup_app_remove_l in H.
Qed.

(** Storing entries with distinct truthy keys into the empty cache keeps
    the last [maxSize] of them, in the order they were stored. *)
Lemma set_all_distinct (entries : list (string * list slot)) :
  NoDup (map fst entries) ->
  Forall (fun k => truthy_string k = true) (map fst entries) ->
  set_all entries ThumbnailCache.empty = lastn ThumbnailCache.maxSize entries
  /\ cache_wf (set_all entries ThumbnailCache.empty).
Proof.
  induction entries as [|[k v] entries IH] using rev_ind; intros Hnd Htr.
  - split; [reflexivity|].
    constructor; simpl; [constructor | constructor | unfold ThumbnailCache.maxSize; lia].
  - rewrite map_app in Hnd, Htr. simpl in Hnd, Htr.
    apply Forall_app in Htr as [Htr Hk]. inversion Hk as [|? ? Hk' _]; subst.
    pose proof (NoDup_app_remove_r _ _ Hnd) as Hnd'.
    destruct (IH Hnd' Htr) as [IHeq IHwf].
    unfold set_all in *. rewrite fold_left_app. simpl.
    assert (Hfresh : ~ In k (JsMap.keys
              (fold_left (fun acc kv => ThumbnailCache.set (fst kv) (snd kv) acc)
                         entries ThumbnailCache.empty))).
    { rewrite IHeq. intros Hin. unfold JsMap.keys in Hin.
      apply in_map_iff in Hin as ([k' v'] & Hk1 & Hin). simpl in Hk1. subst k'.
      apply lastn_incl in Hin. apply (in_map fst) in Hin. simpl in Hin.
      apply NoDup_remove_2 in Hnd. rewrite app_nil_r in Hnd. tauto. }
    split.
    + rewrite set_fresh by assumption. rewrite IHeq.
      apply lastn_snoc. unfold ThumbnailCache.maxSize. lia.
    + apply set_wf; assumption.
Qed.

Lemma set_all_reachable entries c :
  cache_reachable c -> cache_reachable (set_all (keyed entries) c).
Proof.
  revert c. induction entries as [|[[u d] v] entries IH]; intros c Hc.
  - exact Hc.
  - simpl. apply IH. now apply reach_set.
Qed.

Lemma keyed_truthy entries :
  Forall (fun k => truthy_string k = true) (map fst (keyed entries)).
Proof.
  induction entries as [|[[u d] v] entries IH]; simpl; constructor.
  - apply cacheKey_truthy.
  - exact IH.
Qed.

(** C2: the cache never holds more than [maxSize] = 5 entries; a [set] on
    a full cache first deletes exactly one entry, the one stored earliest,
    and then stores the new one, which for an absent key goes last; and
    after [maxSize + 1] entries
    with distinct keys the cache holds exactly the last [maxSize] of them,
    the first key being absent and the others present. *)
Theorem cache_bounded_fifo_eviction
  (c : ThumbnailCache.t) (videoUri : string) (duration : Q)
  (thumbnails : list slot) (entries : list (string * Q * list slot)) :
  cache_reachable c ->
  NoDup (map fst (keyed entries)) ->
  length entries = S ThumbnailCache.maxSize ->
  ThumbnailCache.maxSize = 5 /\
  JsMap.size c <= ThumbnailCache.maxSize /\
  (JsMap.size c = ThumbnailCache.maxSize ->
   exists k0 v0 rest,
     c = (k0, v0) :: rest /\
     ThumbnailCache.evict c = rest /\
     ThumbnailCache.set (cacheKey videoUri duration) thumbnails c
     = JsMap.set (cacheKey videoUri duration) thumbnails rest /\
     (ThumbnailCache.get (cacheKey videoUri duration) c = None ->
      ThumbnailCache.set (cacheKey videoUri duration) thumbnails c
      = rest ++ [(cacheKey videoUri duration, thumbnails)])) /\
  (let after := set_all (keyed entries) ThumbnailCache.empty in
   JsMap.size after = ThumbnailCache.maxSize /\
   after = tl (keyed entries) /\
   (forall k0 v0, hd_error (keyed entries) = Some (k0, v0) ->
                  ThumbnailCache.get k0 after = None) /\
   (forall k v, In (k, v) (tl (keyed entries)) ->
                ThumbnailCache.get k after = Some v)).
Proof.
  intros Hreach Hnd Hlen.
  pose proof (reachable_wf c Hreach) as Hwf.
  split; [reflexivity|]. split; [apply (wf_size c Hwf)|]. split.
  - intros Hfull.
    destruct (evict_full c Hwf Hfull) as (k0 & v0 & rest & Hc & Hev).
    exists k0, v0, rest. split; [exact Hc|]. split; [exact Hev|].
    unfold ThumbnailCache.set. rewrite Hev. split; [reflexivity|].
    intros Habsent.
    unfold ThumbnailCache.get in Habsent. apply get_none_not_in in Habsent.
    unfold JsMap.set.
    destruct (JsMap.has (cacheKey videoUri duration) rest) eqn:E;
      [|reflexivity].
    apply has_true_in in E. exfalso. apply Habsent.
    subst c. simpl. now right.
  - destruct (set_all_distinct (keyed entries) Hnd (keyed_truthy entries))
      as [Heq Hwf'].
    assert (Htl : lastn ThumbnailCache.maxSize (keyed entries) = tl (keyed entries)).
    { unfold lastn, keyed. rewrite length_map, Hlen.
      replace (S ThumbnailCache.maxSize - ThumbnailCache.maxSize) with 1 by lia.
      destruct (map _ entries); reflexivity. }
    cbv zeta. rewrite Heq, Htl.
    assert (Hlen' : length (keyed entries) = S ThumbnailCache.maxSize)
      by (unfold keyed; now rewrite length_map).
    destruct (keyed entries) as [|[k0' v0'] rest] eqn:E; [discriminate|].
    simpl in *. inversion Hnd as [|? ? Hnot Hnd']; subst.
    repeat split.
    + unfold JsMap.size. lia.
    + intros k0 v0 Hhd. inversion Hhd; subst.
      apply get_none_not_in. exact Hnot.
    + intros k v Hin. now apply get_in_nodup.
Qed.

Lemma cache_bounded_fifo_eviction_witness :
  let c := set_all (keyed [("a", 1%Q, []); ("b", 2%Q, []); ("c", 3%Q, []);
                           ("d", 4%Q, []); ("e", 5%Q, [])]%string)
                   ThumbnailCache.empty in
  let entries := [("a", 1%Q, []); ("b", 2%Q, []); ("c", 3%Q, []);
                  ("d", 4%Q, []); ("e", 5%Q, []); ("f", 6%Q, [Some "x"])]%string in
  JsMap.size c <= 5 /\
  ThumbnailCache.get "a_1" (ThumbnailCache.set (cacheKey "f" 6%Q) [] c) = None /\
  JsMap.keys (set_all (keyed entries) ThumbnailCache.empty)
  = ["b_2"; "c_3"; "d_4"; "e_5"; "f_6"]%string.
Proof.
  intros c entries.
  assert (Hreach : cache_reachable c)
    by (apply set_all_reachable, reach_empty).
  assert (Hnd : NoDup (map fst (keyed entries)))
    by (vm_compute; repeat constructor; simpl; intuition discriminate).
  destruct (cache_bounded_fifo_eviction c "f" 6%Q [] entries Hreach Hnd eq_refl)
    as (_ & Hsize & Hfull & _ & Hafter & _).
  split; [exact Hsize|]. split.
  - destruct (Hfull eq_refl) as (k0 & v0 & rest & Hc & _ & _ & Hfresh).
    rewrite (Hfresh eq_refl).
    vm_compute in Hc. inversion Hc; subst. reflexivity.
  - rewrite Hafter. reflexivity.
Defined.

(** C10: a [set] under a key that is already present, on a cache of
    exactly five entries, still deletes the entry stored earliest: if that
    is another key, its entry is lost and four entries remain; if it is
    the key being stored, the entry moves to the newest position. *)
Theorem set_present_key_still_evicts
  (c : ThumbnailCache.t) (key : string) (thumbnails : list slot) :
  cache_reachable c ->
  JsMap.size c = 5 ->
  JsMap.has key c = true ->
  exists k0 v0 rest,
    c = (k0, v0) :: rest /\
    (key <> k0 ->
     ThumbnailCache.set key thumbnails c = JsMap.replace key thumbnails rest /\
     JsMap.keys (ThumbnailCache.set key thumbnails c) = JsMap.keys rest /\
     JsMap.size (ThumbnailCache.set key thumbnails c) = 4 /\
     ThumbnailCache.get k0 (ThumbnailCache.set key thumbnails c) = None /\
     ThumbnailCache.get key (ThumbnailCache.set key thumbnails c)
     = Some thumbnails) /\
    (key = k0 ->
     ThumbnailCache.set key thumbnails c = rest ++ [(key, thumbnails)] /\
     JsMap.size (ThumbnailCache.set key thumbnails c) = 5).
Proof.
  intros Hreach Hfull Hhas.
  pose proof (reachable_wf c Hreach) as Hwf.
  destruct (evict_full c Hwf Hfull) as (k0 & v0 & rest & Hc & Hev).
  exists k0, v0, rest. split; [exact Hc|].
  unfold ThumbnailCache.set, ThumbnailCache.get. rewrite Hev.
  subst c. destruct Hwf as [Hnd _ _]. simpl in Hnd.
  inversion Hnd as [|? ? Hnot Hnd']; subst.
  apply has_true_in in Hhas. simpl in Hhas.
  unfold JsMap.size in Hfull. simpl in Hfull.
  split.
  - intros Hne.
    assert (Hin : In key (JsMap.keys rest)) by (destruct Hhas; congruence).
    assert (Hset : JsMap.set key thumbnails rest = JsMap.replace key thumbnails rest).
    { unfold JsMap.set. apply has_true_in in Hin. now rewrite Hin. }
    rewrite Hset. repeat split.
    + apply keys_replace.
    + rewrite size_replace. unfold JsMap.size. lia.
    + apply get_none_not_in. now rewrite keys_replace.
    + now apply get_replace_same.
  - intros ->.
    assert (Hset : JsMap.set k0 thumbnails rest = rest ++ [(k0, thumbnails)]).
    { unfold JsMap.set. destruct (JsMap.has k0 rest) eqn:E; [|reflexivity].
      apply has_true_in in E. tauto. }
    rewrite Hset. split; [reflexivity|].
    unfold JsMap.size. rewrite length_app. simpl. lia.
Qed.

Lemma set_present_key_still_evicts_witness :
  let c := set_all (keyed [("a", 1%Q, []); ("b", 2%Q, []); ("c", 3%Q, []);
                           ("d", 4%Q, []); ("e", 5%Q, [])]%string)
                   ThumbnailCache.empty in
  JsMap.keys (ThumbnailCache.set "c_3" [Some "x"%string] c)
  = ["b_2"; "c_3"; "d_4"; "e_5"]%string /\
  JsMap.keys (ThumbnailCache.set "a_1" [Some "x"%string] c)
  = ["b_2"; "c_3"; "d_4"; "e_5"; "a_1"]%string.
Proof.
  intros c.
  assert (Hreach : cache_reachable c)
    by (apply set_all_reachable, reach_empty).
  split.
  - destruct (set_present_key_still_evicts c "c_3" [Some "x"%string]
                Hreach eq_refl eq_refl) as (k0 & v0 & rest & Hc & Hother & _).
    vm_compute in Hc. inversion Hc; subst.
    destruct Hother as (_ & -> & _); [discriminate | reflexivity].
  - destruct (set_present_key_still_evicts c "a_1" [Some "x"%string]
                Hreach eq_refl eq_refl) as (k0 & v0 & rest & Hc & _ & Hsame).
    vm_compute in Hc. inversion Hc; subst.
    destruct Hsame as (-> & _); reflexivity.
Defined.

(* ================================================================== *)
(** * Properties of generateThumbnailsWithLimit *)
(* ================================================================== *)

Section PoolFacts.
Context {T : Type}.
Implicit Types (p : Pool.t T) (q e s : list nat) (r : list T).

Lemma existsb_eqb_in k e : existsb (Nat.eqb k) e = true <-> In k e.
Proof.
  rewrite existsb_exists. split.
  - intros (x & Hx & E). apply Nat.eqb_eq in E. now subst.
  - intros H. exists k. split; [exact H | apply Nat.eqb_refl].
Qed.

Lemma remove_first_perm k e :
  In k e -> Permutation (k :: Pool.remove_first k e) e.
Proof.
  induction e as [|x rest IH]; simpl; [tauto|].
  intros H. destruct (Nat.eqb_spec x k) as [->|Hne].
  - reflexivity.
  - destruct H as [H|H]; [congruence|].
    rewrite perm_swap. constructor. now apply IH.
Qed.

Lemma splice_perm k e :
  In k e -> Permutation (k :: Pool.splice_indexOf k e) e.
Proof.
  intros H. unfold Pool.splice_indexOf.
  apply existsb_eqb_in in H as H'. rewrite H'.
  now apply remove_first_perm.
Qed.

Lemma splice_length k e :
  In k e -> S (length (Pool.splice_indexOf k e)) = length e.
Proof.
  intros H. apply splice_perm, Permutation_length in H. exact H.
Qed.

(** What one stretch of the loop does: it starts a prefix [new] of the
    queue, in order, and stops either at the end of the queue or with a
    full window. *)
Lemma for_loop_spec limit q e r s :
  exists new,
    new ++ Pool.queue (Pool.for_loop limit q e r s) = q /\
    Pool.executing (Pool.for_loop limit q e r s) = e ++ new /\
    Pool.started (Pool.for_loop limit q e r s) = s ++ new /\
    Pool.results (Pool.for_loop limit q e r s) = r /\
    (Pool.loop (Pool.for_loop limit q e r s) = Pool.AwaitAll /\
     Pool.queue (Pool.for_loop limit q e r s) = []
     \/
     Pool.loop (Pool.for_loop limit q e r s) = Pool.AwaitRace false /\
     limit <= length (e ++ new) /\ 1 <= length (e ++ new)) /\
    (length e < limit -> length (e ++ new) <= limit) /\
    (forall x rest, q = x :: rest -> exists new', new = x :: new').
Proof.
  revert e s. induction q as [|x rest IH]; intros e s; simpl.
  - exists []. rewrite !app_nil_r. repeat split; auto; try lia.
    intros; discriminate.
  - destruct (Nat.leb_spec limit (length (e ++ [x]))) as [Hfull|Hroom]; simpl.
    + exists [x]. repeat split; auto.
      * right. repeat split; auto. rewrite length_app. simpl. lia.
      * rewrite length_app in *. simpl in *. lia.
      * intros y rest' E. inversion E; subst. now exists [].
    + destruct (IH (e ++ [x]) (s ++ [x]))
        as (new & Hq & He & Hs & Hr & Hl & Hb & _).
      exists (x :: new). rewrite <- !app_assoc in *. simpl in *.
      split; [now rewrite Hq|]. split; [exact He|]. split; [exact Hs|].
      split; [exact Hr|]. split; [exact Hl|]. split.
      * intros _. apply Hb. exact Hroom.
      * intros y rest' E. inversion E; subst. now exists new.
Qed.

Lemma for_loop_inv limit resolves tasks q e r s :
  s ++ q = tasks ->
  (exists done, Forall2 resolves done r /\ Permutation (done ++ e) s) ->
  (1 <= limit -> length e < limit) ->
  pool_inv limit resolves tasks (Pool.for_loop limit q e r s).
Proof.
  intros Ht (done & Hres & Hperm) Hroom.
  destruct (for_loop_spec limit q e r s)
    as (new & Hq & He & Hs & Hr & Hl & Hb & _).
  constructor.
  - rewrite Hs, <- app_assoc, Hq. exact Ht.
  - exists done. rewrite Hr, He, Hs, app_assoc. split; [exact Hres|].
    now apply Permutation_app_tail.
  - destruct Hl as [[-> Hnil]|[-> Hfull]]; [exact Hnil|].
    now rewrite He.
  - intros H1. rewrite He. auto.
Qed.

Lemma start_inv limit (resolves : nat -> T -> Prop) tasks :
  pool_inv limit resolves tasks (Pool.start limit tasks).
Proof.
  unfold Pool.start. apply for_loop_inv.
  - reflexivity.
  - exists []. split; constructor.
  - simpl. lia.
Qed.

Lemma settle_inv limit resolves tasks k x p :
  pool_inv limit resolves tasks p ->
  In k (Pool.executing p) -> resolves k x ->
  pool_inv limit resolves tasks (Pool.settle k x p).
Proof.
  intros [Ht (done & Hres & Hperm) Hl Hb] Hin Hx.
  pose proof (splice_length k _ Hin) as Hlen.
  constructor; simpl.
  - exact Ht.
  - exists (done ++ [k]). split.
    + apply Forall2_app; [exact Hres | repeat constructor; exact Hx].
    + rewrite <- Hperm, <- app_assoc. apply Permutation_app_head.
      simpl. now apply splice_perm.
  - destruct (Pool.loop p) as [[|]| |].
    + intros H1. specialize (Hl H1). lia.
    + intros H1. specialize (Hb H1). lia.
    + exact Hl.
    + destruct Hl as [_ Hnil]. rewrite Hnil in Hin. destruct Hin.
  - intros H1. specialize (Hb H1). lia.
Qed.

Lemma resume_inv limit resolves tasks p :
  pool_inv limit resolves tasks p ->
  pool_inv limit resolves tasks (Pool.resume limit p).
Proof.
  intros Hinv. pose proof Hinv as [Ht Hdone Hl Hb].
  unfold Pool.resume.
  destruct (Pool.loop p) as [[|]| |] eqn:El; try exact Hinv.
  - apply for_loop_inv; assumption.
  - destruct (Pool.executing p) eqn:Ee; [|exact Hinv].
    constructor; simpl; auto; lia.
Qed.

Lemma reachable_inv limit resolves tasks p :
  Pool.reachable limit resolves tasks p -> pool_inv limit resolves tasks p.
Proof.
  induction 1 as [|p p' _ IH Hstep].
  - apply start_inv.
  - destruct Hstep.
    + now apply settle_inv.
    + now apply resume_inv.
Qed.

(** Every job brings the call closer to its return. *)
Lemma step_measure limit resolves p p' :
  Pool.step limit resolves p p' -> Pool.measure p' < Pool.measure p.
Proof.
  intros [k x p0 Hin _|p0 Hres]; unfold Pool.measure.
  - pose proof (splice_length k _ Hin) as Hlen. simpl.
    destruct (Pool.loop p0) as [[|]| |]; simpl; lia.
  - unfold Pool.can_resume in Hres. unfold Pool.resume.
    destruct (Pool.loop p0) as [[|]| |] eqn:El; try discriminate.
    + destruct (for_loop_spec limit (Pool.queue p0) (Pool.executing p0)
                  (Pool.results p0) (Pool.started p0))
        as (new & Hq & He & _ & _ & Hl & _).
      set (F := Pool.for_loop _ _ _ _ _) in *. clearbody F.
      rewrite <- Hq, He, !length_app.
      destruct Hl as [[-> _]|[-> _]]; simpl; lia.
    + destruct (Pool.executing p0); [simpl; lia | discriminate].
Qed.

(** A call that has not returned always has a job to run. *)
Lemma step_progress limit resolves tasks p :
  (forall k, exists x, resolves k x) ->
  pool_inv limit resolves tasks p ->
  Pool.loop p <> Pool.Returned ->
  exists p', Pool.step limit resolves p p'.
Proof.
  intros Htotal [_ _ Hl _] Hnot.
  destruct (Pool.executing p) as [|k rest] eqn:Ee.
  - exists (Pool.resume limit p). constructor. unfold Pool.can_resume.
    destruct (Pool.loop p) as [[|]| |] eqn:El.
    + reflexivity.
    + simpl in Hl. lia.
    + now rewrite Ee.
    + exfalso. now apply Hnot.
  - destruct (Htotal k) as [x Hx].
    exists (Pool.settle k x p). constructor; [rewrite Ee; now left | exact Hx].
Qed.
End PoolFacts.

Lemma queue_nonempty_in_loop {T : Type} limit resolves tasks (p : Pool.t T) :
  pool_inv limit resolves tasks p ->
  Pool.queue p <> [] ->
  exists settled, Pool.loop p = Pool.AwaitRace settled.
Proof.
  intros [_ _ Hl _] Hq.
  destruct (Pool.loop p) as [b| |]; [now exists b | tauto | tauto].
Qed.

Lemma window_general {T : Type} limit resolves tasks (p : Pool.t T) :
  1 <= limit ->
  Pool.reachable limit resolves tasks p ->
  length (Pool.executing p) <= limit /\
  (forall next rest,
      Pool.queue p = next :: rest ->
      length (Pool.executing p) < limit ->
      Pool.can_resume p = true /\
      In next (Pool.executing (Pool.resume limit p)) /\
      (length (Pool.executing (Pool.resume limit p)) = limit \/
       Pool.queue (Pool.resume limit p) = [])) /\
  (forall k x next rest,
      In k (Pool.executing p) ->
      Pool.queue p = next :: rest ->
      length (Pool.executing p) = limit ->
      Pool.can_resume (Pool.settle k x p) = true /\
      Pool.executing (Pool.resume limit (Pool.settle k x p))
      = Pool.splice_indexOf k (Pool.executing p) ++ [next] /\
      Pool.queue (Pool.resume limit (Pool.settle k x p)) = rest).
Proof.
  intros Hlimit Hreach. pose proof (reachable_inv _ _ _ _ Hreach) as Hinv.
  split; [now apply (inv_bound _ _ _ _ Hinv)|]. split.
  - intros next rest Hq Hroom.
    destruct (queue_nonempty_in_loop _ _ _ _ Hinv) as [b Hb];
      [rewrite Hq; discriminate|].
    pose proof (inv_loop _ _ _ _ Hinv) as Hl. rewrite Hb in Hl.
    destruct b; [|lia].
    unfold Pool.can_resume, Pool.resume. rewrite Hb.
    split; [reflexivity|].
    destruct (for_loop_spec limit (Pool.queue p) (Pool.executing p)
                (Pool.results p) (Pool.started p))
      as (new & Hnew & He & _ & _ & Hstop & Hbound & Hhead).
    destruct (Hhead next rest Hq) as [new' ->].
    rewrite He. split.
    + apply in_or_app. right. now left.
    + destruct Hstop as [[_ Hnil]|[_ [Hfull _]]]; [now right|].
      left. specialize (Hbound Hroom). lia.
  - intros k x next rest Hin Hq Hfull.
    destruct (queue_nonempty_in_loop _ _ _ _ Hinv) as [b Hb];
      [rewrite Hq; discriminate|].
    pose proof (splice_length k _ Hin) as Hlen.
    unfold Pool.can_resume, Pool.resume, Pool.settle. simpl. rewrite Hb, Hq.
    simpl. split; [reflexivity|].
    destruct (Nat.leb_spec limit
                (length (Pool.splice_indexOf k (Pool.executing p) ++ [next])))
      as [_|Hlt].
    + split; reflexivity.
    + rewrite length_app in Hlt. simpl in Hlt. lia.
Qed.

(** C9: in a generation run, whose limit is [MAX_CONCURRENT_THUMBNAILS],
    the [executing] array never holds more than the limit; whenever it
    holds fewer while tasks are queued, the suspended loop is ready to
    continue, and continuing starts the next queued task and refills the
    window; and when one task of a full window resolves, the next queued
    task is started at once, the rest of the window still being in
    flight. *)
Theorem sliding_window_admission (IS_LOW_END_DEVICE : bool) (T : Type)
  (resolves : nat -> T -> Prop) (tasks : list nat) (p : Pool.t T) :
  Pool.reachable (MAX_CONCURRENT_THUMBNAILS IS_LOW_END_DEVICE) resolves tasks p ->
  length (Pool.executing p) <= MAX_CONCURRENT_THUMBNAILS IS_LOW_END_DEVICE /\
  (forall next rest,
      Pool.queue p = next :: rest ->
      length (Pool.executing p) < MAX_CONCURRENT_THUMBNAILS IS_LOW_END_DEVICE ->
      Pool.can_resume p = true /\
      In next (Pool.executing
                 (Pool.resume (MAX_CONCURRENT_THUMBNAILS IS_LOW_END_DEVICE) p)) /\
      (length (Pool.executing
                 (Pool.resume (MAX_CONCURRENT_THUMBNAILS IS_LOW_END_DEVICE) p))
       = MAX_CONCURRENT_THUMBNAILS IS_LOW_END_DEVICE \/
       Pool.queue (Pool.resume (MAX_CONCURRENT_THUMBNAILS IS_LOW_END_DEVICE) p)
       = [])) /\
  (forall k x next rest,
      In k (Pool.executing p) ->
      Pool.queue p = next :: rest ->
      length (Pool.executing p) = MAX_CONCURRENT_THUMBNAILS IS_LOW_END_DEVICE ->
      Pool.can_resume (Pool.settle k x p) = true /\
      Pool.executing
        (Pool.resume (MAX_CONCURRENT_THUMBNAILS IS_LOW_END_DEVICE)
                     (Pool.settle k x p))
      = Pool.splice_indexOf k (Pool.executing p) ++ [next] /\
      Pool.queue
        (Pool.resume (MAX_CONCURRENT_THUMBNAILS IS_LOW_END_DEVICE)
                     (Pool.settle k x p))
      = rest).
Proof.
  apply window_general. destruct IS_LOW_END_DEVICE; simpl; lia.
Qed.

Lemma sliding_window_admission_witness :
  let p := Pool.settle 1 (Some "f1"%string)
             (Pool.start (MAX_CONCURRENT_THUMBNAILS true) (seq 0 6)) in
  length (Pool.executing p) <= 2 /\
  Pool.executing (Pool.resume 2 p) = [0; 2] /\
  Pool.executing
    (Pool.resume 2 (Pool.settle 0 (Some "f0"%string) (Pool.resume 2 p)))
  = [2; 3].
Proof.
  intros p.
  assert (Hp : Pool.reachable (MAX_CONCURRENT_THUMBNAILS true)
                 (fun _ (_ : slot) => True) (seq 0 6) p).
  { eapply Pool.reachable_step; [apply Pool.reachable_start|].
    apply Pool.step_settle; [vm_compute; auto | exact I]. }
  destruct (sliding_window_admission true slot _ _ _ Hp) as (Hbound & Hfill & _).
  destruct (Hfill 2 [3; 4; 5] eq_refl) as (Hready & _ & _); [vm_compute; lia|].
  assert (Hp' : Pool.reachable (MAX_CONCURRENT_THUMBNAILS true)
                  (fun _ (_ : slot) => True) (seq 0 6) (Pool.resume 2 p)).
  { eapply Pool.reachable_step; [exact Hp|].
    apply (Pool.step_resume 2 _ p Hready). }
  destruct (sliding_window_admission true slot _ _ _ Hp') as (_ & _ & Hslide).
  destruct (Hslide 0 (Some "f0"%string) 3 [4; 5]) as (_ & Hexec & _);
    [vm_compute; auto | reflexivity | reflexivity |].
  split; [exact Hbound|]. split; [reflexivity|]. exact Hexec.
Defined.

Lemma array_set_app {A : Type} (hole : A) pre x rest v :
  array_set hole (pre ++ x :: rest) (length pre) v = pre ++ v :: rest.
Proof.
  induction pre as [|y pre IH]; simpl; [reflexivity | now rewrite IH].
Qed.

Lemma forEach_fold rs : forall pre m,
  fold_left Generator.forEach_store
    (combine (seq (length pre) (length rs)) rs)
    (pre ++ repeat None (length rs + m))
  = pre ++ map keep_truthy rs ++ repeat None m.
Proof.
  induction rs as [|r rs IH]; intros pre m.
  - reflexivity.
  - cbn [length seq combine fold_left repeat Nat.add map].
    assert (Hstep : Generator.forEach_store
                      (pre ++ None :: repeat None (length rs + m))
                      (length pre, r)
                    = (pre ++ [keep_truthy r]) ++ repeat None (length rs + m)).
    { unfold Generator.forEach_store, keep_truthy. destruct (truthy r).
      - now rewrite array_set_app, <- app_assoc.
      - now rewrite <- app_assoc. }
    rewrite Hstep.
    replace (S (length pre)) with (length (pre ++ [keep_truthy r]))
      by (rewrite length_app; simpl; lia).
    rewrite IH, <- app_assoc. reflexivity.
Qed.

(** With as many results as slots, [forEach] writes result [idx] of the
    [results] array into slot [idx], and nowhere else. *)
Lemma orderedResults_map count results :
  length results = count ->
  Generator.orderedResults count results = map keep_truthy results.
Proof.
  intros <-. unfold Generator.orderedResults, Array_fill.
  pose proof (forEach_fold results [] 0) as H. simpl in H.
  rewrite Nat.add_0_r, app_nil_r in H. exact H.
Qed.

Lemma resume_id {T : Type} limit (p : Pool.t T) :
  Pool.can_resume p = false -> Pool.resume limit p = p.
Proof.
  unfold Pool.can_resume, Pool.resume.
  destruct (Pool.loop p) as [[|]| |]; try reflexivity; try discriminate.
  destruct (Pool.executing p); [discriminate | reflexivity].
Qed.

Lemma nth_modulo_in (pick : nat) (e : list nat) k0 :
  e <> [] -> In (nth (Nat.modulo pick (length e)) e k0) e.
Proof.
  intros He. apply nth_In. apply Nat.mod_upper_bound.
  destruct e; [congruence | discriminate].
Qed.

Lemma turn_inv {T : Type} limit (outcome : nat -> T) tasks pick (p : Pool.t T) :
  pool_inv limit (fun k r => r = outcome k) tasks p ->
  pool_inv limit (fun k r => r = outcome k) tasks
           (Pool.turn limit outcome pick p).
Proof.
  intros Hinv. unfold Pool.turn.
  destruct (Pool.executing p) as [|k0 rest] eqn:Ee.
  - now apply resume_inv.
  - apply resume_inv, settle_inv; [exact Hinv | | reflexivity].
    rewrite Ee. apply nth_modulo_in. discriminate.
Qed.

Lemma turn_reachable {T : Type} limit (outcome : nat -> T) tasks pick
  (p : Pool.t T) :
  Pool.reachable limit (fun k r => r = outcome k) tasks p ->
  Pool.reachable limit (fun k r => r = outcome k) tasks
                 (Pool.turn limit outcome pick p).
Proof.
  intros Hp.
  assert (Hres : forall p0 : Pool.t T,
             Pool.reachable limit (fun k r => r = outcome k) tasks p0 ->
             Pool.reachable limit (fun k r => r = outcome k) tasks
                            (Pool.resume limit p0)).
  { intros p0 Hp0. destruct (Pool.can_resume p0) eqn:E.
    - eapply Pool.reachable_step; [exact Hp0 | now constructor].
    - now rewrite resume_id. }
  unfold Pool.turn. destruct (Pool.executing p) as [|k0 rest] eqn:Ee.
  - now apply Hres.
  - apply Hres. eapply Pool.reachable_step; [exact Hp|].
    constructor; [|reflexivity].
    rewrite Ee. apply nth_modulo_in. discriminate.
Qed.

Lemma turn_measure {T : Type} limit (outcome : nat -> T) tasks pick
  (p : Pool.t T) :
  pool_inv limit (fun k r => r = outcome k) tasks p ->
  Pool.loop p <> Pool.Returned ->
  Pool.measure (Pool.turn limit outcome pick p) < Pool.measure p.
Proof.
  intros Hinv Hnot.
  assert (Hres : forall p0 : Pool.t T,
             Pool.measure (Pool.resume limit p0) <= Pool.measure p0).
  { intros p0. destruct (Pool.can_resume p0) eqn:E.
    - apply Nat.lt_le_incl.
      apply (step_measure limit (fun k r => r = outcome k)). now constructor.
    - rewrite resume_id by exact E. lia. }
  unfold Pool.turn. destruct (Pool.executing p) as [|k0 rest] eqn:Ee.
  - apply (step_measure limit (fun k r => r = outcome k)). constructor.
    pose proof (inv_loop _ _ _ _ Hinv) as Hl.
    unfold Pool.can_resume. rewrite Ee in *.
    destruct (Pool.loop p) as [[|]| |]; simpl in *;
      [reflexivity | lia | reflexivity | congruence].
  - eapply Nat.le_lt_trans; [apply Hres|].
    apply (step_measure limit (fun k r => r = outcome k)).
    constructor; [|reflexivity].
    rewrite Ee. apply nth_modulo_in. discriminate.
Qed.

Lemma measure_zero_returned {T : Type} (p : Pool.t T) :
  Pool.measure p = 0 -> Pool.loop p = Pool.Returned.
Proof.
  unfold Pool.measure. destruct (Pool.loop p) as [[|]| |]; simpl; try lia.
  reflexivity.
Qed.

Lemma drive_returns {T : Type} limit (outcome : nat -> T) tasks picks :
  forall p : Pool.t T,
    pool_inv limit (fun k r => r = outcome k) tasks p ->
    Pool.measure p <= length picks ->
    Pool.loop (Pool.drive limit outcome picks p) = Pool.Returned.
Proof.
  unfold Pool.drive.
  induction picks as [|pick picks IH]; intros p Hinv Hm; simpl in *.
  - apply measure_zero_returned. lia.
  - apply IH; [now apply turn_inv|].
    destruct (Pool.loop p) as [b| |] eqn:El.
    + pose proof (turn_measure limit outcome tasks pick p Hinv) as H.
      rewrite El in H. assert (Pool.AwaitRace b <> Pool.Returned) by discriminate.
      specialize (H H0). lia.
    + pose proof (turn_measure limit outcome tasks pick p Hinv) as H.
      rewrite El in H. assert (Pool.AwaitAll <> Pool.Returned) by discriminate.
      specialize (H H0). lia.
    + pose proof (inv_loop _ _ _ _ Hinv) as Hl. rewrite El in Hl.
      destruct Hl as [Hq He].
      unfold Pool.turn. rewrite He. unfold Pool.resume. rewrite El.
      unfold Pool.measure. rewrite Hq, He, El. simpl. lia.
Qed.

Lemma drive_reachable {T : Type} limit (outcome : nat -> T) tasks picks :
  forall p : Pool.t T,
    Pool.reachable limit (fun k r => r = outcome k) tasks p ->
    Pool.reachable limit (fun k r => r = outcome k) tasks
                   (Pool.drive limit outcome picks p).
Proof.
  unfold Pool.drive. induction picks as [|pick picks IH]; intros p Hp; simpl.
  - exact Hp.
  - apply IH. now apply turn_reachable.
Qed.

Lemma start_measure {T : Type} limit tasks :
  Pool.measure (Pool.start (T:=T) limit tasks) <= 2 * length tasks + 1.
Proof.
  unfold Pool.start, Pool.measure.
  destruct (for_loop_spec (T:=T) limit tasks [] [] [])
    as (new & Hq & He & _ & _ & Hl & _).
  set (F := Pool.for_loop _ _ _ _ _) in *. clearbody F.
  rewrite <- Hq, He. simpl. rewrite !length_app.
  destruct Hl as [[-> _]|[-> _]]; simpl; lia.
Qed.

Lemma Forall2_eq_map {A B : Type} (f : A -> B) done results :
  Forall2 (fun k r => r = f k) done results -> results = map f done.
Proof. induction 1; simpl; congruence. Qed.

Lemma run_result_eq count quality videoUri duration extraction k :
  run_result count quality videoUri duration extraction k = extraction k.
Proof. reflexivity. Qed.

(** A run that is not cancelled, whatever the order in which its
    extractions finish and whichever of them fail: it always has a job to
    run until it returns, every job brings the return closer, a scheduler
    that keeps picking reaches the return, and at the return every task
    has been started once and the sequence has exactly [count] slots, which
    are, up to their order, the outcomes of the [count] extractions. *)
Lemma generate_returns_all_slots (count limit : nat) (quality : Q)
  (videoUri : string) (duration : Q) (extraction : nat -> option string)
  (picks : list nat) (p : Pool.t slot) :
  Pool.reachable limit
    (run_resolves count quality videoUri duration extraction) (seq 0 count) p ->
  2 * count + 1 <= length picks ->
  (Pool.loop p <> Pool.Returned ->
   exists p',
     Pool.step limit
       (run_resolves count quality videoUri duration extraction) p p') /\
  (forall p',
      Pool.step limit
        (run_resolves count quality videoUri duration extraction) p p' ->
      Pool.measure p' < Pool.measure p) /\
  Pool.loop
    (Pool.drive limit (run_result count quality videoUri duration extraction)
                picks (Pool.start limit (seq 0 count)))
  = Pool.Returned /\
  (Pool.loop p = Pool.Returned ->
   Pool.started p = seq 0 count /\
   length (Generator.orderedResults count (Pool.results p)) = count /\
   Permutation
     (Generator.orderedResults count (Pool.results p))
     (map (fun i => keep_truthy (extraction i)) (seq 0 count)) /\
   Forall (fun s => s = None \/
                    exists i, i < count /\ extraction i = s /\ truthy s = true)
          (Generator.orderedResults count (Pool.results p))).
Proof.
  intros Hreach Hpicks.
  pose proof (reachable_inv _ _ _ _ Hreach) as Hinv.
  split; [|split; [|split]].
  - apply (step_progress _ _ _ _ (fun k => ex_intro _ _ eq_refl) Hinv).
  - intros p'. apply step_measure.
  - apply (drive_returns limit _ (seq 0 count)).
    + apply start_inv.
    + pose proof (start_measure (T:=slot) limit (seq 0 count)) as H.
      rewrite length_seq in H. lia.
  - intros Hret. destruct Hinv as [Ht (done & Hres & Hperm) Hl _].
    rewrite Hret in Hl. destruct Hl as [Hq He].
    rewrite Hq, app_nil_r in Ht. rewrite He, app_nil_r, Ht in Hperm.
    apply Forall2_eq_map in Hres.
    assert (Hlen : length (Pool.results p) = count).
    { rewrite Hres, length_map, (Permutation_length Hperm). apply length_seq. }
    rewrite (orderedResults_map count _ Hlen), Hres, map_map.
    repeat split.
    + exact Ht.
    + rewrite length_map, (Permutation_length Hperm). apply length_seq.
    + apply Permutation_map. exact Hperm.
    + apply Forall_forall. intros s Hs. apply in_map_iff in Hs as (i & <- & Hi).
      rewrite run_result_eq. unfold keep_truthy.
      destruct (truthy (extraction i)) eqn:E; [right | now left].
      exists i. repeat split; [|exact E].
      apply (Permutation_in _ Hperm), in_seq in Hi. lia.
Qed.

(* ================================================================== *)
(** * Properties of the generation effect *)
(* ================================================================== *)

Module GenFacts.
Import Generator.

Section Facts.
Variables (count limit : nat) (quality : Q).

Lemma nth_error_update_nth {A : Type} (f : A -> A) (l : list A) n m :
  nth_error (update_nth n f l) m
  = if Nat.eqb n m then option_map f (nth_error l m) else nth_error l m.
Proof.
  revert n m. induction l as [|x rest IH]; intros n m; simpl.
  - destruct m; simpl; destruct (Nat.eqb n _); reflexivity.
  - destruct n, m; simpl; try reflexivity. apply IH.
Qed.

Lemma length_update_nth {A : Type} (f : A -> A) (l : list A) n :
  length (update_nth n f l) = length l.
Proof.
  revert n. induction l as [|x rest IH]; intros n; simpl; [reflexivity|].
  destruct n; simpl; [reflexivity | now rewrite IH].
Qed.

Lemma visible_abort ref w : visible (abort ref w) = visible w.
Proof. destruct ref; reflexivity. Qed.

Lemma nth_error_abort ref w id :
  nth_error (gens (abort ref w)) id
  = match ref with
    | Some id' =>
        if Nat.eqb id' id
        then option_map (fun g => mkGen true (run g)) (nth_error (gens w) id)
        else nth_error (gens w) id
    | None => nth_error (gens w) id
    end.
Proof. destruct ref; simpl; [apply nth_error_update_nth | reflexivity]. Qed.

Lemma is_aborted_abort_mono ref w id :
  is_aborted id w = true -> is_aborted id (abort ref w) = true.
Proof.
  unfold is_aborted. rewrite nth_error_abort.
  destruct ref as [id'|]; [|tauto].
  destruct (Nat.eqb id' id); [|tauto].
  destruct (nth_error (gens w) id); simpl; [reflexivity | discriminate].
Qed.

Lemma is_aborted_abort_same w id g :
  nth_error (gens w) id = Some g -> is_aborted id (abort (Some id) w) = true.
Proof.
  intros H. unfold is_aborted. rewrite nth_error_abort, Nat.eqb_refl, H.
  reflexivity.
Qed.

Lemma fields_abort ref w :
  cleanup (abort ref w) = cleanup w /\
  isMountedRef (abort ref w) = isMountedRef w /\
  abortControllerRef (abort ref w) = abortControllerRef w /\
  length (gens (abort ref w)) = length (gens w).
Proof.
  destruct ref; simpl; repeat split; auto. apply length_update_nth.
Qed.

Lemma nth_error_set_run id r w id' :
  nth_error (gens (set_run id r w)) id'
  = if Nat.eqb id id'
    then option_map (fun g => mkGen (aborted g) (Some r))
                    (nth_error (gens w) id')
    else nth_error (gens w) id'.
Proof. apply nth_error_update_nth. Qed.

Lemma is_aborted_set_run id r w id' :
  is_aborted id' (set_run id r w) = is_aborted id' w.
Proof.
  unfold is_aborted. rewrite nth_error_set_run.
  destruct (Nat.eqb id id'); [|reflexivity].
  destruct (nth_error (gens w) id'); reflexivity.
Qed.

Lemma gens_complete signal r w : gens (complete count signal r w) = gens w.
Proof.
  unfold complete. destruct (negb signal && isMountedRef w); reflexivity.
Qed.

Lemma cleanup_complete signal r w :
  cleanup (complete count signal r w) = cleanup w /\
  isMountedRef (complete count signal r w) = isMountedRef w.
Proof.
  unfold complete. destruct (negb signal && isMountedRef w) eqn:E; auto.
Qed.

Lemma is_aborted_complete signal r w id :
  is_aborted id (complete count signal r w) = is_aborted id w.
Proof. unfold is_aborted. now rewrite gens_complete. Qed.

Lemma is_aborted_app w id extra thumbs loading mounted ref cl c :
  is_aborted id w = true ->
  is_aborted id (mkWorld thumbs loading mounted ref cl (gens w ++ extra) c)
  = true.
Proof.
  unfold is_aborted. simpl.
  destruct (nth_error (gens w) id) eqn:E; [|discriminate].
  rewrite nth_error_app1 by (apply nth_error_Some; congruence).
  now rewrite E.
Qed.

(** Once aborted, a controller stays aborted. *)
Lemma is_aborted_step w e id :
  is_aborted id w = true -> is_aborted id (step count limit quality w e) = true.
Proof.
  intros H. destruct e as [videoUri duration|id' k extraction|id'|]; simpl.
  - destruct (isMountedRef w); [|exact H].
    unfold effect, effect_body.
    pose proof (is_aborted_abort_mono (cleanup w) w id H) as H0.
    set (w0 := abort (cleanup w) w) in *.
    destruct (Qle_bool duration 0 || negb (truthy_string videoUri)).
    + exact H0.
    + pose proof (is_aborted_abort_mono (abortControllerRef w0) w0 id H0) as H1.
      set (w1 := abort (abortControllerRef w0) w0) in *.
      destruct (match ThumbnailCache.get (cacheKey videoUri duration) (cache w1)
                with Some cached => _ | None => _ end);
        [|destruct (isMountedRef w1)]; now apply is_aborted_app.
  - destruct (nth_error (gens w) id') as [[a [r|]]|] eqn:E; try exact H.
    destruct (existsb _ _); [|exact H].
    now rewrite is_aborted_set_run.
  - destruct (nth_error (gens w) id') as [[a [r|]]|] eqn:E; try exact H.
    destruct (Pool.can_resume (pool r)); [|exact H].
    destruct (Pool.loop _);
      rewrite ?is_aborted_complete, is_aborted_set_run; exact H.
  - now apply is_aborted_abort_mono, is_aborted_abort_mono.
Qed.

Lemma is_aborted_exec events w id :
  is_aborted id w = true ->
  is_aborted id (exec count limit quality w events) = true.
Proof.
  revert w. unfold exec.
  induction events as [|e events IH]; intros w H; simpl; [exact H|].
  apply IH. now apply is_aborted_step.
Qed.

(** A job of an aborted run changes neither the screen state nor the
    cache. *)
Lemma aborted_run_silent w e id :
  is_aborted id w = true -> owner e = Some id ->
  visible (step count limit quality w e) = visible w.
Proof.
  intros Hab Hown.
  destruct e as [videoUri duration|id' k extraction|id'|]; simpl in *;
    try discriminate; inversion Hown; subst id'.
  - destruct (nth_error (gens w) id) as [[a [r|]]|] eqn:E; try reflexivity.
    destruct (existsb _ _); reflexivity.
  - unfold is_aborted in Hab.
    destruct (nth_error (gens w) id) as [[a [r|]]|] eqn:E; try reflexivity.
    simpl in Hab. subst a.
    destruct (Pool.can_resume (pool r)); [|reflexivity].
    destruct (Pool.loop _); reflexivity.
Qed.
End Facts.
End GenFacts.

Module GenInvariants.
Import Generator GenFacts.

Section Invariants.
Variables (count limit : nat) (quality : Q).

Lemma all_aborted_guarded w thumbs loading mounted ref cl c :
  all_aborted w ->
  live_runs_guarded (mkWorld thumbs loading mounted ref cl (gens w) c).
Proof.
  intros H id g r Hg Hr Ha. simpl in Hg.
  rewrite (H id g r Hg Hr) in Ha. discriminate.
Qed.

Lemma guarded_cleanup_guards w : live_runs_guarded w -> cleanup_guards w.
Proof. intros H id g r Hg Hr Ha. now destruct (H id g r Hg Hr Ha). Qed.

Lemma abort_cleanup_guards ref w :
  cleanup_guards w -> cleanup_guards (abort ref w).
Proof.
  intros H id g r Hg Hr Ha. rewrite nth_error_abort in Hg.
  destruct (fields_abort ref w) as (-> & _).
  destruct ref as [id'|]; [|now apply (H id g r)].
  destruct (Nat.eqb id' id); [|now apply (H id g r)].
  destruct (nth_error (gens w) id); simpl in Hg; [|discriminate].
  inversion Hg; subst. discriminate.
Qed.

Lemma abort_cleanup_all w :
  cleanup_guards w -> all_aborted (abort (cleanup w) w).
Proof.
  intros Hinv id g r Hg Hr. rewrite nth_error_abort in Hg.
  destruct (cleanup w) as [id'|] eqn:Ec.
  - destruct (Nat.eqb_spec id' id) as [->|Hne].
    + destruct (nth_error (gens w) id); simpl in Hg; [|discriminate].
      inversion Hg; subst. reflexivity.
    + destruct (aborted g) eqn:Ea; [reflexivity|].
      pose proof (Hinv id g r Hg Hr Ea). congruence.
  - destruct (aborted g) eqn:Ea; [reflexivity|].
    pose proof (Hinv id g r Hg Hr Ea). congruence.
Qed.

Lemma abort_all_aborted ref w : all_aborted w -> all_aborted (abort ref w).
Proof.
  intros H id g r Hg Hr. rewrite nth_error_abort in Hg.
  destruct ref as [id'|]; [|now apply (H id g r)].
  destruct (Nat.eqb id' id); [|now apply (H id g r)].
  destruct (nth_error (gens w) id); simpl in Hg; [|discriminate].
  inversion Hg; subst. reflexivity.
Qed.

Lemma nth_error_snoc {A : Type} (l : list A) x id y :
  nth_error (l ++ [x]) id = Some y ->
  nth_error l id = Some y \/ (id = length l /\ y = x).
Proof.
  intros H. destruct (Nat.lt_ge_cases id (length l)) as [Hlt|Hge].
  - rewrite nth_error_app1 in H by exact Hlt. now left.
  - rewrite nth_error_app2 in H by exact Hge.
    destruct (id - length l) as [|n] eqn:E; simpl in H.
    + inversion H; subst. right. split; [lia | reflexivity].
    + destruct n; discriminate.
Qed.

Lemma effect_guarded videoUri duration w :
  live_runs_guarded w ->
  live_runs_guarded (effect count limit quality videoUri duration w).
Proof.
  intros Hinv.
  pose proof (abort_cleanup_all w (guarded_cleanup_guards w Hinv)) as H0.
  unfold effect, effect_body. set (w0 := abort (cleanup w) w) in *.
  destruct (Qle_bool duration 0 || negb (truthy_string videoUri)).
  - now apply all_aborted_guarded.
  - pose proof (abort_all_aborted (abortControllerRef w0) w0 H0) as H1.
    set (w1 := abort (abortControllerRef w0) w0) in *.
    assert (Hold : forall id g r,
               nth_error (gens w1) id = Some g -> run g = Some r ->
               aborted g = false -> False).
    { intros id g r Hg Hr Ha. rewrite (H1 id g r Hg Hr) in Ha. discriminate. }
    destruct (match ThumbnailCache.get (cacheKey videoUri duration) (cache w1)
              with Some cached => _ | None => _ end);
      [|destruct (isMountedRef w1) eqn:Em];
      intros id g r Hg Hr Ha; simpl in *;
      apply nth_error_snoc in Hg as [Hg|[-> ->]];
      try (exfalso; now apply (Hold id g r));
      try discriminate.
    split; reflexivity.
Qed.

Lemma set_run_guarded id r' w a r :
  nth_error (gens w) id = Some (mkGen a (Some r)) ->
  live_runs_guarded w -> live_runs_guarded (set_run id r' w).
Proof.
  intros Hid Hinv id' g r0 Hg Hr Ha. rewrite nth_error_set_run in Hg.
  destruct (Nat.eqb_spec id id') as [->|Hne].
  - rewrite Hid in Hg. simpl in Hg. inversion Hg; subst. simpl in *.
    exact (Hinv id' _ r Hid eq_refl Ha).
  - exact (Hinv id' g r0 Hg Hr Ha).
Qed.

Lemma complete_guarded signal r w :
  live_runs_guarded w -> live_runs_guarded (complete count signal r w).
Proof.
  intros Hinv id g r0 Hg Hr Ha. rewrite gens_complete in Hg.
  destruct (cleanup_complete count signal r w) as [-> ->].
  exact (Hinv id g r0 Hg Hr Ha).
Qed.

Lemma step_guarded w e :
  live_runs_guarded w -> live_runs_guarded (step count limit quality w e).
Proof.
  intros Hinv. destruct e as [videoUri duration|id k extraction|id|]; simpl.
  - destruct (isMountedRef w); [now apply effect_guarded | exact Hinv].
  - destruct (nth_error (gens w) id) as [[a [r|]]|] eqn:E; try exact Hinv.
    destruct (existsb _ _); [|exact Hinv].
    now apply (set_run_guarded id _ w a r).
  - destruct (nth_error (gens w) id) as [[a [r|]]|] eqn:E; try exact Hinv.
    destruct (Pool.can_resume (pool r)); [|exact Hinv].
    pose proof (set_run_guarded id (resume_run count limit quality a r)
                  w a r E Hinv) as H.
    destruct (Pool.loop _); try exact H. now apply complete_guarded.
  - set (w1 := mkWorld _ _ false _ _ _ _).
    assert (H1 : cleanup_guards w1).
    { intros id g r Hg Hr Ha. now destruct (Hinv id g r Hg Hr Ha). }
    apply (abort_cleanup_guards (abortControllerRef w1)) in H1.
    apply abort_cleanup_all in H1.
    destruct (fields_abort (abortControllerRef w1) w1) as (Hc & _).
    rewrite Hc in H1.
    intros id g r Hg Hr Ha. rewrite (H1 id g r Hg Hr) in Ha. discriminate.
Qed.

Lemma exec_guarded events w :
  live_runs_guarded w ->
  live_runs_guarded (exec count limit quality w events).
Proof.
  revert w. unfold exec.
  induction events as [|e events IH]; intros w H; simpl; [exact H|].
  apply IH. now apply step_guarded.
Qed.

Lemma initial_guarded c : live_runs_guarded (initial count c).
Proof. intros id g r Hg. destruct id; discriminate. Qed.
End Invariants.
End GenInvariants.

Section Cancellation.
Import Generator GenFacts GenInvariants.
Variables (count limit : nat) (quality : Q).

Lemma has_run_abort ref w id : has_run id w -> has_run id (abort ref w).
Proof.
  intros (g & r & Hg & Hr). unfold has_run. rewrite nth_error_abort.
  destruct ref as [id'|]; [|now exists g, r].
  destruct (Nat.eqb id' id); [|now exists g, r].
  rewrite Hg. simpl. now exists (mkGen true (run g)), r.
Qed.

Lemma all_aborted_is_aborted w id :
  all_aborted w -> has_run id w -> is_aborted id w = true.
Proof.
  intros H (g & r & Hg & Hr). unfold is_aborted. rewrite Hg.
  now apply (H id g r).
Qed.

Lemma is_aborted_effect_body videoUri duration w id :
  is_aborted id w = true ->
  is_aborted id (effect_body count limit quality videoUri duration w) = true.
Proof.
  intros H0. unfold effect_body.
  destruct (Qle_bool duration 0 || negb (truthy_string videoUri)).
  - exact H0.
  - pose proof (is_aborted_abort_mono (abortControllerRef w) w id H0) as H1.
    set (w1 := abort (abortControllerRef w) w) in *.
    destruct (match ThumbnailCache.get (cacheKey videoUri duration) (cache w1)
              with Some cached => _ | None => _ end);
      [|destruct (isMountedRef w1)]; now apply is_aborted_app.
Qed.

(** Teardown and a new run of the effect abort every run in flight. *)
Lemma cancel_aborts w e id :
  live_runs_guarded w -> has_run id w -> cancels e ->
  is_aborted id (step count limit quality w e) = true.
Proof.
  intros Hinv Hrun [->|(videoUri & duration & ->)]; simpl.
  - set (w1 := mkWorld _ _ false _ _ _ _).
    assert (H1 : cleanup_guards w1).
    { intros id' g r Hg Hr Ha. now destruct (Hinv id' g r Hg Hr Ha). }
    apply (abort_cleanup_guards (abortControllerRef w1)) in H1.
    apply abort_cleanup_all in H1.
    destruct (fields_abort (abortControllerRef w1) w1) as (Hc & _).
    rewrite Hc in H1.
    apply all_aborted_is_aborted; [exact H1|].
    now apply has_run_abort, has_run_abort.
  - destruct (isMountedRef w) eqn:Em.
    + apply is_aborted_effect_body.
      apply all_aborted_is_aborted.
      * apply abort_cleanup_all, guarded_cleanup_guards, Hinv.
      * now apply has_run_abort.
    + destruct Hrun as (g & r & Hg & Hr). unfold is_aborted. rewrite Hg.
      destruct (aborted g) eqn:Ea; [reflexivity|].
      destruct (Hinv id g r Hg Hr Ea) as [_ Hm]. congruence.
Qed.
End Cancellation.

(** C3: once a run is cancelled, by teardown or by the effect running
    again, its controller is aborted for good, and no later job of that run
    (a task resolving, the call continuing and completing) changes the
    thumbnails, the loading flag or the cache, whatever happens in
    between. *)
Theorem cancelled_run_never_writes (count limit : nat) (quality : Q)
  (c : ThumbnailCache.t) (before : list Generator.Event)
  (cancel : Generator.Event) (after : list Generator.Event)
  (late : Generator.Event) (id : nat) :
  has_run id
    (Generator.exec count limit quality (Generator.initial count c) before) ->
  cancels cancel ->
  Generator.owner late = Some id ->
  Generator.is_aborted id
    (Generator.exec count limit quality (Generator.initial count c)
                    (before ++ [cancel] ++ after)) = true /\
  Generator.visible
    (Generator.exec count limit quality (Generator.initial count c)
                    (before ++ [cancel] ++ after ++ [late]))
  = Generator.visible
      (Generator.exec count limit quality (Generator.initial count c)
                      (before ++ [cancel] ++ after)).
Proof.
  intros Hrun Hcancel Hown.
  unfold Generator.exec in *. rewrite !fold_left_app. simpl.
  set (w := fold_left _ before _) in *.
  assert (Hab : Generator.is_aborted id
                  (fold_left (Generator.step count limit quality) after
                     (Generator.step count limit quality w cancel)) = true).
  { apply (GenFacts.is_aborted_exec count limit quality).
    apply cancel_aborts; try assumption.
    apply (GenInvariants.exec_guarded count limit quality).
    apply GenInvariants.initial_guarded. }
  split; [exact Hab|].
  apply (GenFacts.aborted_run_silent count limit quality _ late id);
    assumption.
Qed.

Section Logging.
Import Generator GenFacts.
Variables (count limit : nat) (quality : Q).

Lemma log_calls_fst videoUri duration signal fresh :
  map fst (log_calls count quality videoUri duration signal fresh) = fresh.
Proof.
  unfold log_calls. rewrite map_map. simpl. apply map_id.
Qed.

Lemma log_calls_task videoUri duration signal fresh :
  Forall (fun c => exists s,
              snd c = task count quality videoUri duration s (fst c))
         (log_calls count quality videoUri duration signal fresh).
Proof.
  unfold log_calls. apply Forall_forall. intros c Hc.
  apply in_map_iff in Hc as (i & <- & _). now exists signal.
Qed.

Lemma start_run_sound videoUri duration :
  run_sound count limit quality (start_run count limit quality videoUri duration).
Proof.
  split; [apply start_inv|]. split; simpl.
  - apply log_calls_fst.
  - apply log_calls_task.
Qed.

Lemma resume_started {T : Type} (p : Pool.t T) :
  exists new, Pool.started (Pool.resume limit p) = Pool.started p ++ new.
Proof.
  unfold Pool.resume. destruct (Pool.loop p) as [[|]| |].
  - destruct (for_loop_spec limit (Pool.queue p) (Pool.executing p)
                (Pool.results p) (Pool.started p))
      as (new & _ & _ & Hs & _).
    now exists new.
  - exists []. now rewrite app_nil_r.
  - exists []. rewrite app_nil_r. now destruct (Pool.executing p).
  - exists []. now rewrite app_nil_r.
Qed.

Lemma resume_run_sound signal r :
  run_sound count limit quality r -> run_sound count limit quality (resume_run count limit quality signal r).
Proof.
  intros [Hpool [Hfst Hall]]. split; [now apply resume_inv|].
  destruct (resume_started (pool r)) as [new Hnew].
  unfold resume_run. split; simpl.
  - rewrite Hnew, map_app, Hfst, log_calls_fst.
    rewrite skipn_app, skipn_all, Nat.sub_diag. reflexivity.
  - apply Forall_app. split; [exact Hall | apply log_calls_task].
Qed.

Lemma settle_run_sound k extraction r :
  In k (Pool.executing (pool r)) ->
  run_sound count limit quality r -> run_sound count limit quality (settle_run k extraction r).
Proof.
  intros Hin [Hpool Hlog]. split.
  - now apply settle_inv.
  - exact Hlog.
Qed.

Lemma abort_sound ref w : runs_sound count limit quality w -> runs_sound count limit quality (abort ref w).
Proof.
  intros H id g r Hg Hr. rewrite nth_error_abort in Hg.
  destruct ref as [id'|]; [|now apply (H id g r)].
  destruct (Nat.eqb id' id); [|now apply (H id g r)].
  destruct (nth_error (gens w) id) as [g0|] eqn:E; simpl in Hg;
    [|discriminate].
  inversion Hg; subst. simpl in Hr. now apply (H id g0 r).
Qed.

Lemma set_run_sound id r' w :
  run_sound count limit quality r' -> runs_sound count limit quality w -> runs_sound count limit quality (set_run id r' w).
Proof.
  intros Hr' H id' g r Hg Hr. rewrite nth_error_set_run in Hg.
  destruct (Nat.eqb id id'); [|now apply (H id' g r)].
  destruct (nth_error (gens w) id'); simpl in Hg; [|discriminate].
  inversion Hg; subst. simpl in Hr. inversion Hr; subst. exact Hr'.
Qed.

Lemma step_sound w e :
  runs_sound count limit quality w -> runs_sound count limit quality (step count limit quality w e).
Proof.
  intros H. destruct e as [videoUri duration|id k extraction|id|]; simpl.
  - destruct (isMountedRef w); [|exact H].
    unfold effect, effect_body.
    pose proof (abort_sound (cleanup w) w H) as H0.
    set (w0 := abort (cleanup w) w) in *.
    destruct (Qle_bool duration 0 || negb (truthy_string videoUri));
      [exact H0|].
    pose proof (abort_sound (abortControllerRef w0) w0 H0) as H1.
    set (w1 := abort (abortControllerRef w0) w0) in *.
    destruct (match ThumbnailCache.get (cacheKey videoUri duration) (cache w1)
              with Some cached => _ | None => _ end);
      [|destruct (isMountedRef w1)];
      intros id g r Hg Hr; simpl in Hg;
      apply GenInvariants.nth_error_snoc in Hg as [Hg|[-> ->]];
      try (now apply (H1 id g r)); try discriminate.
    simpl in Hr. inversion Hr; subst. apply start_run_sound.
  - destruct (nth_error (gens w) id) as [[a [r|]]|] eqn:E; try exact H.
    destruct (existsb _ _) eqn:Ek; [|exact H].
    apply set_run_sound; [|exact H].
    apply settle_run_sound; [now apply existsb_eqb_in|].
    now apply (H id _ r E).
  - destruct (nth_error (gens w) id) as [[a [r|]]|] eqn:E; try exact H.
    destruct (Pool.can_resume (pool r)); [|exact H].
    assert (Hs : runs_sound count limit quality (set_run id (resume_run count limit quality a r) w)).
    { apply set_run_sound; [|exact H].
      apply resume_run_sound. now apply (H id _ r E). }
    destruct (Pool.loop _); try exact Hs.
    intros id' g r' Hg Hr. rewrite gens_complete in Hg.
    now apply (Hs id' g r').
  - now apply abort_sound, abort_sound.
Qed.

Lemma exec_sound events w :
  runs_sound count limit quality w -> runs_sound count limit quality (exec count limit quality w events).
Proof.
  revert w. unfold exec.
  induction events as [|e events IH]; intros w H; simpl; [exact H|].
  apply IH. now apply step_sound.
Qed.

Lemma initial_sound c : runs_sound count limit quality (initial count c).
Proof. intros id g r Hg. destruct id; discriminate. Qed.
End Logging.

Lemma some_slot_present (l : list slot) :
  existsb Generator.not_null l = true <-> exists uri, In (Some uri) l.
Proof.
  rewrite existsb_exists. split.
  - intros ([uri|] & Hin & Hnn); [now exists uri | discriminate].
  - intros (uri & Hin). now exists (Some uri).
Qed.

Lemma every_slot_absent (l : list slot) :
  existsb Generator.not_null l = false <-> Forall (fun s => s = None) l.
Proof.
  induction l as [|[uri|] l IH]; simpl.
  - split; [constructor | reflexivity].
  - split; [discriminate | intros H; inversion H; discriminate].
  - rewrite IH. split.
    + intros H. now constructor.
    + intros H. now inversion H.
Qed.

(** C7: when the call of a run that is not cancelled (its controller not
    aborted, the component mounted) returns, the ordered sequence becomes
    the thumbnails and the loading flag is cleared; if some slot of the
    sequence holds a thumbnail, the whole sequence, absent slots included,
    is stored in the cache under the key of (media, rounded duration), and
    a lookup of that key returns it; if every slot is absent nothing is
    written: the cache is left as it was. *)
Theorem completed_run_cached_unless_all_absent (count limit : nat)
  (quality : Q) (w : Generator.World) (id : nat) (r : Generator.Run) :
  nth_error (Generator.gens w) id
  = Some (Generator.mkGen false (Some r)) ->
  Generator.isMountedRef w = true ->
  Pool.can_resume (Generator.pool r) = true ->
  Pool.loop (Pool.resume limit (Generator.pool r)) = Pool.Returned ->
  Generator.thumbnails (Generator.step count limit quality w (Generator.Resume id))
  = Generator.orderedResults count (Pool.results (Generator.pool r)) /\
  Generator.isLoadingThumbnails
    (Generator.step count limit quality w (Generator.Resume id)) = false /\
  ((exists uri,
       In (Some uri)
          (Generator.orderedResults count (Pool.results (Generator.pool r)))) ->
   Generator.cache (Generator.step count limit quality w (Generator.Resume id))
   = ThumbnailCache.set
       (cacheKey (Generator.run_uri r) (Generator.run_duration r))
       (Generator.orderedResults count (Pool.results (Generator.pool r)))
       (Generator.cache w) /\
   ThumbnailCache.get
     (cacheKey (Generator.run_uri r) (Generator.run_duration r))
     (Generator.cache (Generator.step count limit quality w (Generator.Resume id)))
   = Some (Generator.orderedResults count (Pool.results (Generator.pool r)))) /\
  (Forall (fun s => s = None)
     (Generator.orderedResults count (Pool.results (Generator.pool r))) ->
   Generator.cache (Generator.step count limit quality w (Generator.Resume id))
   = Generator.cache w).
Proof.
  intros Hid Hmounted Hcan Hret.
  assert (Hres : Pool.results (Pool.resume limit (Generator.pool r))
                 = Pool.results (Generator.pool r)).
  { unfold Pool.resume in *. unfold Pool.can_resume in Hcan.
    destruct (Pool.loop (Generator.pool r)) as [[|]| |]; try discriminate.
    - destruct (for_loop_spec limit (Pool.queue (Generator.pool r))
                  (Pool.executing (Generator.pool r))
                  (Pool.results (Generator.pool r))
                  (Pool.started (Generator.pool r)))
        as (new & _ & _ & _ & Hr & _).
      exact Hr.
    - destruct (Pool.executing (Generator.pool r)); reflexivity. }
  simpl. rewrite Hid, Hcan. simpl. rewrite Hret.
  unfold Generator.complete. simpl. rewrite Hmounted, Hres. simpl.
  split; [reflexivity|]. split; [reflexivity|]. split.
  - intros Hsome. apply some_slot_present in Hsome. rewrite Hsome.
    split; [reflexivity|]. apply get_set_same.
  - intros Hnone. apply every_slot_absent in Hnone. rewrite Hnone.
    reflexivity.
Qed.

Section Requests.
Import Generator GenFacts.
Variables (count limit : nat) (quality : Q).

Lemma log_calls_app videoUri duration signal fresh fresh' :
  log_calls count quality videoUri duration signal (fresh ++ fresh')
  = log_calls count quality videoUri duration signal fresh
    ++ log_calls count quality videoUri duration signal fresh'.
Proof. apply map_app. Qed.

Lemma resume_run_requests r :
  calls r
  = log_calls count quality (run_uri r) (run_duration r) false
              (Pool.started (pool r)) ->
  calls (resume_run count limit quality false r)
  = log_calls count quality
              (run_uri (resume_run count limit quality false r))
              (run_duration (resume_run count limit quality false r)) false
              (Pool.started (pool (resume_run count limit quality false r))).
Proof.
  intros H. destruct (resume_started limit (pool r)) as [new Hnew].
  unfold resume_run. cbn [calls pool run_uri run_duration].
  rewrite Hnew, skipn_app, skipn_all, Nat.sub_diag. cbn [skipn app].
  rewrite log_calls_app, H. reflexivity.
Qed.

Lemma abort_requests ref w :
  live_runs_request count quality w ->
  live_runs_request count quality (abort ref w).
Proof.
  intros H id g r Hg Hr Ha. rewrite nth_error_abort in Hg.
  destruct ref as [id'|]; [|now apply (H id g r)].
  destruct (Nat.eqb id' id); [|now apply (H id g r)].
  destruct (nth_error (gens w) id) as [g0|]; simpl in Hg; [|discriminate].
  inversion Hg; subst. discriminate Ha.
Qed.

Lemma set_run_requests id r' w :
  (forall g, nth_error (gens w) id = Some g -> aborted g = false ->
             calls r'
             = log_calls count quality (run_uri r') (run_duration r') false
                         (Pool.started (pool r'))) ->
  live_runs_request count quality w ->
  live_runs_request count quality (set_run id r' w).
Proof.
  intros Hr' H id' g r Hg Hr Ha. rewrite nth_error_set_run in Hg.
  destruct (Nat.eqb_spec id id') as [<-|Hne]; [|now apply (H id' g r)].
  destruct (nth_error (gens w) id) as [g0|] eqn:E; simpl in Hg;
    [|discriminate].
  inversion Hg; subst. simpl in Hr, Ha. inversion Hr; subst r.
  now apply (Hr' g0).
Qed.

Lemma step_requests w e :
  live_runs_request count quality w ->
  live_runs_request count quality (step count limit quality w e).
Proof.
  intros H. destruct e as [videoUri duration|id k extraction|id|]; simpl.
  - destruct (isMountedRef w); [|exact H].
    unfold effect, effect_body.
    pose proof (abort_requests (cleanup w) w H) as H0.
    set (w0 := abort (cleanup w) w) in *.
    destruct (Qle_bool duration 0 || negb (truthy_string videoUri));
      [exact H0|].
    pose proof (abort_requests (abortControllerRef w0) w0 H0) as H1.
    set (w1 := abort (abortControllerRef w0) w0) in *.
    destruct (match ThumbnailCache.get (cacheKey videoUri duration) (cache w1)
              with Some cached => _ | None => _ end);
      [|destruct (isMountedRef w1)];
      intros id g r Hg Hr Ha; simpl in Hg;
      apply GenInvariants.nth_error_snoc in Hg as [Hg|[-> ->]];
      try (now apply (H1 id g r)); try discriminate.
    simpl in Hr. inversion Hr; subst. reflexivity.
  - destruct (nth_error (gens w) id) as [[a [r|]]|] eqn:E; try exact H.
    destruct (existsb _ _) eqn:Ek; [|exact H].
    apply set_run_requests; [|exact H].
    intros g Hg Ha. rewrite E in Hg. inversion Hg; subst g.
    exact (H id _ r E eq_refl Ha).
  - destruct (nth_error (gens w) id) as [[a [r|]]|] eqn:E; try exact H.
    destruct (Pool.can_resume (pool r)); [|exact H].
    assert (Hs : live_runs_request count quality
                   (set_run id (resume_run count limit quality a r) w)).
    { apply set_run_requests; [|exact H].
      intros g Hg Ha. rewrite E in Hg. inversion Hg; subst g.
      simpl in Ha. subst a.
      apply resume_run_requests. exact (H id _ r E eq_refl eq_refl). }
    destruct (Pool.loop _); try exact Hs.
    intros id' g r' Hg Hr. rewrite gens_complete in Hg.
    now apply (Hs id' g r').
  - now apply abort_requests, abort_requests.
Qed.

Lemma exec_requests events w :
  live_runs_request count quality w ->
  live_runs_request count quality (exec count limit quality w events).
Proof.
  revert w. unfold exec.
  induction events as [|e events IH]; intros w H; simpl; [exact H|].
  apply IH. now apply step_requests.
Qed.

Lemma initial_requests c : live_runs_request count quality (initial count c).
Proof. intros id g r Hg. destruct id; discriminate. Qed.

Lemma requests_of_log videoUri duration p fresh :
  requests_of
    (mkRun videoUri duration p
           (log_calls count quality videoUri duration false fresh))
  = map (fun i => mkRequest videoUri (timeMs count duration i) quality) fresh.
Proof.
  unfold requests_of, log_calls. cbn [calls].
  induction fresh as [|i fresh IH]; [reflexivity|].
  cbn [map flat_map snd task app]. f_equal. exact IH.
Qed.
End Requests.

(** C8 as worded fails on the numbers the code computes: each of the
    three operations of [(duration / count) * i * 1000] is rounded to a
    double.  On a device that is not low-end showing a video of one second,
    task 3 asks for 300.00000000000006 milliseconds (5277655813324801 /
    2^44), which is not 3/10 of a second. *)
Lemma sample_time_rounding_counterexample :
  In (3, Some (Generator.mkRequest "v" (Generator.timeMs 10 1 3) (3 # 10)))
     (Generator.calls (run_or_empty 0 one_second_start)) /\
  Double.to_Q (Generator.timeMs 10 1 3)
  = Some (5277655813324801 # 17592186044416) /\
  ~ ((5277655813324801 # 17592186044416) / 1000
     == 1 / inject_Z (Z.of_nat 10) * inject_Z (Z.of_nat 3))%Q /\
  ~ requested_exactly 10 1 3.
Proof.
  assert (Hms : Double.to_Q (Generator.timeMs 10 1 3)
                = Some (5277655813324801 # 17592186044416))
    by (vm_compute; reflexivity).
  assert (Hne : ~ ((5277655813324801 # 17592186044416) / 1000
                   == 1 / inject_Z (Z.of_nat 10) * inject_Z (Z.of_nat 3))%Q)
    by (vm_compute; discriminate).
  split; [vm_compute; do 3 right; left; reflexivity|].
  split; [exact Hms|]. split; [exact Hne|].
  intros (ms & Hms' & Heq). rewrite Hms in Hms'. inversion Hms'; subst ms.
  exact (Hne Heq).
Qed.

(** C8, corrected: every request a run makes for task [i] asks for the
    frame at [(duration / count) * i] seconds of the run's media, computed
    as the code computes it, each operation rounded to a double, and
    handed over in milliseconds by one more rounded multiplication; [i] is
    one of the [count] sample indices; in a run that is not cancelled
    every task started so far has made its request, and once the call has
    returned the requests are those of the samples 0 to [count - 1], one
    each.  For a duration of 100 seconds and 10 thumbnails nothing is
    rounded: the timestamps are exactly 0, 10, ..., 90 seconds, requested
    as 0, 10000, ..., 90000 milliseconds. *)
Theorem sample_timestamps (count limit : nat) (quality : Q)
  (c : ThumbnailCache.t) (events : list Generator.Event) (id : nat)
  (g : Generator.Gen) (r : Generator.Run) :
  nth_error
    (Generator.gens
       (Generator.exec count limit quality (Generator.initial count c) events))
    id = Some g ->
  Generator.run g = Some r ->
  (forall i request,
      In (i, Some request) (Generator.calls r) ->
      i < count /\
      request
      = Generator.mkRequest
          (Generator.run_uri r)
          (Double.mul (sample_seconds count (Generator.run_duration r) i)
                      (Double.of_Z 1000))
          quality) /\
  (Generator.aborted g = false ->
   Generator.calls r
   = map (fun i =>
            (i, Some (Generator.mkRequest
                        (Generator.run_uri r)
                        (Double.mul
                           (sample_seconds count (Generator.run_duration r) i)
                           (Double.of_Z 1000))
                        quality)))
         (Pool.started (Generator.pool r)) /\
   (Pool.loop (Generator.pool r) = Pool.Returned ->
    requests_of r
    = map (fun i =>
             Generator.mkRequest
               (Generator.run_uri r)
               (Double.mul (sample_seconds count (Generator.run_duration r) i)
                           (Double.of_Z 1000))
               quality)
          (seq 0 count))) /\
  map (sample_seconds 10 100) (seq 0 10)
  = map Double.of_Z [0; 10; 20; 30; 40; 50; 60; 70; 80; 90]%Z /\
  map (Generator.timeMs 10 100) (seq 0 10)
  = map Double.of_Z
        [0; 10000; 20000; 30000; 40000; 50000; 60000; 70000; 80000; 90000]%Z.
Proof.
  intros Hg Hr.
  destruct (exec_sound count limit quality events _
              (initial_sound count limit quality c) id g r Hg Hr)
    as [Hpool [Hfst Hall]].
  pose proof (inv_tasks _ _ _ _ Hpool) as Htasks.
  split; [|split; [|split]].
  - intros i request Hin.
    rewrite Forall_forall in Hall. destruct (Hall _ Hin) as [signal Hcall].
    simpl in Hcall. unfold Generator.task in Hcall.
    destruct signal; [discriminate|]. inversion Hcall; subst request.
    split; [|reflexivity].
    apply (in_map fst) in Hin. simpl in Hin. rewrite Hfst in Hin.
    assert (Hi : In i (seq 0 count))
      by (rewrite <- Htasks; apply in_or_app; now left).
    apply in_seq in Hi. lia.
  - intros Ha.
    pose proof (exec_requests count limit quality events _
                  (initial_requests count quality c) id g r Hg Hr Ha)
      as Hcalls.
    split; [exact Hcalls|].
    intros Hret. pose proof (inv_loop _ _ _ _ Hpool) as Hloop.
    rewrite Hret in Hloop. destruct Hloop as [Hq _].
    rewrite Hq, app_nil_r in Htasks.
    destruct r as [uri duration p logged]. cbn [Generator.calls] in Hcalls.
    cbn [Generator.run_uri Generator.run_duration Generator.pool] in *.
    rewrite Hcalls, Htasks.
    apply (requests_of_log count quality uri duration p (seq 0 count)).
  - vm_compute. reflexivity.
  - vm_compute. reflexivity.
Qed.

Example in_order_run_thumbnails :
  Generator.thumbnails (low_end_exec in_order_run)
  = [Some "frame0"; Some "frame1"; Some "frame2"; Some "frame3";
     Some "frame4"; Some "frame5"]%string.
Proof. vm_compute. reflexivity. Qed.

(** C1, evaluated where the claim fails: the extraction for sample 1
    completes first, and its thumbnail lands in slot 0 while the thumbnail
    of sample 0 lands in slot 1; the sequence follows completion order. *)
Theorem slots_follow_completion_order :
  nth_error (Generator.thumbnails (low_end_exec swapped_run)) 0
  = Some (Some "frame1"%string) /\
  nth_error (Generator.thumbnails (low_end_exec swapped_run)) 1
  = Some (Some "frame0"%string) /\
  Generator.thumbnails (low_end_exec swapped_run)
  <> Generator.thumbnails (low_end_exec in_order_run).
Proof. vm_compute. repeat split; discriminate. Qed.

(** C5, evaluated where the claim fails: the extraction for sample 1
    fails and completes first; slot 1, its own, then holds the thumbnail of
    sample 0, and slot 0 is absent although the extraction for sample 0
    succeeded.  The sequence still has its six slots. *)
Theorem failed_slot_follows_completion_order :
  length (Generator.thumbnails (low_end_exec failing_run)) = 6 /\
  nth_error (Generator.thumbnails (low_end_exec failing_run)) 1
  = Some (Some "frame0"%string) /\
  nth_error (Generator.thumbnails (low_end_exec failing_run)) 0
  = Some None.
Proof. vm_compute. repeat split. Qed.

Example pending_completion_writes :
  Generator.thumbnails
    (low_end_exec (pending_completion ++ [Generator.Resume 0]))
  = [Some "frame0"; Some "frame1"; Some "frame2"; Some "frame3";
     Some "frame4"; Some "frame5"]%string /\
  Generator.thumbnails (low_end_exec pending_completion)
  = [None; None; None; None; None; None].
Proof. vm_compute. split; reflexivity. Qed.

Lemma cancelled_run_never_writes_witness :
  Generator.visible
    (low_end_exec (pending_completion ++ [Generator.Effect "w" 30]
                   ++ second_run ++ [Generator.Resume 0]))
  = Generator.visible
      (low_end_exec (pending_completion ++ [Generator.Effect "w" 30]
                     ++ second_run))
  /\
  Generator.visible
    (low_end_exec (pending_completion ++ [Generator.Unmount] ++ []
                   ++ [Generator.Resume 0]))
  = Generator.visible
      (low_end_exec (pending_completion ++ [Generator.Unmount] ++ [])).
Proof.
  split.
  - apply (cancelled_run_never_writes 6 2 (2 # 10) ThumbnailCache.empty
             pending_completion (Generator.Effect "w" 30) second_run
             (Generator.Resume 0) 0).
    + exists (Generator.mkGen false
                (Some (run_or_empty 0 (low_end_exec pending_completion)))).
      exists (run_or_empty 0 (low_end_exec pending_completion)).
      split; vm_compute; reflexivity.
    + right. now exists "w"%string, 30%Q.
    + reflexivity.
  - apply (cancelled_run_never_writes 6 2 (2 # 10) ThumbnailCache.empty
             pending_completion Generator.Unmount []
             (Generator.Resume 0) 0).
    + exists (Generator.mkGen false
                (Some (run_or_empty 0 (low_end_exec pending_completion)))).
      exists (run_or_empty 0 (low_end_exec pending_completion)).
      split; vm_compute; reflexivity.
    + now left.
    + reflexivity.
Defined.

Lemma low_end_exec_snoc events e :
  low_end_exec (events ++ [e])
  = Generator.step (THUMBNAIL_COUNT true) (MAX_CONCURRENT_THUMBNAILS true)
                   (THUMBNAIL_CONFIG_quality true) (low_end_exec events) e.
Proof. unfold low_end_exec, Generator.exec. apply fold_left_app. Qed.

Lemma completed_run_cached_unless_all_absent_witness :
  ThumbnailCache.get "v_60"
    (Generator.cache
       (low_end_exec (pending_completion ++ [Generator.Resume 0])))
  = Some [Some "frame0"; Some "frame1"; Some "frame2"; Some "frame3";
          Some "frame4"; Some "frame5"]%string /\
  Generator.cache (low_end_exec (failed_completion ++ [Generator.Resume 0]))
  = Generator.cache (low_end_exec failed_completion).
Proof.
  split.
  - assert (Hkey : cacheKey
                     (Generator.run_uri
                        (run_or_empty 0 (low_end_exec pending_completion)))
                     (Generator.run_duration
                        (run_or_empty 0 (low_end_exec pending_completion)))
                   = "v_60"%string) by (vm_compute; reflexivity).
    assert (Hordered : Generator.orderedResults (THUMBNAIL_COUNT true)
                         (Pool.results
                            (Generator.pool
                               (run_or_empty 0
                                  (low_end_exec pending_completion))))
                       = [Some "frame0"; Some "frame1"; Some "frame2";
                          Some "frame3"; Some "frame4"; Some "frame5"]%string)
      by (vm_compute; reflexivity).
    destruct (completed_run_cached_unless_all_absent
                (THUMBNAIL_COUNT true) (MAX_CONCURRENT_THUMBNAILS true)
                (THUMBNAIL_CONFIG_quality true)
                (low_end_exec pending_completion) 0
                (run_or_empty 0 (low_end_exec pending_completion)))
      as (_ & _ & Hcached & _).
    + vm_compute. reflexivity.
    + vm_compute. reflexivity.
    + vm_compute. reflexivity.
    + vm_compute. reflexivity.
    + rewrite Hkey, Hordered in Hcached.
      destruct Hcached as [_ Hget];
        [exists "frame0"%string; left; reflexivity|].
      rewrite low_end_exec_snoc. exact Hget.
  - assert (Hordered : Generator.orderedResults (THUMBNAIL_COUNT true)
                         (Pool.results
                            (Generator.pool
                               (run_or_empty 0
                                  (low_end_exec failed_completion))))
                       = [None; None; None; None; None; None])
      by (vm_compute; reflexivity).
    destruct (completed_run_cached_unless_all_absent
                (THUMBNAIL_COUNT true) (MAX_CONCURRENT_THUMBNAILS true)
                (THUMBNAIL_CONFIG_quality true)
                (low_end_exec failed_completion) 0
                (run_or_empty 0 (low_end_exec failed_completion)))
      as (_ & _ & _ & Hkept).
    + vm_compute. reflexivity.
    + vm_compute. reflexivity.
    + vm_compute. reflexivity.
    + vm_compute. reflexivity.
    + rewrite Hordered in Hkept.
      rewrite low_end_exec_snoc. apply Hkept.
      repeat constructor.
Defined.

Lemma sample_timestamps_witness :
  map Generator.req_time
      (requests_of (run_or_empty 0 (high_end_exec hundred_second_run)))
  = map Double.of_Z
        [0; 10000; 20000; 30000; 40000; 50000; 60000; 70000; 80000; 90000]%Z.
Proof.
  assert (Hduration : Generator.run_duration
                        (run_or_empty 0 (high_end_exec hundred_second_run))
                      = 100%Q) by (vm_compute; reflexivity).
  destruct (sample_timestamps
              (THUMBNAIL_COUNT false) (MAX_CONCURRENT_THUMBNAILS false)
              (THUMBNAIL_CONFIG_quality false) ThumbnailCache.empty
              hundred_second_run 0
              (Generator.mkGen false
                 (Some (run_or_empty 0 (high_end_exec hundred_second_run))))
              (run_or_empty 0 (high_end_exec hundred_second_run)))
    as (_ & Hlive & _ & Hms).
  - vm_compute. reflexivity.
  - reflexivity.
  - destruct (Hlive eq_refl) as [_ Hreturned].
    rewrite Hreturned by (vm_compute; reflexivity).
    rewrite map_map. cbn [Generator.req_time]. rewrite Hduration.
    exact Hms.
Defined.

(* ================================================================== *)
(** * Properties of the playback position *)
(* ================================================================== *)

Module ScrubberFacts.
Import Scrubber.
Local Open Scope Q_scope.

Lemma clamped_x_cases (SCREEN_WIDTH x : Q) :
  0 <= TIMELINE_WIDTH SCREEN_WIDTH ->
  (x <= 0 -> clamped_x SCREEN_WIDTH x == 0) /\
  (TIMELINE_WIDTH SCREEN_WIDTH <= x ->
   clamped_x SCREEN_WIDTH x == TIMELINE_WIDTH SCREEN_WIDTH) /\
  (0 <= x -> x <= TIMELINE_WIDTH SCREEN_WIDTH -> clamped_x SCREEN_WIDTH x == x).
Proof.
  intros HW. unfold clamped_x, Math_max, Math_min.
  set (W := TIMELINE_WIDTH SCREEN_WIDTH) in *.
  repeat split.
  - intros Hx. apply Q.max_l.
    apply Qle_trans with x; [apply Q.le_min_l | exact Hx].
  - intros Hx. rewrite (Q.min_r x W Hx). now apply Q.max_r.
  - intros H0 Hx. rewrite (Q.min_l x W Hx). now apply Q.max_r.
Qed.

Lemma clamp_cases (x lo hi : Q) :
  lo <= hi ->
  (x <= lo -> clamp x lo hi == lo) /\
  (hi <= x -> clamp x lo hi == hi) /\
  (lo <= x -> x <= hi -> clamp x lo hi == x).
Proof.
  intros Hlh. unfold clamp.
  destruct (Qle_bool x lo) eqn:E1; [apply Qle_bool_iff in E1|];
    destruct (Qle_bool hi x) eqn:E2; try apply Qle_bool_iff in E2;
    repeat split; intros; try reflexivity;
    try (apply Qle_antisym; assumption);
    try (exfalso;
         match goal with
         | H : Qle_bool ?a ?b = false |- _ =>
             assert (a <= b) as Hc by eauto using Qle_trans;
             apply Qle_bool_iff in Hc; congruence
         end).
  - apply Qle_antisym; [eauto using Qle_trans | eauto using Qle_trans].
Qed.
End ScrubberFacts.

(** C4 as worded fails before the duration is known: with [duration] still
    0 and no drag in progress, a time update is ignored, so the progress
    keeps its value and the display time is not set. *)
Lemma timeUpdate_before_duration_counterexample :
  Scrubber.isDragging before_duration = false /\
  Scrubber.timeUpdate 3 before_duration
  = (before_duration, []) /\
  ~ (Scrubber.progress (fst (Scrubber.timeUpdate 3 before_duration))
     == 3 / Scrubber.duration before_duration)%Q /\
  ~ (Scrubber.displayTime
       (Scrubber.settled (Scrubber.timeUpdate 3 before_duration))
     == 3)%Q /\
  ~ timeUpdate_always_tracks.
Proof.
  split; [reflexivity|]. split; [reflexivity|].
  assert (Hp : ~ (Scrubber.progress
                    (fst (Scrubber.timeUpdate 3 before_duration))
                  == 3 / Scrubber.duration before_duration)%Q)
    by (vm_compute; discriminate).
  split; [exact Hp|]. split; [vm_compute; discriminate|].
  intros H. destruct (H 3%Q before_duration) as [_ H2].
  destruct (H2 eq_refl) as [H3 _]. exact (Hp H3).
Qed.

(** C4, amended: a time update is ignored while a drag is in progress and
    while the duration is not known ([duration <= 0]); otherwise it sets the
    progress to [currentTime / duration], schedules the display time to be
    set to [currentTime], and changes nothing else. *)
Theorem timeUpdate_tracks_when_following (payload_currentTime : Q)
  (s : Scrubber.t) :
  (Scrubber.isDragging s = true ->
   Scrubber.timeUpdate payload_currentTime s = (s, [])) /\
  (Scrubber.duration s <= 0 ->
   Scrubber.timeUpdate payload_currentTime s = (s, []))%Q /\
  (Scrubber.isDragging s = false -> 0 < Scrubber.duration s ->
   Scrubber.timeUpdate payload_currentTime s
   = (Scrubber.mk (Scrubber.duration s) (Scrubber.displayTime s) false
                  (payload_currentTime / Scrubber.duration s)
                  (Scrubber.playheadScale s) (Scrubber.currentTime s),
      [Scrubber.updateDisplayTime payload_currentTime]) /\
   Scrubber.progress (fst (Scrubber.timeUpdate payload_currentTime s))
   = payload_currentTime / Scrubber.duration s /\
   Scrubber.displayTime
     (Scrubber.settled (Scrubber.timeUpdate payload_currentTime s))
   = payload_currentTime)%Q.
Proof.
  unfold Scrubber.timeUpdate. repeat split.
  - intros ->. reflexivity.
  - intros Hd. apply Qle_bool_iff in Hd. rewrite Hd.
    now rewrite andb_false_r.
  - assert (E : Qle_bool (Scrubber.duration s) 0 = false).
    { destruct (Qle_bool (Scrubber.duration s) 0) eqn:E; [|reflexivity].
      apply Qle_bool_iff in E. exfalso. now apply (Qlt_not_le _ _ H0). }
    rewrite H, E. reflexivity.
  - assert (E : Qle_bool (Scrubber.duration s) 0 = false).
    { destruct (Qle_bool (Scrubber.duration s) 0) eqn:E; [|reflexivity].
      apply Qle_bool_iff in E. exfalso. now apply (Qlt_not_le _ _ H0). }
    rewrite H, E. reflexivity.
  - assert (E : Qle_bool (Scrubber.duration s) 0 = false).
    { destruct (Qle_bool (Scrubber.duration s) 0) eqn:E; [|reflexivity].
      apply Qle_bool_iff in E. exfalso. now apply (Qlt_not_le _ _ H0). }
    rewrite H, E. reflexivity.
Qed.

Lemma timeUpdate_tracks_when_following_witness :
  Scrubber.timeUpdate 3 (Scrubber.mk 12 0 true (1 # 2) 1 0)
  = (Scrubber.mk 12 0 true (1 # 2) 1 0, []) /\
  Scrubber.timeUpdate 3 (Scrubber.mk 0 0 false (1 # 2) 1 0)
  = (Scrubber.mk 0 0 false (1 # 2) 1 0, []) /\
  Scrubber.progress (fst (Scrubber.timeUpdate 3 (Scrubber.mk 12 0 false 0 1 0)))
  = (3 / 12)%Q /\
  Scrubber.displayTime
    (Scrubber.settled (Scrubber.timeUpdate 3 (Scrubber.mk 12 0 false 0 1 0)))
  = 3%Q.
Proof.
  split; [|split].
  - destruct (timeUpdate_tracks_when_following
                3 (Scrubber.mk 12 0 true (1 # 2) 1 0)) as (Hdrag & _ & _).
    apply Hdrag. reflexivity.
  - destruct (timeUpdate_tracks_when_following
                3 (Scrubber.mk 0 0 false (1 # 2) 1 0)) as (_ & Hunknown & _).
    apply Hunknown. simpl. unfold Qle. simpl. lia.
  - destruct (timeUpdate_tracks_when_following
                3 (Scrubber.mk 12 0 false 0 1 0)) as (_ & _ & Hfollow).
    destruct Hfollow as (_ & Hp & Hd); [reflexivity | reflexivity |].
    split; [exact Hp | exact Hd].
Defined.

Section PointerMapping.
Import Scrubber ScrubberFacts.
Local Open Scope Q_scope.
Variables (SCREEN_WIDTH : Q) (s : Scrubber.t).
Hypothesis width_positive : 0 < TIMELINE_WIDTH SCREEN_WIDTH.

Local Abbreviation W := (TIMELINE_WIDTH SCREEN_WIDTH).

Lemma clamped_x_is_clamp x : clamped_x SCREEN_WIDTH x == clamp x 0 W.
Proof.
  pose proof (Qlt_le_weak _ _ width_positive) as HW.
  destruct (clamped_x_cases SCREEN_WIDTH x HW) as (Hlow & Hhigh & Hmid).
  destruct (clamp_cases x 0 W HW) as (Clow & Chigh & Cmid).
  destruct (Qlt_le_dec x 0) as [Hx|Hx].
  - apply Qlt_le_weak in Hx. now rewrite Hlow, Clow.
  - destruct (Qlt_le_dec W x) as [Hx'|Hx'].
    + apply Qlt_le_weak in Hx'. now rewrite Hhigh, Chigh.
    + now rewrite Hmid, Cmid.
Qed.

Lemma clamped_x_bounds x :
  0 <= clamped_x SCREEN_WIDTH x /\ clamped_x SCREEN_WIDTH x <= W.
Proof.
  unfold clamped_x, Math_max, Math_min. split.
  - apply Q.le_max_l.
  - apply Q.max_lub; [now apply Qlt_le_weak | apply Q.le_min_r].
Qed.

Lemma progress_bounds x :
  0 <= clamped_x SCREEN_WIDTH x / W /\ clamped_x SCREEN_WIDTH x / W <= 1.
Proof.
  destruct (clamped_x_bounds x) as [H0 H1]. split.
  - apply Qle_shift_div_l; [exact width_positive|]. now rewrite Qmult_0_l.
  - apply Qle_shift_div_r; [exact width_positive|]. now rewrite Qmult_1_l.
Qed.

Lemma W_nonzero : ~ W == 0.
Proof.
  intros E. rewrite E in width_positive.
  exact (Qlt_irrefl 0 width_positive).
Qed.

Lemma pointer_mapping x :
  clamped_x SCREEN_WIDTH x == clamp x 0 W /\
  (* tap *)
  progress (fst (tap_onEnd SCREEN_WIDTH x s)) == clamp x 0 W / W /\
  snd (tap_onEnd SCREEN_WIDTH x s)
  = [seekTo (progress (fst (tap_onEnd SCREEN_WIDTH x s)) * duration s);
     updateDisplayTime
       (progress (fst (tap_onEnd SCREEN_WIDTH x s)) * duration s)] /\
  seeks_to (snd (tap_onEnd SCREEN_WIDTH x s))
           (clamp x 0 W / W * duration s) /\
  (* drag *)
  progress (fst (pan_onUpdate SCREEN_WIDTH x s)) == clamp x 0 W / W /\
  snd (pan_onUpdate SCREEN_WIDTH x s)
  = [updateDisplayTime
       (progress (fst (pan_onUpdate SCREEN_WIDTH x s)) * duration s)] /\
  seeks_to (snd (pan_onEnd SCREEN_WIDTH x s))
           (clamp x 0 W / W * duration s) /\
  (* bounds *)
  0 <= progress (fst (tap_onEnd SCREEN_WIDTH x s)) <= 1 /\
  0 <= progress (fst (pan_onUpdate SCREEN_WIDTH x s)) <= 1 /\
  (* the three taps *)
  (x == 0 -> seeks_to (snd (tap_onEnd SCREEN_WIDTH x s)) 0) /\
  (x == W -> seeks_to (snd (tap_onEnd SCREEN_WIDTH x s)) (duration s)) /\
  (x == W / 2 ->
   seeks_to (snd (tap_onEnd SCREEN_WIDTH x s)) (duration s / 2)).
Proof.
  pose proof (clamped_x_is_clamp x) as Hc.
  pose proof (progress_bounds x) as Hb.
  pose proof (Qlt_le_weak _ _ width_positive) as HW.
  destruct (clamped_x_cases SCREEN_WIDTH x HW) as (Hlow & Hhigh & Hmid).
  unfold seeks_to. simpl.
  split; [exact Hc|]. split; [now rewrite Hc|]. split; [reflexivity|].
  split; [now rewrite Hc|]. split; [now rewrite Hc|]. split; [reflexivity|].
  split; [now rewrite Hc|]. split; [exact Hb|]. split; [exact Hb|].
  split; [|split].
  - intros Hx. rewrite Hlow by (rewrite Hx; apply Qle_refl).
    unfold Qdiv. now rewrite !Qmult_0_l.
  - intros Hx. rewrite Hhigh by (rewrite Hx; apply Qle_refl).
    field. exact W_nonzero.
  - intros Hx.
    assert (Hhalf : 0 <= x /\ x <= W).
    { rewrite Hx. split.
      - apply Qle_shift_div_l; [reflexivity|]. now rewrite Qmult_0_l.
      - apply Qle_shift_div_r; [reflexivity|].
        rewrite <- (Qmult_1_r W) at 1. apply Qmult_le_l; [exact width_positive|].
        discriminate. }
    destruct Hhalf as [H0 H1]. rewrite (Hmid H0 H1), Hx.
    field. exact W_nonzero.
Qed.
End PointerMapping.

(** C6: on a timeline of positive width [W], whatever the pointer offset
    [x], the handlers compute the progress [clamp(x, 0, W) / W] and the
    time [progress * duration]: the tap sets the progress and seeks to that
    time, the drag sets the progress and shows that time, the release seeks
    to it; the progress lies in [0, 1]; and a tap at 0, at [W] and at
    [W / 2] seeks to 0, to the duration and to half the duration. *)
Theorem pointer_maps_to_progress_and_time (SCREEN_WIDTH x : Q)
  (s : Scrubber.t) :
  (0 < TIMELINE_WIDTH SCREEN_WIDTH)%Q ->
  (Scrubber.clamped_x SCREEN_WIDTH x
   == Scrubber.clamp x 0 (TIMELINE_WIDTH SCREEN_WIDTH) /\
   Scrubber.progress (fst (Scrubber.tap_onEnd SCREEN_WIDTH x s))
   == Scrubber.clamp x 0 (TIMELINE_WIDTH SCREEN_WIDTH)
      / TIMELINE_WIDTH SCREEN_WIDTH /\
   snd (Scrubber.tap_onEnd SCREEN_WIDTH x s)
   = [Scrubber.seekTo
        (Scrubber.progress (fst (Scrubber.tap_onEnd SCREEN_WIDTH x s))
         * Scrubber.duration s);
      Scrubber.updateDisplayTime
        (Scrubber.progress (fst (Scrubber.tap_onEnd SCREEN_WIDTH x s))
         * Scrubber.duration s)] /\
   seeks_to
     (snd (Scrubber.tap_onEnd SCREEN_WIDTH x s))
     (Scrubber.clamp x 0 (TIMELINE_WIDTH SCREEN_WIDTH)
      / TIMELINE_WIDTH SCREEN_WIDTH * Scrubber.duration s) /\
   Scrubber.progress (fst (Scrubber.pan_onUpdate SCREEN_WIDTH x s))
   == Scrubber.clamp x 0 (TIMELINE_WIDTH SCREEN_WIDTH)
      / TIMELINE_WIDTH SCREEN_WIDTH /\
   snd (Scrubber.pan_onUpdate SCREEN_WIDTH x s)
   = [Scrubber.updateDisplayTime
        (Scrubber.progress (fst (Scrubber.pan_onUpdate SCREEN_WIDTH x s))
         * Scrubber.duration s)] /\
   seeks_to
     (snd (Scrubber.pan_onEnd SCREEN_WIDTH x s))
     (Scrubber.clamp x 0 (TIMELINE_WIDTH SCREEN_WIDTH)
      / TIMELINE_WIDTH SCREEN_WIDTH * Scrubber.duration s) /\
   0 <= Scrubber.progress (fst (Scrubber.tap_onEnd SCREEN_WIDTH x s)) <= 1 /\
   0 <= Scrubber.progress (fst (Scrubber.pan_onUpdate SCREEN_WIDTH x s)) <= 1 /\
   (x == 0 ->
    seeks_to (snd (Scrubber.tap_onEnd SCREEN_WIDTH x s)) 0) /\
   (x == TIMELINE_WIDTH SCREEN_WIDTH ->
    seeks_to (snd (Scrubber.tap_onEnd SCREEN_WIDTH x s))
                           (Scrubber.duration s)) /\
   (x == TIMELINE_WIDTH SCREEN_WIDTH / 2 ->
    seeks_to (snd (Scrubber.tap_onEnd SCREEN_WIDTH x s))
                           (Scrubber.duration s / 2)))%Q.
Proof.
  intros HW. exact (pointer_mapping SCREEN_WIDTH s HW x).
Qed.

Lemma pointer_maps_to_progress_and_time_witness :
  (seeks_to
     (snd (Scrubber.tap_onEnd 400 180 (Scrubber.mk 100 0 false 0 1 0)))
     (100 / 2) /\
   Scrubber.progress
     (fst (Scrubber.pan_onUpdate 400 1000 (Scrubber.mk 100 0 true 0 1 0)))
   <= 1 /\
   0 <= Scrubber.progress
          (fst (Scrubber.tap_onEnd 400 (-5) (Scrubber.mk 100 0 false 0 1 0))))%Q.
Proof.
  assert (HW : (0 < TIMELINE_WIDTH 400)%Q) by reflexivity.
  split; [|split].
  - destruct (pointer_maps_to_progress_and_time
                400 180 (Scrubber.mk 100 0 false 0 1 0) HW)
      as (_ & _ & _ & _ & _ & _ & _ & _ & _ & _ & _ & Hhalf).
    apply Hhalf. reflexivity.
  - destruct (pointer_maps_to_progress_and_time
                400 1000 (Scrubber.mk 100 0 true 0 1 0) HW)
      as (_ & _ & _ & _ & _ & _ & _ & _ & Hpan & _).
    apply Hpan.
  - destruct (pointer_maps_to_progress_and_time
                400 (-5) (Scrubber.mk 100 0 false 0 1 0) HW)
      as (_ & _ & _ & _ & _ & _ & _ & Htap & _).
    apply Htap.
Defined.

(* ================================================================== *)
(** * Further properties of the cache and of its keys *)
(* ================================================================== *)

(** Whatever the cache holds, what is stored under a key is what a lookup
    of that key returns next, also when the store evicted an entry, and
    also when the entry evicted was the one of that very key. *)
Theorem cache_lookup_after_store (c : ThumbnailCache.t) (key : string)
  (thumbnails : list slot) :
  ThumbnailCache.get key (ThumbnailCache.set key thumbnails c)
  = Some thumbnails.
Proof. unfold ThumbnailCache.get, ThumbnailCache.set. apply get_set_same. Qed.

Lemma get_set_other {V : Type} (m : JsMap.t V) k k' (v : V) :
  k' <> k -> JsMap.get k' (JsMap.set k v m) = JsMap.get k' m.
Proof.
  intros Hne. unfold JsMap.set. destruct (JsMap.has k m).
  - induction m as [|[k0 v0] rest IH]; simpl; [reflexivity|].
    destruct (String.eqb_spec k k0) as [->|Hk]; simpl.
    + destruct (String.eqb_spec k' k0); [congruence | reflexivity].
    + destruct (String.eqb k' k0); [reflexivity | exact IH].
  - induction m as [|[k0 v0] rest IH]; simpl.
    + destruct (String.eqb_spec k' k); [congruence | reflexivity].
    + destruct (String.eqb k' k0); [reflexivity | exact IH].
Qed.

(** A store under one key leaves the entries of the other keys as they
    were, except the oldest one when the cache was full: that one is
    gone. *)
Theorem store_keeps_other_keys (c : ThumbnailCache.t) (key other : string)
  (thumbnails : list slot) :
  cache_reachable c ->
  other <> key ->
  (JsMap.size c < ThumbnailCache.maxSize \/ JsMap.first_key c <> Some other ->
   ThumbnailCache.get other (ThumbnailCache.set key thumbnails c)
   = ThumbnailCache.get other c) /\
  (JsMap.size c = ThumbnailCache.maxSize -> JsMap.first_key c = Some other ->
   ThumbnailCache.get other c <> None /\
   ThumbnailCache.get other (ThumbnailCache.set key thumbnails c) = None).
Proof.
  intros Hreach Hne. pose proof (reachable_wf c Hreach) as Hwf.
  unfold ThumbnailCache.get, ThumbnailCache.set.
  rewrite get_set_other by exact Hne.
  destruct (Nat.eq_dec (JsMap.size c) ThumbnailCache.maxSize) as [Hfull|Hnot].
  - destruct (evict_full c Hwf Hfull) as (k0 & v0 & rest & Hc & Hev).
    rewrite Hev. subst c. simpl.
    destruct Hwf as [Hnd _ _]. simpl in Hnd.
    inversion Hnd as [|? ? Hnot_in _]; subst.
    split.
    + intros [Hlt|Hfirst];
        [unfold JsMap.size in *; simpl in *; lia|].
      destruct (String.eqb_spec other k0) as [->|_]; [congruence | reflexivity].
    + intros _ Hfirst. inversion Hfirst; subst.
      rewrite String.eqb_refl. split; [discriminate|].
      now apply get_none_not_in.
  - pose proof (wf_size c Hwf) as Hsz.
    rewrite evict_not_full by lia. split; [reflexivity | intros; lia].
Qed.

Lemma store_keeps_other_keys_witness :
  let c := set_all (keyed [("a", 1%Q, [Some "x"%string]); ("b", 2%Q, []);
                           ("c", 3%Q, []); ("d", 4%Q, []);
                           ("e", 5%Q, [])]%string)
                   ThumbnailCache.empty in
  ThumbnailCache.get "b_2" (ThumbnailCache.set "f_6" [] c)
  = ThumbnailCache.get "b_2" c /\
  ThumbnailCache.get "a_1" (ThumbnailCache.set "f_6" [] c) = None.
Proof.
  intros c.
  assert (Hreach : cache_reachable c)
    by (apply set_all_reachable, reach_empty).
  split.
  - apply (store_keeps_other_keys c "f_6" "b_2" [] Hreach);
      [discriminate | right; discriminate].
  - apply (store_keeps_other_keys c "f_6" "a_1" [] Hreach);
      [discriminate | reflexivity | reflexivity].
Defined.

Lemma has_char_app c s t :
  has_char c (s ++ t)%string = has_char c s || has_char c t.
Proof.
  induction s as [|a s IH]; simpl; [reflexivity|].
  now rewrite IH, orb_assoc.
Qed.

Lemma digits_no_underscore d :
  has_char "_" (NilEmpty.string_of_uint d) = false.
Proof. induction d; simpl; auto. Qed.

Lemma number_no_underscore z : has_char "_" (number_to_string z) = false.
Proof.
  unfold number_to_string.
  destruct (Z.to_int z) as [d|d]; simpl;
    destruct d; simpl; auto using digits_no_underscore.
Qed.

Lemma number_to_string_inj z z' :
  number_to_string z = number_to_string z' -> z = z'.
Proof.
  unfold number_to_string. intros H.
  assert (Hnil : forall y, Z.to_int y <> Decimal.Pos Decimal.Nil /\
                           Z.to_int y <> Decimal.Neg Decimal.Nil).
  { intros y. split; intros E; pose proof (DecimalZ.of_to y) as Hy;
      rewrite E in Hy; simpl in Hy; subst y; discriminate. }
  apply (f_equal NilZero.int_of_string) in H.
  rewrite !NilZero.isi in H by apply Hnil.
  inversion H as [E].
  rewrite <- (DecimalZ.of_to z), <- (DecimalZ.of_to z'). now rewrite E.
Qed.

Lemma split_at_last_underscore u u' n n' :
  has_char "_" n = false -> has_char "_" n' = false ->
  (u ++ "_" ++ n)%string = (u' ++ "_" ++ n')%string ->
  u = u' /\ n = n'.
Proof.
  intros Hn Hn'. revert u'.
  induction u as [|a u IH]; intros [|a' u'] H; simpl in H.
  - inversion H. now split.
  - inversion H as [[Ha En]]. exfalso.
    rewrite En, has_char_app in Hn. simpl in Hn.
    now rewrite orb_true_r in Hn.
  - inversion H as [[Ha En]]. exfalso.
    rewrite <- En, has_char_app in Hn'. simpl in Hn'.
    now rewrite orb_true_r in Hn'.
  - inversion H as [[Ha E]]. destruct (IH u' E) as [-> ->]. now split.
Qed.

(** Two requests share a cache key exactly when they are for the same
    media and their durations round to the same whole second. *)
Theorem cacheKey_shared_iff (videoUri videoUri' : string)
  (duration duration' : Q) :
  cacheKey videoUri duration = cacheKey videoUri' duration' <->
  videoUri = videoUri' /\ Math_round duration = Math_round duration'.
Proof.
  unfold cacheKey. split.
  - intros H.
    apply split_at_last_underscore in H as [Hu Hn];
      try apply number_no_underscore.
    split; [exact Hu | now apply number_to_string_inj].
  - intros [-> ->]. reflexivity.
Qed.

(* ================================================================== *)
(** * Further properties of generateThumbnailsWithLimit *)
(* ================================================================== *)

Lemma for_loop_window {T : Type} limit q e (r : list T) s :
  length e < Nat.max 1 limit ->
  length (Pool.executing (Pool.for_loop limit q e r s)) <= Nat.max 1 limit /\
  Pool.loop (Pool.for_loop limit q e r s) <> Pool.AwaitRace true.
Proof.
  revert e s. induction q as [|x rest IH]; intros e s He;
    cbn [Pool.for_loop].
  - cbn [Pool.executing Pool.loop]. split; [lia | discriminate].
  - destruct (Nat.leb_spec limit (length (e ++ [x]))) as [Hfull|Hroom].
    + cbn [Pool.executing Pool.loop]. rewrite length_app.
      cbn [length]. split; [lia | discriminate].
    + apply IH. rewrite length_app in *. cbn [length] in *. lia.
Qed.

Lemma window_any_limit {T : Type} limit resolves tasks (p : Pool.t T) :
  Pool.reachable limit resolves tasks p ->
  length (Pool.executing p) <= Nat.max 1 limit /\
  (Pool.loop p = Pool.AwaitRace true ->
   length (Pool.executing p) < Nat.max 1 limit).
Proof.
  induction 1 as [|p p' _ [IHle IHlt] Hstep].
  - unfold Pool.start.
    destruct (for_loop_window (T:=T) limit tasks [] [] []) as [Hle Hne];
      [cbn [length]; lia|].
    split; [exact Hle | intros E; now destruct Hne].
  - destruct Hstep as [k x p Hin _|p Hres].
    + pose proof (splice_length k _ Hin) as Hlen.
      cbn [Pool.settle Pool.executing Pool.loop]. split; lia.
    + unfold Pool.can_resume in Hres. unfold Pool.resume.
      destruct (Pool.loop p) as [[|]| |] eqn:El; try discriminate.
      * destruct (for_loop_window limit (Pool.queue p) (Pool.executing p)
                    (Pool.results p) (Pool.started p) (IHlt eq_refl))
          as [Hle Hne].
        split; [exact Hle | intros E; now destruct Hne].
      * destruct (Pool.executing p); [|discriminate].
        cbn [Pool.executing Pool.loop length]. split; [lia | discriminate].
Qed.

(** Whatever the limit passed, also 0, the [executing] array never holds
    more than [max(1, limit)] promises: a limit of 0 behaves as a limit of
    1, one task at a time. *)
Theorem executing_bounded_for_any_limit (T : Type) (limit : nat)
  (resolves : nat -> T -> Prop) (tasks : list nat) (p : Pool.t T) :
  Pool.reachable limit resolves tasks p ->
  length (Pool.executing p) <= Nat.max 1 limit.
Proof. intros H. now apply (window_any_limit limit resolves tasks). Qed.

Lemma executing_bounded_for_any_limit_witness :
  length (Pool.executing (Pool.start (T:=slot) 0 [0; 1; 2])) <= 1 /\
  Pool.executing (Pool.start (T:=slot) 0 [0; 1; 2]) = [0].
Proof.
  split; [|reflexivity].
  apply (executing_bounded_for_any_limit slot 0 (fun _ _ => True) [0; 1; 2]).
  apply Pool.reachable_start.
Defined.

Lemma sequential_inv {T : Type} limit (outcome : nat -> T) tasks
  (p : Pool.t T) :
  limit <= 1 ->
  Pool.reachable limit (fun k r => r = outcome k) tasks p ->
  exists done,
    Pool.results p = map outcome done /\
    done ++ Pool.executing p = Pool.started p.
Proof.
  intros Hlimit. induction 1 as [|p p' Hp (done & Hres & Hdone) Hstep].
  - exists []. unfold Pool.start.
    destruct (for_loop_spec (T:=T) limit tasks [] [] [])
      as (new & _ & He & Hs & Hr & _).
    rewrite Hr, He, Hs. split; reflexivity.
  - destruct Hstep as [k x p Hin Hx|p Hcan].
    + exists (done ++ [k]). simpl. split.
      * rewrite Hres, map_app, Hx. reflexivity.
      * destruct (window_any_limit limit _ tasks p Hp) as [Hle _].
        replace (Nat.max 1 limit) with 1 in Hle by lia.
        destruct (Pool.executing p) as [|k0 [|k1 rest]] eqn:Ee;
          [destruct Hin | | simpl in Hle; lia].
        destruct Hin as [->|[]].
        unfold Pool.splice_indexOf. simpl. rewrite Nat.eqb_refl. simpl.
        rewrite <- Hdone, <- app_assoc. reflexivity.
    + exists done. unfold Pool.resume.
      destruct (Pool.loop p) as [[|]| |] eqn:El; try (now split).
      * destruct (for_loop_spec limit (Pool.queue p) (Pool.executing p)
                    (Pool.results p) (Pool.started p))
          as (new & _ & He & Hs & Hr & _).
        rewrite Hr, He, Hs, <- Hdone, app_assoc. now split.
      * destruct (Pool.executing p) eqn:Ee; simpl; rewrite ?Ee; now split.
Qed.

(** With a limit of 0 or 1 the tasks run one after the other, so the call
    returns the outcomes in the order of the tasks, and the sequence built
    from them has the thumbnail of sample [i] in slot [i]. *)
Theorem sequential_run_orders_by_index (count limit : nat) (quality : Q)
  (videoUri : string) (duration : Q) (extraction : nat -> option string)
  (p : Pool.t slot) :
  limit <= 1 ->
  Pool.reachable limit
    (run_resolves count quality videoUri duration extraction) (seq 0 count) p ->
  Pool.loop p = Pool.Returned ->
  Pool.results p = map extraction (seq 0 count) /\
  Generator.orderedResults count (Pool.results p)
  = map (fun i => keep_truthy (extraction i)) (seq 0 count) /\
  (forall i, i < count ->
     nth_error (Generator.orderedResults count (Pool.results p)) i
     = Some (keep_truthy (extraction i))).
Proof.
  intros Hlimit Hreach Hret.
  destruct (sequential_inv limit _ _ p Hlimit Hreach) as (done & Hres & Hdone).
  pose proof (reachable_inv _ _ _ _ Hreach) as [Ht _ Hl _].
  rewrite Hret in Hl. destruct Hl as [Hq He].
  rewrite He, app_nil_r in Hdone. rewrite Hq, app_nil_r in Ht.
  assert (Hresults : Pool.results p = map extraction (seq 0 count)).
  { rewrite Hres, Hdone, Ht. apply map_ext. intros k. apply run_result_eq. }
  assert (Hordered : Generator.orderedResults count (Pool.results p)
                     = map (fun i => keep_truthy (extraction i)) (seq 0 count)).
  { rewrite orderedResults_map
      by (rewrite Hresults, length_map; apply length_seq).
    rewrite Hresults, map_map. reflexivity. }
  split; [exact Hresults|]. split; [exact Hordered|].
  intros i Hi. rewrite Hordered.
  rewrite nth_error_map, nth_error_nth' with (d := 0)
    by (rewrite length_seq; exact Hi).
  rewrite seq_nth by exact Hi. reflexivity.
Qed.

Lemma sample_pool_reachable limit picks :
  Pool.reachable limit
    (run_resolves 3 (3 # 10) "v" 30 sample_extraction) (seq 0 3)
    (sample_pool limit picks).
Proof.
  unfold sample_pool.
  apply (drive_reachable limit (run_result 3 (3 # 10) "v" 30 sample_extraction)
           (seq 0 3) picks).
  apply Pool.reachable_start.
Qed.

Lemma sequential_run_orders_by_index_witness :
  nth_error
    (Generator.orderedResults 3 (Pool.results (sample_pool 1 [0; 0; 0; 0]))) 1
  = Some None /\
  nth_error
    (Generator.orderedResults 3 (Pool.results (sample_pool 1 [0; 0; 0; 0]))) 2
  = Some (Some "frame"%string).
Proof.
  assert (Hret : Pool.loop (sample_pool 1 [0; 0; 0; 0]) = Pool.Returned)
    by (vm_compute; reflexivity).
  destruct (sequential_run_orders_by_index 3 1 (3 # 10) "v" 30
              sample_extraction (sample_pool 1 [0; 0; 0; 0])
              (le_n 1) (sample_pool_reachable 1 [0; 0; 0; 0]) Hret)
    as (_ & _ & Hnth).
  split.
  - apply (Hnth 1). lia.
  - apply (Hnth 2). lia.
Defined.

Lemma generate_returns_all_slots_witness :
  Pool.loop (sample_pool 2 [1; 0; 0; 0; 0; 0; 0]) = Pool.Returned /\
  length
    (Generator.orderedResults 3
       (Pool.results (sample_pool 2 [1; 0; 0; 0; 0; 0; 0]))) = 3.
Proof.
  assert (Hpicks : 2 * 3 + 1 <= length [1; 0; 0; 0; 0; 0; 0]) by (simpl; lia).
  destruct (generate_returns_all_slots 3 2 (3 # 10) "v" 30 sample_extraction
              [1; 0; 0; 0; 0; 0; 0] (sample_pool 2 [1; 0; 0; 0; 0; 0; 0])
              (sample_pool_reachable 2 [1; 0; 0; 0; 0; 0; 0]) Hpicks)
    as (_ & _ & Hdrive & Hat_return).
  split; [exact Hdrive|].
  destruct (Hat_return Hdrive) as (_ & Hlen & _). exact Hlen.
Defined.

(* ================================================================== *)
(** * Further properties of the generation effect *)
(* ================================================================== *)

Section GeneratorMore.
Import Generator GenFacts GenInvariants.
Variables (count limit : nat) (quality : Q).

Lemma sound_started_nodup r :
  run_sound count limit quality r ->
  NoDup (Pool.started (pool r)) /\ length (Pool.started (pool r)) <= count.
Proof.
  intros [Hpool _]. pose proof (inv_tasks _ _ _ _ Hpool) as Ht.
  pose proof (seq_NoDup count 0) as Hnd. rewrite <- Ht in Hnd.
  split; [now apply NoDup_app_remove_r in Hnd|].
  apply (f_equal (@length nat)) in Ht.
  rewrite length_app, length_seq in Ht. lia.
Qed.

Lemma sound_returned_length r :
  run_sound count limit quality r ->
  Pool.queue (pool r) = [] -> Pool.executing (pool r) = [] ->
  length (Pool.results (pool r)) = count.
Proof.
  intros [[Ht (done & Hres & Hperm) _ _] _] Hq He.
  rewrite Hq, app_nil_r in Ht. rewrite He, app_nil_r, Ht in Hperm.
  rewrite <- (Forall2_length Hres), (Permutation_length Hperm).
  apply length_seq.
Qed.

Lemma requests_of_app r extra :
  requests_of (mkRun (run_uri r) (run_duration r) (pool r) (calls r ++ extra))
  = requests_of r
    ++ flat_map (fun c => match snd c with Some q => [q] | None => [] end)
                extra.
Proof. unfold requests_of. simpl. apply flat_map_app. Qed.

Lemma aborted_log_requests_nothing videoUri duration fresh :
  flat_map (fun c : nat * option Request =>
              match snd c with Some q => [q] | None => [] end)
           (log_calls count quality videoUri duration true fresh) = [].
Proof. induction fresh as [|i fresh IH]; simpl; [reflexivity | exact IH]. Qed.

Lemma run_of_abort ref w id :
  option_map requests_of (run_of id (abort ref w))
  = option_map requests_of (run_of id w).
Proof.
  unfold run_of. rewrite nth_error_abort.
  destruct ref as [id'|]; [|reflexivity].
  destruct (Nat.eqb id' id); [|reflexivity].
  destruct (nth_error (gens w) id); reflexivity.
Qed.

Lemma run_requests_abort ref w id :
  run_requests id (abort ref w) = run_requests id w.
Proof.
  unfold run_requests. pose proof (run_of_abort ref w id) as H.
  destruct (run_of id (abort ref w)), (run_of id w); simpl in H;
    congruence.
Qed.

Lemma run_requests_app w id extra thumbs loading mounted ref cl c :
  id < length (gens w) ->
  run_requests id (mkWorld thumbs loading mounted ref cl (gens w ++ extra) c)
  = run_requests id w.
Proof.
  intros Hid. unfold run_requests, run_of. simpl.
  now rewrite nth_error_app1.
Qed.

Lemma run_requests_complete signal r w id :
  run_requests id (complete count signal r w) = run_requests id w.
Proof. unfold run_requests, run_of. now rewrite gens_complete. Qed.

Lemma run_requests_set_run_other id' r' w id :
  id' <> id -> run_requests id (set_run id' r' w) = run_requests id w.
Proof.
  intros Hne. unfold run_requests, run_of. rewrite nth_error_set_run.
  destruct (Nat.eqb_spec id' id); [congruence | reflexivity].
Qed.

Lemma run_requests_set_run_same id r' w a r :
  nth_error (gens w) id = Some (mkGen a (Some r)) ->
  requests_of r' = requests_of r ->
  run_requests id (set_run id r' w) = run_requests id w.
Proof.
  intros Hid Hreq. unfold run_requests, run_of.
  rewrite nth_error_set_run, Nat.eqb_refl, Hid. simpl. exact Hreq.
Qed.

Lemma is_aborted_in_range w id :
  is_aborted id w = true -> id < length (gens w).
Proof.
  unfold is_aborted. intros H. apply nth_error_Some.
  destruct (nth_error (gens w) id); [discriminate | discriminate].
Qed.

Lemma aborted_run_requests_step w e id :
  is_aborted id w = true ->
  run_requests id (step count limit quality w e) = run_requests id w.
Proof.
  intros Hab. pose proof (is_aborted_in_range w id Hab) as Hrange.
  destruct e as [videoUri duration|id' k extraction|id'|]; simpl.
  - destruct (isMountedRef w); [|reflexivity].
    unfold effect, effect_body.
    set (w0 := abort (cleanup w) w).
    assert (H0 : run_requests id w0 = run_requests id w)
      by apply run_requests_abort.
    destruct (Qle_bool duration 0 || negb (truthy_string videoUri));
      [exact H0|].
    set (w1 := abort (abortControllerRef w0) w0).
    assert (H1 : run_requests id w1 = run_requests id w)
      by (unfold w1; now rewrite run_requests_abort).
    assert (Hlen : id < length (gens w1)).
    { unfold w1, w0.
      destruct (fields_abort (abortControllerRef (abort (cleanup w) w))
                  (abort (cleanup w) w)) as (_ & _ & _ & ->).
      destruct (fields_abort (cleanup w) w) as (_ & _ & _ & ->).
      exact Hrange. }
    destruct (match ThumbnailCache.get (cacheKey videoUri duration) (cache w1)
              with Some cached => _ | None => _ end);
      [|destruct (isMountedRef w1)];
      rewrite run_requests_app by exact Hlen; exact H1.
  - destruct (nth_error (gens w) id') as [[a [r|]]|] eqn:E; try reflexivity.
    destruct (existsb _ _); [|reflexivity].
    destruct (Nat.eq_dec id' id) as [->|Hne].
    + now apply (run_requests_set_run_same id _ w a r).
    + now apply run_requests_set_run_other.
  - destruct (nth_error (gens w) id') as [[a [r|]]|] eqn:E; try reflexivity.
    destruct (Pool.can_resume (pool r)); [|reflexivity].
    assert (Hset : run_requests id
                     (set_run id' (resume_run count limit quality a r) w)
                   = run_requests id w).
    { destruct (Nat.eq_dec id' id) as [->|Hne].
      - apply (run_requests_set_run_same id _ w a r E).
        unfold is_aborted in Hab. rewrite E in Hab. simpl in Hab. subst a.
        unfold resume_run.
        rewrite (requests_of_app
                   (mkRun (run_uri r) (run_duration r)
                          (Pool.resume limit (pool r)) (calls r))).
        rewrite aborted_log_requests_nothing, app_nil_r. reflexivity.
      - now apply run_requests_set_run_other. }
    destruct (Pool.loop _); rewrite ?run_requests_complete; exact Hset.
  - now rewrite !run_requests_abort.
Qed.

Lemma aborted_run_requests_exec events w id :
  is_aborted id w = true ->
  run_requests id (exec count limit quality w events) = run_requests id w.
Proof.
  revert w. unfold exec.
  induction events as [|e events IH]; intros w Hab; simpl; [reflexivity|].
  rewrite IH by now apply is_aborted_step.
  now apply aborted_run_requests_step.
Qed.
End GeneratorMore.

(** Once the controller of a run is aborted the run issues no further
    extraction request, whatever happens next: the tasks it still starts
    return without calling the extraction. *)
Theorem aborted_run_requests_nothing_more (count limit : nat) (quality : Q)
  (w : Generator.World) (events : list Generator.Event) (id : nat) :
  Generator.is_aborted id w = true ->
  run_requests id (Generator.exec count limit quality w events)
  = run_requests id w.
Proof. apply aborted_run_requests_exec. Qed.

Lemma aborted_run_requests_nothing_more_witness :
  length
    (run_requests 0
       (Generator.exec (THUMBNAIL_COUNT true) (MAX_CONCURRENT_THUMBNAILS true)
          (THUMBNAIL_CONFIG_quality true) superseded_world
          (schedule 0 [(0, Some "frame0"); (1, Some "frame1");
                       (2, Some "frame2"); (3, Some "frame3");
                       (4, Some "frame4"); (5, Some "frame5")]%string)))
  = 2.
Proof.
  assert (Hab : Generator.is_aborted 0 superseded_world = true)
    by (vm_compute; reflexivity).
  rewrite (aborted_run_requests_nothing_more _ _ _ superseded_world _ 0 Hab).
  vm_compute. reflexivity.
Defined.

Section GeneratorInvariantsMore.
Import Generator GenFacts GenInvariants.
Variables (count limit : nat) (quality : Q).

Lemma requests_of_length r : length (requests_of r) <= length (calls r).
Proof.
  unfold requests_of. induction (calls r) as [|[i [q|]] rest IH]; simpl; lia.
Qed.

Lemma abort_keyed ref w : runs_keyed w -> runs_keyed (abort ref w).
Proof.
  intros H id g r Hg Hr. rewrite nth_error_abort in Hg.
  destruct ref as [id'|]; [|now apply (H id g r)].
  destruct (Nat.eqb id' id); [|now apply (H id g r)].
  destruct (nth_error (gens w) id) as [g0|] eqn:E; simpl in Hg;
    [|discriminate].
  inversion Hg; subst. simpl in Hr. now apply (H id g0 r).
Qed.

Lemma set_run_keyed id r' w :
  truthy_string (run_uri r') = true /\ (0 < run_duration r')%Q ->
  runs_keyed w -> runs_keyed (set_run id r' w).
Proof.
  intros Hr' H id' g r Hg Hr. rewrite nth_error_set_run in Hg.
  destruct (Nat.eqb id id'); [|now apply (H id' g r)].
  destruct (nth_error (gens w) id'); simpl in Hg; [|discriminate].
  inversion Hg; subst. simpl in Hr. inversion Hr; subst. exact Hr'.
Qed.

Lemma step_keyed w e :
  runs_keyed w -> runs_keyed (step count limit quality w e).
Proof.
  intros H. destruct e as [videoUri duration|id k extraction|id|]; simpl.
  - destruct (isMountedRef w); [|exact H].
    unfold effect, effect_body.
    pose proof (abort_keyed (cleanup w) w H) as H0.
    set (w0 := abort (cleanup w) w) in *.
    destruct (Qle_bool duration 0) eqn:Ed; simpl; [exact H0|].
    destruct (truthy_string videoUri) eqn:Eu; simpl; [|exact H0].
    pose proof (abort_keyed (abortControllerRef w0) w0 H0) as H1.
    set (w1 := abort (abortControllerRef w0) w0) in *.
    destruct (match ThumbnailCache.get (cacheKey videoUri duration) (cache w1)
              with Some cached => _ | None => _ end);
      [|destruct (isMountedRef w1)];
      intros id g r Hg Hr; simpl in Hg;
      apply nth_error_snoc in Hg as [Hg|[-> ->]];
      try (now apply (H1 id g r)); try discriminate.
    simpl in Hr. inversion Hr; subst. simpl. split; [exact Eu|].
    apply Qnot_le_lt. intros Hle. apply Qle_bool_iff in Hle. congruence.
  - destruct (nth_error (gens w) id) as [[a [r|]]|] eqn:E; try exact H.
    destruct (existsb _ _); [|exact H].
    apply set_run_keyed; [|exact H]. exact (H id _ r E eq_refl).
  - destruct (nth_error (gens w) id) as [[a [r|]]|] eqn:E; try exact H.
    destruct (Pool.can_resume (pool r)); [|exact H].
    assert (Hs : runs_keyed (set_run id (resume_run count limit quality a r) w)).
    { apply set_run_keyed; [|exact H]. exact (H id _ r E eq_refl). }
    destruct (Pool.loop _); try exact Hs.
    intros id' g r' Hg Hr. rewrite gens_complete in Hg.
    now apply (Hs id' g r').
  - now apply abort_keyed, abort_keyed.
Qed.

Lemma exec_keyed events w :
  runs_keyed w -> runs_keyed (exec count limit quality w events).
Proof.
  revert w. unfold exec.
  induction events as [|e events IH]; intros w H; simpl; [exact H|].
  apply IH. now apply step_keyed.
Qed.

Lemma initial_keyed c : runs_keyed (initial count c).
Proof. intros id g r Hg. destruct id; discriminate. Qed.

(** The sequence a sound run hands over when its call returns has one
    slot per sample. *)
Lemma returned_ordered_length r :
  run_sound count limit quality r ->
  Pool.loop (pool r) = Pool.Returned ->
  length (orderedResults count (Pool.results (pool r))) = count.
Proof.
  intros Hsound Hret. pose proof Hsound as [Hpool _].
  pose proof (inv_loop _ _ _ _ Hpool) as Hl. rewrite Hret in Hl.
  destruct Hl as [Hq He].
  pose proof (sound_returned_length count limit quality r Hsound Hq He) as Hlen.
  rewrite (orderedResults_map count _ Hlen), length_map. exact Hlen.
Qed.

Lemma thumbnails_abort ref w : thumbnails (abort ref w) = thumbnails w.
Proof. destruct ref; reflexivity. Qed.

Lemma cache_abort ref w : cache (abort ref w) = cache w.
Proof. destruct ref; reflexivity. Qed.

Lemma step_thumbnails_length w e :
  runs_sound count limit quality w ->
  length (thumbnails w) = count ->
  length (thumbnails (step count limit quality w e)) = count.
Proof.
  intros Hsound Hlen.
  destruct e as [videoUri duration|id k extraction|id|]; simpl.
  - destruct (isMountedRef w); [|exact Hlen].
    unfold effect, effect_body. set (w0 := abort (cleanup w) w).
    destruct (Qle_bool duration 0 || negb (truthy_string videoUri)).
    + simpl. unfold w0. now rewrite thumbnails_abort.
    + set (w1 := abort (abortControllerRef w0) w0).
      assert (H1 : length (thumbnails w1) = count)
        by (unfold w1, w0; now rewrite !thumbnails_abort).
      destruct (ThumbnailCache.get (cacheKey videoUri duration) (cache w1))
        as [cached|]; [destruct (Nat.eqb_spec (length cached) count)|];
        [exact e | | ]; destruct (isMountedRef w1); exact H1.
  - destruct (nth_error (gens w) id) as [[a [r|]]|] eqn:E; try exact Hlen.
    destruct (existsb _ _); exact Hlen.
  - destruct (nth_error (gens w) id) as [[a [r|]]|] eqn:E; try exact Hlen.
    destruct (Pool.can_resume (pool r)); [|exact Hlen].
    destruct (Pool.loop (Pool.resume limit (pool r))) eqn:El;
      try exact Hlen.
    unfold complete.
    destruct (negb a && isMountedRef _); [|exact Hlen].
    simpl.
    apply (returned_ordered_length (resume_run count limit quality a r));
      [|exact El].
    apply resume_run_sound. now apply (Hsound id _ r E).
  - now rewrite !thumbnails_abort.
Qed.

Lemma exec_thumbnails_length events w :
  runs_sound count limit quality w ->
  length (thumbnails w) = count ->
  length (thumbnails (exec count limit quality w events)) = count.
Proof.
  revert w. unfold exec.
  induction events as [|e events IH]; intros w Hs Hl; simpl; [exact Hl|].
  apply IH; [now apply step_sound | now apply step_thumbnails_length].
Qed.
End GeneratorInvariantsMore.

(** Whatever the cache held at the start and whatever has happened since,
    the thumbnail strip has exactly [count] slots: at mount, after a cache
    hit and after a run completed. *)
Theorem thumbnails_always_count_slots (count limit : nat) (quality : Q)
  (c : ThumbnailCache.t) (events : list Generator.Event) :
  length
    (Generator.thumbnails
       (Generator.exec count limit quality (Generator.initial count c) events))
  = count.
Proof.
  apply exec_thumbnails_length.
  - apply initial_sound.
  - apply repeat_length.
Qed.

(** In every run, each sample index is handed to a task at most once, so
    no frame is requested twice and a run issues at most [count] requests;
    and with a limit of at least 1 no run has more than [limit] tasks in
    flight. *)
Theorem run_requests_each_sample_once (count limit : nat) (quality : Q)
  (c : ThumbnailCache.t) (events : list Generator.Event) (id : nat)
  (g : Generator.Gen) (r : Generator.Run) :
  nth_error
    (Generator.gens
       (Generator.exec count limit quality (Generator.initial count c) events))
    id = Some g ->
  Generator.run g = Some r ->
  NoDup (map fst (Generator.calls r)) /\
  length (Generator.calls r) <= count /\
  length (requests_of r) <= count /\
  (1 <= limit -> length (Pool.executing (Generator.pool r)) <= limit).
Proof.
  intros Hg Hr.
  pose proof (exec_sound count limit quality events _
                (initial_sound count limit quality c) id g r Hg Hr) as Hsound.
  destruct (sound_started_nodup count limit quality r Hsound) as [Hnd Hlen].
  destruct Hsound as [Hpool [Hfst _]].
  rewrite Hfst. split; [exact Hnd|].
  assert (Hcalls : length (Generator.calls r) <= count).
  { rewrite <- (length_map fst), Hfst. exact Hlen. }
  split; [exact Hcalls|]. split.
  - pose proof (requests_of_length r). lia.
  - apply (inv_bound _ _ _ _ Hpool).
Qed.

Lemma run_requests_each_sample_once_witness :
  NoDup (map fst (Generator.calls (run_or_empty 0 (low_end_exec in_order_run))))
  /\ length (requests_of (run_or_empty 0 (low_end_exec in_order_run))) <= 6.
Proof.
  destruct (run_requests_each_sample_once
              (THUMBNAIL_COUNT true) (MAX_CONCURRENT_THUMBNAILS true)
              (THUMBNAIL_CONFIG_quality true) ThumbnailCache.empty
              in_order_run 0
              (Generator.mkGen false
                 (Some (run_or_empty 0 (low_end_exec in_order_run))))
              (run_or_empty 0 (low_end_exec in_order_run)))
    as (Hnd & _ & Hreq & _).
  - vm_compute. reflexivity.
  - reflexivity.
  - split; [exact Hnd | exact Hreq].
Defined.

Section Loading.
Import Generator GenFacts GenInvariants.
Variables (count limit : nat) (quality : Q).

Lemma all_aborted_loading w thumbs loading mounted ref cl c :
  all_aborted w ->
  loading_while_generating
    (mkWorld thumbs loading mounted ref cl (gens w) c).
Proof.
  intros H id g r Hg Hr Ha. simpl in Hg.
  rewrite (H id g r Hg Hr) in Ha. discriminate.
Qed.

Lemma all_aborted_snoc_loading w thumbs loading mounted ref cl c fresh :
  all_aborted w ->
  (run fresh <> None -> loading = true) ->
  loading_while_generating
    (mkWorld thumbs loading mounted ref cl (gens w ++ [fresh]) c).
Proof.
  intros H Hfresh id g r Hg Hr Ha Hl. simpl in *.
  apply nth_error_snoc in Hg as [Hg|[-> ->]].
  - rewrite (H id g r Hg Hr) in Ha. discriminate.
  - apply Hfresh. congruence.
Qed.

Lemma settle_returned k x (p : Pool.t slot) :
  Pool.loop (Pool.settle k x p) = Pool.Returned ->
  Pool.loop p = Pool.Returned.
Proof. simpl. destruct (Pool.loop p); congruence. Qed.

Lemma can_resume_not_returned (p : Pool.t slot) :
  Pool.can_resume p = true -> Pool.loop p <> Pool.Returned.
Proof. unfold Pool.can_resume. destruct (Pool.loop p); congruence. Qed.

Lemma step_loading w e :
  live_runs_guarded w -> loading_while_generating w ->
  loading_while_generating (step count limit quality w e).
Proof.
  intros Hguard H.
  destruct e as [videoUri duration|id k extraction|id|]; simpl.
  - destruct (isMountedRef w); [|exact H].
    pose proof (abort_cleanup_all w (guarded_cleanup_guards w Hguard)) as H0.
    unfold effect, effect_body. set (w0 := abort (cleanup w) w) in *.
    destruct (Qle_bool duration 0 || negb (truthy_string videoUri)).
    + now apply all_aborted_loading.
    + pose proof (abort_all_aborted (abortControllerRef w0) w0 H0) as H1.
      set (w1 := abort (abortControllerRef w0) w0) in *.
      destruct (match ThumbnailCache.get (cacheKey videoUri duration) (cache w1)
                with Some cached => _ | None => _ end);
        [|destruct (isMountedRef w1)];
        apply all_aborted_snoc_loading; try exact H1; simpl; congruence.
  - destruct (nth_error (gens w) id) as [[a [r|]]|] eqn:E; try exact H.
    destruct (existsb _ _); [|exact H].
    intros id' g r0 Hg Hr Ha Hl. simpl.
    rewrite nth_error_set_run in Hg.
    destruct (Nat.eqb_spec id id') as [->|Hne].
    + rewrite E in Hg. simpl in Hg. inversion Hg; subst g. simpl in *.
      inversion Hr; subst r0.
      apply (H id' _ r E eq_refl Ha).
      intros Hret. apply Hl. unfold settle_run. simpl.
      now destruct (Pool.loop (pool r)).
    + now apply (H id' g r0).
  - destruct (nth_error (gens w) id) as [[a [r|]]|] eqn:E; try exact H.
    destruct (Pool.can_resume (pool r)) eqn:Ecan; [|exact H].
    assert (Hother : forall id' g,
               id' <> id ->
               nth_error (gens (set_run id (resume_run count limit quality a r) w))
                         id' = Some g ->
               nth_error (gens w) id' = Some g).
    { intros id' g Hne Hg. rewrite nth_error_set_run in Hg.
      destruct (Nat.eqb_spec id id'); [congruence | exact Hg]. }
    assert (Hsame : forall g,
               nth_error (gens (set_run id (resume_run count limit quality a r) w))
                         id = Some g ->
               g = mkGen a (Some (resume_run count limit quality a r))).
    { intros g Hg. rewrite nth_error_set_run, Nat.eqb_refl, E in Hg.
      simpl in Hg. congruence. }
    destruct (Pool.loop (Pool.resume limit (pool r))) eqn:El.
    + intros id' g r0 Hg Hr Ha Hl. simpl.
      destruct (Nat.eq_dec id' id) as [->|Hne].
      * apply Hsame in Hg. subst g. simpl in Ha.
        apply (H id _ r E eq_refl Ha).
        now apply can_resume_not_returned.
      * apply (H id' g r0); try assumption. now apply (Hother id' g).
    + intros id' g r0 Hg Hr Ha Hl. simpl.
      destruct (Nat.eq_dec id' id) as [->|Hne].
      * apply Hsame in Hg. subst g. simpl in Ha.
        apply (H id _ r E eq_refl Ha).
        now apply can_resume_not_returned.
      * apply (H id' g r0); try assumption. now apply (Hother id' g).
    + intros id' g r0 Hg Hr Ha Hl. rewrite gens_complete in Hg.
      destruct (Nat.eq_dec id' id) as [->|Hne].
      * apply Hsame in Hg. subst g. simpl in Hr. inversion Hr; subst r0.
        exfalso. apply Hl. exact El.
      * pose proof (Hother id' g Hne Hg) as Hg'.
        unfold complete. destruct a.
        -- simpl. now apply (H id' g r0).
        -- destruct (Hguard id' g r0 Hg' Hr Ha) as [Hc _].
           destruct (Hguard id _ r E eq_refl eq_refl) as [Hc' _].
           congruence.
  - set (w1 := mkWorld _ _ false _ _ _ _).
    assert (H1 : cleanup_guards w1).
    { intros id g r Hg Hr Ha. now destruct (Hguard id g r Hg Hr Ha). }
    apply (abort_cleanup_guards (abortControllerRef w1)) in H1.
    apply abort_cleanup_all in H1.
    destruct (fields_abort (abortControllerRef w1) w1) as (Hc & _).
    rewrite Hc in H1.
    intros id g r Hg Hr Ha. rewrite (H1 id g r Hg Hr) in Ha. discriminate.
Qed.

Lemma exec_loading events w :
  live_runs_guarded w -> loading_while_generating w ->
  loading_while_generating (exec count limit quality w events).
Proof.
  revert w. unfold exec.
  induction events as [|e events IH]; intros w Hg Hl; simpl; [exact Hl|].
  apply IH; [now apply step_guarded | now apply step_loading].
Qed.
End Loading.

(** While a run is in progress, neither cancelled nor returned, the
    loading flag is set, whatever cancelled runs do in the meantime. *)
Theorem loading_shown_while_generating (count limit : nat) (quality : Q)
  (c : ThumbnailCache.t) (events : list Generator.Event) (id : nat)
  (g : Generator.Gen) (r : Generator.Run) :
  nth_error
    (Generator.gens
       (Generator.exec count limit quality (Generator.initial count c) events))
    id = Some g ->
  Generator.run g = Some r ->
  Generator.aborted g = false ->
  Pool.loop (Generator.pool r) <> Pool.Returned ->
  Generator.isLoadingThumbnails
    (Generator.exec count limit quality (Generator.initial count c) events)
  = true.
Proof.
  intros Hg Hr Ha Hl.
  apply (exec_loading count limit quality events (Generator.initial count c))
    with (id := id) (g := g) (r := r); try assumption.
  - apply GenInvariants.initial_guarded.
  - intros id' g' r' Hg'. destruct id'; discriminate.
Qed.

Lemma loading_shown_while_generating_witness :
  Generator.isLoadingThumbnails
    (Generator.exec (THUMBNAIL_COUNT true) (MAX_CONCURRENT_THUMBNAILS true)
       (THUMBNAIL_CONFIG_quality true)
       (Generator.initial (THUMBNAIL_COUNT true) ThumbnailCache.empty)
       [Generator.Effect "v" 60; Generator.Settle 0 1 (Some "frame1"%string)])
  = true.
Proof.
  apply (loading_shown_while_generating
           (THUMBNAIL_COUNT true) (MAX_CONCURRENT_THUMBNAILS true)
           (THUMBNAIL_CONFIG_quality true) ThumbnailCache.empty
           [Generator.Effect "v" 60; Generator.Settle 0 1 (Some "frame1"%string)]
           0
           (Generator.mkGen false
              (Some (run_or_empty 0
                       (low_end_exec
                          [Generator.Effect "v" 60;
                           Generator.Settle 0 1 (Some "frame1"%string)]))))
           (run_or_empty 0
              (low_end_exec
                 [Generator.Effect "v" 60;
                  Generator.Settle 0 1 (Some "frame1"%string)]))).
  - vm_compute. reflexivity.
  - reflexivity.
  - reflexivity.
  - vm_compute. discriminate.
Defined.

Lemma cache_lookup_hit (c : ThumbnailCache.t) key thumbnails :
  ThumbnailCache.get key (ThumbnailCache.set key thumbnails c)
  = Some thumbnails.
Proof. unfold ThumbnailCache.get, ThumbnailCache.set. apply get_set_same. Qed.

Section Reuse.
Import Generator GenFacts GenInvariants.
Variables (count limit : nat) (quality : Q).

Lemma length_gens_abort ref w : length (gens (abort ref w)) = length (gens w).
Proof. now destruct (fields_abort ref w) as (_ & _ & _ & ->). Qed.

Lemma mounted_abort ref w : isMountedRef (abort ref w) = isMountedRef w.
Proof. now destruct (fields_abort ref w) as (_ & -> & _). Qed.

(** The world right after the call of a live run returned with a sequence
    worth caching. *)
Lemma resume_completes w id r :
  nth_error (gens w) id = Some (mkGen false (Some r)) ->
  isMountedRef w = true ->
  Pool.can_resume (pool r) = true ->
  Pool.loop (Pool.resume limit (pool r)) = Pool.Returned ->
  existsb not_null (orderedResults count (Pool.results (pool r))) = true ->
  step count limit quality w (Resume id)
  = mkWorld (orderedResults count (Pool.results (pool r))) false true
            (abortControllerRef w) (cleanup w)
            (gens (set_run id (resume_run count limit quality false r) w))
            (ThumbnailCache.set (cacheKey (run_uri r) (run_duration r))
               (orderedResults count (Pool.results (pool r))) (cache w)).
Proof.
  intros Hid Hmounted Hcan Hret Hsome.
  assert (Hres : Pool.results (Pool.resume limit (pool r))
                 = Pool.results (pool r)).
  { unfold Pool.resume in *. unfold Pool.can_resume in Hcan.
    destruct (Pool.loop (pool r)) as [[|]| |]; try discriminate.
    - destruct (for_loop_spec limit (Pool.queue (pool r))
                  (Pool.executing (pool r)) (Pool.results (pool r))
                  (Pool.started (pool r))) as (new & _ & _ & _ & Hr & _).
      exact Hr.
    - destruct (Pool.executing (pool r)); reflexivity. }
  simpl. rewrite Hid, Hcan. simpl. rewrite Hret.
  unfold complete. simpl. rewrite Hmounted, Hres, Hsome. reflexivity.
Qed.
End Reuse.

(** After a run completed with a sequence worth caching, the effect
    running again for the same media and a duration that rounds to the
    same second takes the sequence from the cache: the thumbnails are that
    sequence, the loading flag is cleared, the new controller guards no
    run (so nothing is requested), and the cache is left as it was. *)
Theorem completed_run_is_reused (count limit : nat) (quality : Q)
  (c : ThumbnailCache.t) (events : list Generator.Event) (id : nat)
  (r : Generator.Run) (duration' : Q) :
  nth_error
    (Generator.gens
       (Generator.exec count limit quality (Generator.initial count c) events))
    id = Some (Generator.mkGen false (Some r)) ->
  Generator.isMountedRef
    (Generator.exec count limit quality (Generator.initial count c) events)
  = true ->
  Pool.can_resume (Generator.pool r) = true ->
  Pool.loop (Pool.resume limit (Generator.pool r)) = Pool.Returned ->
  existsb Generator.not_null
    (Generator.orderedResults count (Pool.results (Generator.pool r))) = true ->
  (0 < duration')%Q ->
  Math_round duration' = Math_round (Generator.run_duration r) ->
  Generator.thumbnails
    (Generator.exec count limit quality (Generator.initial count c)
       (events ++ [Generator.Resume id;
                   Generator.Effect (Generator.run_uri r) duration']))
  = Generator.orderedResults count (Pool.results (Generator.pool r)) /\
  Generator.isLoadingThumbnails
    (Generator.exec count limit quality (Generator.initial count c)
       (events ++ [Generator.Resume id;
                   Generator.Effect (Generator.run_uri r) duration']))
  = false /\
  run_of
    (length
       (Generator.gens
          (Generator.exec count limit quality (Generator.initial count c)
                          events)))
    (Generator.exec count limit quality (Generator.initial count c)
       (events ++ [Generator.Resume id;
                   Generator.Effect (Generator.run_uri r) duration']))
  = None /\
  Generator.cache
    (Generator.exec count limit quality (Generator.initial count c)
       (events ++ [Generator.Resume id;
                   Generator.Effect (Generator.run_uri r) duration']))
  = Generator.cache
      (Generator.exec count limit quality (Generator.initial count c)
         (events ++ [Generator.Resume id])).
Proof.
  intros Hid Hmounted Hcan Hret Hsome Hpos Hround.
  unfold Generator.exec in *. rewrite !fold_left_app.
  set (w := fold_left _ events _) in *. cbn [fold_left].
  assert (Hsound : run_sound count limit quality r).
  { apply (exec_sound count limit quality events _
             (initial_sound count limit quality c) id _ r Hid eq_refl). }
  assert (Hkeyed : truthy_string (Generator.run_uri r) = true).
  { apply (exec_keyed count limit quality events _ (initial_keyed count c)
             id _ r Hid eq_refl). }
  assert (Hlen : length (Generator.orderedResults count
                           (Pool.results (Generator.pool r))) = count).
  { assert (Hres : Pool.results (Pool.resume limit (Generator.pool r))
                   = Pool.results (Generator.pool r)).
    { unfold Pool.resume in *. unfold Pool.can_resume in Hcan.
      destruct (Pool.loop (Generator.pool r)) as [[|]| |]; try discriminate.
      - destruct (for_loop_spec limit (Pool.queue (Generator.pool r))
                    (Pool.executing (Generator.pool r))
                    (Pool.results (Generator.pool r))
                    (Pool.started (Generator.pool r)))
          as (new & _ & _ & _ & Hr & _).
        exact Hr.
      - destruct (Pool.executing (Generator.pool r)); reflexivity. }
    rewrite <- Hres.
    apply (returned_ordered_length count limit quality
             (Generator.resume_run count limit quality false r));
      [|exact Hret].
    now apply resume_run_sound. }
  rewrite (resume_completes count limit quality w id r
             Hid Hmounted Hcan Hret Hsome).
  set (ordered := Generator.orderedResults count _) in *.
  set (w1 := Generator.mkWorld ordered _ _ _ _ _ _).
  unfold Generator.step. change (Generator.isMountedRef w1) with true.
  cbv iota. unfold Generator.effect, Generator.effect_body.
  assert (Hguard : Qle_bool duration' 0 = false).
  { destruct (Qle_bool duration' 0) eqn:E; [|reflexivity].
    apply Qle_bool_iff in E. exfalso. now apply (Qlt_not_le _ _ Hpos). }
  rewrite Hguard, Hkeyed. cbn [negb orb].
  set (w2 := Generator.abort _ (Generator.abort _ w1)).
  assert (Hcache : Generator.cache w2
                   = ThumbnailCache.set
                       (cacheKey (Generator.run_uri r) (Generator.run_duration r))
                       ordered (Generator.cache w)).
  { unfold w2. now rewrite !cache_abort. }
  assert (Hkey : cacheKey (Generator.run_uri r) duration'
                 = cacheKey (Generator.run_uri r) (Generator.run_duration r)).
  { unfold cacheKey. now rewrite Hround. }
  rewrite Hkey, Hcache, cache_lookup_hit, Hlen, Nat.eqb_refl.
  cbn [Generator.thumbnails Generator.isLoadingThumbnails Generator.cache].
  split; [reflexivity|]. split; [reflexivity|]. split; [|reflexivity].
  unfold run_of. cbn [Generator.gens].
  assert (Hgens : length (Generator.gens w2) = length (Generator.gens w)).
  { unfold w2. rewrite !length_gens_abort. unfold w1. cbn [Generator.gens].
    unfold Generator.set_run. simpl. apply GenFacts.length_update_nth. }
  rewrite <- Hgens, nth_error_app2, Nat.sub_diag by lia. reflexivity.
Qed.

Lemma completed_run_is_reused_witness :
  Generator.thumbnails
    (Generator.exec (THUMBNAIL_COUNT true) (MAX_CONCURRENT_THUMBNAILS true)
       (THUMBNAIL_CONFIG_quality true)
       (Generator.initial (THUMBNAIL_COUNT true) ThumbnailCache.empty)
       (pending_completion
        ++ [Generator.Resume 0;
            Generator.Effect
              (Generator.run_uri
                 (run_or_empty 0 (low_end_exec pending_completion)))
              (604 # 10)]))
  = Generator.orderedResults (THUMBNAIL_COUNT true)
      (Pool.results
         (Generator.pool (run_or_empty 0 (low_end_exec pending_completion)))).
Proof.
  apply (completed_run_is_reused
           (THUMBNAIL_COUNT true) (MAX_CONCURRENT_THUMBNAILS true)
           (THUMBNAIL_CONFIG_quality true) ThumbnailCache.empty
           pending_completion 0
           (run_or_empty 0 (low_end_exec pending_completion)) (604 # 10)).
  - vm_compute. reflexivity.
  - vm_compute. reflexivity.
  - vm_compute. reflexivity.
  - vm_compute. reflexivity.
  - vm_compute. reflexivity.
  - reflexivity.
  - vm_compute. reflexivity.
Defined.

(* ================================================================== *)
(** * Further properties of the playback position *)
(* ================================================================== *)

Section DragFacts.
Import Scrubber Timeline.
Local Open Scope Q_scope.
Variable SCREEN_WIDTH : Q.

Lemma seeks_app cs cs' : seeks (cs ++ cs') = seeks cs ++ seeks cs'.
Proof. unfold seeks. apply flat_map_app. Qed.

Lemma drag_moves moves : forall s log,
  forallb during_drag moves = true ->
  isDragging s = true ->
  isDragging
    (fst (fold_left
            (fun acc e =>
               (fst (handle SCREEN_WIDTH e (fst acc)),
                snd acc ++ snd (handle SCREEN_WIDTH e (fst acc))))
            moves (s, log))) = true /\
  progress
    (fst (fold_left
            (fun acc e =>
               (fst (handle SCREEN_WIDTH e (fst acc)),
                snd acc ++ snd (handle SCREEN_WIDTH e (fst acc))))
            moves (s, log)))
  = drag_progress SCREEN_WIDTH moves (progress s) /\
  seeks
    (snd (fold_left
            (fun acc e =>
               (fst (handle SCREEN_WIDTH e (fst acc)),
                snd acc ++ snd (handle SCREEN_WIDTH e (fst acc))))
            moves (s, log)))
  = seeks log /\
  duration
    (fst (fold_left
            (fun acc e =>
               (fst (handle SCREEN_WIDTH e (fst acc)),
                snd acc ++ snd (handle SCREEN_WIDTH e (fst acc))))
            moves (s, log)))
  = duration (fst (trace SCREEN_WIDTH moves s)).
Proof.
  unfold trace.
  induction moves as [|e moves IH]; intros s log Hmid Hdrag.
  - simpl. auto.
  - simpl in Hmid. apply andb_prop in Hmid as [He Hmid].
    cbn [fold_left fst snd].
    destruct e as [ct|d| |x| |x|x]; try discriminate; cbn [handle].
    + unfold timeUpdate. rewrite Hdrag. cbn [negb andb fst snd].
      rewrite app_nil_r.
      destruct (IH s log Hmid Hdrag) as (H1 & H2 & H3 & H4).
      destruct (IH s (@nil RNCall) Hmid Hdrag) as (_ & _ & _ & H4').
      rewrite ?app_nil_r in *.
      repeat split; try assumption; try (now rewrite H4, H4').
    + unfold statusChange.
      destruct (negb (Qle_bool d 0)); cbn [fst snd]; rewrite !app_nil_r.
      * set (s' := mk d _ _ _ _ _).
        destruct (IH s' log Hmid Hdrag) as (H1 & H2 & H3 & H4).
        destruct (IH s' (@nil RNCall) Hmid Hdrag) as (_ & _ & _ & H4').
        repeat split; try assumption; try (now rewrite H4, H4').
      * destruct (IH s log Hmid Hdrag) as (H1 & H2 & H3 & H4).
        destruct (IH s (@nil RNCall) Hmid Hdrag) as (_ & _ & _ & H4').
        repeat split; try assumption; try (now rewrite H4, H4').
    + unfold pan_onUpdate. cbn [fst snd].
      set (s' := mk _ _ _ _ _ _).
      destruct (IH s' (log ++ [updateDisplayTime
                                 (clamped_x SCREEN_WIDTH x
                                  / TIMELINE_WIDTH SCREEN_WIDTH * duration s)])
                  Hmid Hdrag) as (H1 & H2 & H3 & H4).
      destruct (IH s' ([] ++ [updateDisplayTime
                                (clamped_x SCREEN_WIDTH x
                                 / TIMELINE_WIDTH SCREEN_WIDTH * duration s)])
                  Hmid Hdrag) as (_ & _ & _ & H4').
      repeat split; try assumption; try (now rewrite H4, H4').
      rewrite H3, seeks_app. simpl. apply app_nil_r.
Qed.
End DragFacts.

(** From the start of a drag to its release, whatever moves of the pointer
    and events of the player arrive in between: the drag flag stays set,
    the progress is the one of the last move (time updates do not touch
    it), and nothing is sought; the release then clears the flag, keeps the
    progress, and schedules exactly one seek, to the released position. *)
Theorem drag_seeks_once_on_release (SCREEN_WIDTH : Q) (s : Scrubber.t)
  (moves : list Timeline.Event) (event_x : Q) :
  forallb during_drag moves = true ->
  Scrubber.isDragging
    (fst (Timeline.trace SCREEN_WIDTH (Timeline.PanStart :: moves) s)) = true /\
  Scrubber.progress
    (fst (Timeline.trace SCREEN_WIDTH (Timeline.PanStart :: moves) s))
  = drag_progress SCREEN_WIDTH moves (Scrubber.progress s) /\
  Timeline.seeks
    (snd (Timeline.trace SCREEN_WIDTH (Timeline.PanStart :: moves) s)) = [] /\
  Scrubber.isDragging
    (fst (Timeline.trace SCREEN_WIDTH
            (Timeline.PanStart :: moves ++ [Timeline.PanEnd event_x]) s))
  = false /\
  Scrubber.progress
    (fst (Timeline.trace SCREEN_WIDTH
            (Timeline.PanStart :: moves ++ [Timeline.PanEnd event_x]) s))
  = drag_progress SCREEN_WIDTH moves (Scrubber.progress s) /\
  Timeline.seeks
    (snd (Timeline.trace SCREEN_WIDTH
            (Timeline.PanStart :: moves ++ [Timeline.PanEnd event_x]) s))
  = [(Scrubber.clamped_x SCREEN_WIDTH event_x / TIMELINE_WIDTH SCREEN_WIDTH
      * Scrubber.duration
          (fst (Timeline.trace SCREEN_WIDTH (Timeline.PanStart :: moves) s)))%Q].
Proof.
  intros Hmoves. unfold Timeline.trace.
  cbn [fold_left fst snd Timeline.handle Scrubber.pan_onStart app].
  rewrite fold_left_app.
  set (s0 := Scrubber.mk _ _ true _ _ _).
  destruct (drag_moves SCREEN_WIDTH moves s0 [] Hmoves eq_refl)
    as (Hdrag & Hprog & Hseek & _).
  set (mid := fold_left _ moves (s0, [])) in *.
  cbn [fold_left fst snd Timeline.handle Scrubber.pan_onEnd].
  repeat split; try assumption.
  rewrite seeks_app, Hseek. reflexivity.
Qed.

Lemma drag_seeks_once_on_release_witness :
  Timeline.seeks
    (snd (Timeline.trace 400
            (Timeline.PanStart
             :: [Timeline.PanUpdate 90; Timeline.TimeUpdate 7;
                 Timeline.PanUpdate 180]
             ++ [Timeline.PanEnd 180])
            (Scrubber.mk 100 0 false 0 1 0)))
  = [(Scrubber.clamped_x 400 180 / TIMELINE_WIDTH 400
      * Scrubber.duration
          (fst (Timeline.trace 400
                  (Timeline.PanStart
                   :: [Timeline.PanUpdate 90; Timeline.TimeUpdate 7;
                       Timeline.PanUpdate 180])
                  (Scrubber.mk 100 0 false 0 1 0))))%Q].
Proof.
  apply (drag_seeks_once_on_release 400 (Scrubber.mk 100 0 false 0 1 0)
           [Timeline.PanUpdate 90; Timeline.TimeUpdate 7;
            Timeline.PanUpdate 180] 180).
  reflexivity.
Defined.

Section GestureBounds.
Import Scrubber Timeline.
Local Open Scope Q_scope.

Lemma scaled_within (p d : Q) :
  0 <= p <= 1 -> 0 <= d -> 0 <= p * d <= d.
Proof.
  intros [Hp0 Hp1] Hd. split.
  - now apply Qmult_le_0_compat.
  - rewrite <- (Qmult_1_l d) at 2. now apply Qmult_le_compat_r.
Qed.
End GestureBounds.

(** On a timeline of positive width and with a duration that is not
    negative, every time a gesture asks the player to seek to, or shows as
    display time, lies between 0 and the duration, wherever the pointer
    is. *)
Theorem gesture_times_within_media (SCREEN_WIDTH event_x : Q)
  (s : Scrubber.t) :
  (0 < TIMELINE_WIDTH SCREEN_WIDTH)%Q ->
  (0 <= Scrubber.duration s)%Q ->
  Forall (within_media (Scrubber.duration s))
         (snd (Scrubber.tap_onEnd SCREEN_WIDTH event_x s)) /\
  Forall (within_media (Scrubber.duration s))
         (snd (Scrubber.pan_onUpdate SCREEN_WIDTH event_x s)) /\
  Forall (within_media (Scrubber.duration s))
         (snd (Scrubber.pan_onEnd SCREEN_WIDTH event_x s)).
Proof.
  intros HW Hd.
  pose proof (scaled_within _ _ (progress_bounds SCREEN_WIDTH HW event_x) Hd)
    as H.
  repeat split; repeat constructor; simpl; apply H.
Qed.

Lemma gesture_times_within_media_witness :
  Forall (within_media 100)
         (snd (Scrubber.pan_onEnd 400 5000 (Scrubber.mk 100 0 true 0 1 0))).
Proof.
  assert (HW : (0 < TIMELINE_WIDTH 400)%Q) by reflexivity.
  assert (Hd : (0 <= Scrubber.duration (Scrubber.mk 100 0 true 0 1 0))%Q)
    by discriminate.
  destruct (gesture_times_within_media 400 5000
              (Scrubber.mk 100 0 true 0 1 0) HW Hd) as (_ & _ & Hend).
  exact Hend.
Defined.

(** The duration the component holds never becomes unknown again: whatever
    events arrive, a duration that is positive stays positive, and it is
    never negative if it was not. *)
Theorem duration_stays_known (SCREEN_WIDTH : Q)
  (events : list Timeline.Event) (s : Scrubber.t) :
  ((0 <= Scrubber.duration s)%Q ->
   (0 <= Scrubber.duration (fst (Timeline.trace SCREEN_WIDTH events s)))%Q) /\
  ((0 < Scrubber.duration s)%Q ->
   (0 < Scrubber.duration (fst (Timeline.trace SCREEN_WIDTH events s)))%Q).
Proof.
  unfold Timeline.trace. generalize (@nil Scrubber.RNCall) as log.
  revert s. induction events as [|e events IH]; intros s log.
  - simpl. tauto.
  - cbn [fold_left fst snd].
    destruct (IH (fst (Timeline.handle SCREEN_WIDTH e s))
                 (log ++ snd (Timeline.handle SCREEN_WIDTH e s)))
      as [IH0 IH1].
    assert (Hstep : (Scrubber.duration (fst (Timeline.handle SCREEN_WIDTH e s))
                     = Scrubber.duration s) \/
                    (0 < Scrubber.duration
                           (fst (Timeline.handle SCREEN_WIDTH e s)))%Q).
    { destruct e as [ct|d| |x| |x|x]; cbn [Timeline.handle];
        try (left; reflexivity).
      - unfold Scrubber.timeUpdate.
        destruct (negb (Scrubber.isDragging s)
                  && negb (Qle_bool (Scrubber.duration s) 0));
          left; reflexivity.
      - unfold Timeline.statusChange.
        destruct (Qle_bool d 0) eqn:E; cbn [negb fst];
          [left; reflexivity|].
        right. cbn [Scrubber.duration].
        apply Qnot_le_lt. intros Hle. apply Qle_bool_iff in Hle. congruence. }
    split; intros H.
    + apply IH0. destruct Hstep as [->|Hpos];
        [exact H | now apply Qlt_le_weak].
    + apply IH1. destruct Hstep as [->|Hpos]; assumption.
Qed.

Lemma duration_stays_known_witness :
  (0 < Scrubber.duration
         (fst (Timeline.trace 400
                 [Timeline.StatusChange 0; Timeline.TapEnd 10;
                  Timeline.StatusChange (-1)]
                 (Scrubber.mk 100 0 false 0 1 0))))%Q.
Proof.
  destruct (duration_stays_known 400
              [Timeline.StatusChange 0; Timeline.TapEnd 10;
               Timeline.StatusChange (-1)]
              (Scrubber.mk 100 0 false 0 1 0)) as [_ Hpos].
  apply Hpos. reflexivity.
Defined.

Section PointerOrder.
Import Scrubber.
Local Open Scope Q_scope.

Lemma clamped_x_mono (SCREEN_WIDTH x y : Q) :
  x <= y -> clamped_x SCREEN_WIDTH x <= clamped_x SCREEN_WIDTH y.
Proof.
  intros Hxy. unfold clamped_x, Math_max, Math_min.
  apply Q.max_le_compat_l. now apply Q.min_le_compat_r.
Qed.
End PointerOrder.

(** After a tap or a move at any pointer offset, on a timeline of positive
    width: the progress fill and the playhead never leave the timeline,
    the playhead never runs ahead of the fill, a pointer at or left of the
    left edge puts both at 0, a pointer at or right of the right edge
    fills the timeline and puts the playhead at the end of its travel, and
    a pointer further right never moves either of them back.  (Only the
    order of the numbers is used, which the rounding of the code's
    arithmetic keeps.) *)
Theorem playhead_and_fill_follow_pointer (SCREEN_WIDTH event_x other_x : Q)
  (s : Scrubber.t) :
  (0 < TIMELINE_WIDTH SCREEN_WIDTH)%Q ->
  (Scrubber.progress (fst (Scrubber.pan_onUpdate SCREEN_WIDTH event_x s))
   = Scrubber.progress (fst (Scrubber.tap_onEnd SCREEN_WIDTH event_x s)) /\
   0 <= fill_at SCREEN_WIDTH s event_x <= TIMELINE_WIDTH SCREEN_WIDTH /\
   playhead_at SCREEN_WIDTH s event_x <= fill_at SCREEN_WIDTH s event_x /\
   (event_x <= 0 ->
    fill_at SCREEN_WIDTH s event_x == 0 /\
    playhead_at SCREEN_WIDTH s event_x == 0) /\
   (TIMELINE_WIDTH SCREEN_WIDTH <= event_x ->
    fill_at SCREEN_WIDTH s event_x == TIMELINE_WIDTH SCREEN_WIDTH /\
    playhead_at SCREEN_WIDTH s event_x
    == TIMELINE_WIDTH SCREEN_WIDTH - PLAYHEAD_WIDTH) /\
   (event_x <= other_x ->
    fill_at SCREEN_WIDTH s event_x <= fill_at SCREEN_WIDTH s other_x) /\
   (PLAYHEAD_WIDTH <= TIMELINE_WIDTH SCREEN_WIDTH ->
    0 <= playhead_at SCREEN_WIDTH s event_x
    <= TIMELINE_WIDTH SCREEN_WIDTH - PLAYHEAD_WIDTH /\
    (event_x <= other_x ->
     playhead_at SCREEN_WIDTH s event_x
     <= playhead_at SCREEN_WIDTH s other_x)))%Q.
Proof.
  intros HW.
  unfold fill_at, playhead_at, Render.progressOverlay_width,
    Render.playhead_translateX, PLAYHEAD_WIDTH.
  cbn [Scrubber.tap_onEnd Scrubber.pan_onUpdate fst Scrubber.progress].
  destruct (progress_bounds SCREEN_WIDTH HW event_x) as [Hp0 Hp1].
  destruct (progress_bounds SCREEN_WIDTH HW other_x) as [Hq0 Hq1].
  destruct (clamped_x_bounds SCREEN_WIDTH HW event_x) as [Hc0 Hc1].
  destruct (ScrubberFacts.clamped_x_cases SCREEN_WIDTH event_x
              (Qlt_le_weak _ _ HW)) as (Hlow & Hhigh & _).
  pose proof (clamped_x_mono SCREEN_WIDTH event_x other_x) as Hmono.
  set (c := Scrubber.clamped_x SCREEN_WIDTH event_x) in *.
  set (d := Scrubber.clamped_x SCREEN_WIDTH other_x) in *.
  set (W := TIMELINE_WIDTH SCREEN_WIDTH) in *.
  assert (HpW : (c / W * W == c)%Q) by (field; lra).
  assert (HqW : (d / W * W == d)%Q) by (field; lra).
  assert (Hlow' : (c == 0 -> c / W == 0)%Q)
    by (intros E; rewrite E; field; lra).
  assert (Hhigh' : (c == W -> c / W == 1)%Q)
    by (intros E; rewrite E; field; lra).
  assert (Hmono' : (c <= d -> c / W <= d / W)%Q).
  { intros Hcd. unfold Qdiv. apply Qmult_le_compat_r; [exact Hcd|].
    apply Qlt_le_weak, Qinv_lt_0_compat. exact HW. }
  set (p := (c / W)%Q) in *. set (q := (d / W)%Q) in *.
  split; [reflexivity|]. split; [lra|]. split; [lra|].
  split; [|split; [|split]].
  - intros Hx. specialize (Hlow' (Hlow Hx)). rewrite Hlow'. split; ring.
  - intros Hx. specialize (Hhigh' (Hhigh Hx)). rewrite Hhigh'. split; ring.
  - intros Hxy. specialize (Hmono Hxy). lra.
  - intros Hwide.
    assert (Hprod : (0 <= (1 - p) * (W - 4))%Q)
      by (apply Qmult_le_0_compat; lra).
    assert (Hprod' : (0 <= p * (W - 4))%Q)
      by (apply Qmult_le_0_compat; lra).
    split; [lra|]. intros Hxy. specialize (Hmono' (Hmono Hxy)).
    assert (Hprod'' : (0 <= (q - p) * (W - 4))%Q)
      by (apply Qmult_le_0_compat; lra).
    lra.
Qed.

Lemma playhead_and_fill_follow_pointer_witness :
  (fill_at 400 (Scrubber.mk 100 0 false 0 1 0) 90
   <= fill_at 400 (Scrubber.mk 100 0 false 0 1 0) 200 /\
   playhead_at 400 (Scrubber.mk 100 0 false 0 1 0) 90
   <= playhead_at 400 (Scrubber.mk 100 0 false 0 1 0) 200 /\
   playhead_at 400 (Scrubber.mk 100 0 false 0 1 0) 90
   <= fill_at 400 (Scrubber.mk 100 0 false 0 1 0) 90)%Q.
Proof.
  assert (HW : (0 < TIMELINE_WIDTH 400)%Q) by reflexivity.
  destruct (playhead_and_fill_follow_pointer
              400 90 200 (Scrubber.mk 100 0 false 0 1 0) HW)
    as (_ & _ & Hbehind & _ & _ & Hfill & Hplayhead).
  split; [apply Hfill; discriminate|].
  split; [|exact Hbehind].
  destruct Hplayhead as [_ Hmove]; [discriminate|].
  apply Hmove. discriminate.
Defined.

(* ================================================================== *)
(** * Properties of the time labels *)
(* ================================================================== *)

Lemma floor_unique (x : Q) (z : Z) :
  (inject_Z z <= x)%Q -> (x < inject_Z (z + 1))%Q -> Qfloor x = z.
Proof.
  intros Hle Hlt.
  pose proof (Qfloor_le x) as H1. pose proof (Qlt_floor x) as H2.
  assert (A : (z < Qfloor x + 1)%Z).
  { rewrite Zlt_Qlt. eapply Qle_lt_trans; [exact Hle | exact H2]. }
  assert (B : (Qfloor x < z + 1)%Z).
  { rewrite Zlt_Qlt. eapply Qle_lt_trans; [exact H1 | exact Hlt]. }
  lia.
Qed.

Lemma floor_div (x : Q) (n : Z) :
  (0 < n)%Z -> Qfloor (x / inject_Z n) = (Qfloor x / n)%Z.
Proof.
  intros Hn.
  pose proof (Qfloor_le x) as H1. pose proof (Qlt_floor x) as H2.
  pose proof (Z.div_mod (Qfloor x) n ltac:(lia)) as Hdm.
  pose proof (Z.mod_pos_bound (Qfloor x) n Hn) as [Hr0 Hr1].
  set (f := Qfloor x) in *. set (q := (f / n)%Z) in *.
  set (r := (f mod n)%Z) in *.
  assert (Hn' : (0 < inject_Z n)%Q)
    by (change (inject_Z 0 < inject_Z n)%Q; rewrite <- Zlt_Qlt; exact Hn).
  assert (Hf : (inject_Z f == inject_Z n * inject_Z q + inject_Z r)%Q).
  { rewrite <- inject_Z_mult, <- inject_Z_plus, <- Hdm. reflexivity. }
  assert (Hr0' : (0 <= inject_Z r)%Q)
    by (change (inject_Z 0 <= inject_Z r)%Q; rewrite <- Zle_Qle; exact Hr0).
  assert (Hr1' : (inject_Z r + 1 <= inject_Z n)%Q).
  { change 1%Q with (inject_Z 1).
    rewrite <- (inject_Z_plus r 1), <- Zle_Qle. lia. }
  rewrite inject_Z_plus in H2. change (inject_Z 1) with 1%Q in H2.
  apply floor_unique.
  - apply Qle_shift_div_l; [exact Hn'|]. lra.
  - apply Qlt_shift_div_r; [exact Hn'|]. rewrite inject_Z_plus.
    change (inject_Z 1) with 1%Q. lra.
Qed.

Lemma floor_sub (x : Q) (k : Z) :
  Qfloor (x - inject_Z k) = (Qfloor x - k)%Z.
Proof.
  pose proof (Qfloor_le x) as H1. pose proof (Qlt_floor x) as H2.
  rewrite inject_Z_plus in H2. change (inject_Z 1) with 1%Q in H2.
  apply floor_unique.
  - unfold Z.sub. rewrite inject_Z_plus, inject_Z_opp. lra.
  - replace (Qfloor x - k + 1)%Z with (Qfloor x + 1 + - k)%Z by lia.
    rewrite !inject_Z_plus, inject_Z_opp. change (inject_Z 1) with 1%Q. lra.
Qed.

Lemma trunc_nonneg (x : Q) : (0 <= x)%Q -> Math_trunc x = Qfloor x.
Proof.
  intros H. unfold Math_trunc. apply Qle_bool_iff in H. now rewrite H.
Qed.

(** For a time that is not negative, [seconds % n] leaves the whole
    seconds modulo [n] and the fraction. *)
Lemma floor_rem (x : Q) (n : Z) :
  (0 <= x)%Q -> (0 < n)%Z ->
  Qfloor (js_rem x (inject_Z n)) = (Qfloor x mod n)%Z.
Proof.
  intros Hx Hn. unfold js_rem.
  assert (Hn' : (0 < inject_Z n)%Q)
    by (change (inject_Z 0 < inject_Z n)%Q; rewrite <- Zlt_Qlt; exact Hn).
  rewrite trunc_nonneg
    by (apply Qle_shift_div_l; [exact Hn' | lra]).
  rewrite floor_div by exact Hn.
  rewrite <- inject_Z_mult, floor_sub.
  rewrite Z.mod_eq by lia. reflexivity.
Qed.

Lemma string_app_assoc (a b c : string) :
  ((a ++ b) ++ c)%string = (a ++ b ++ c)%string.
Proof. induction a as [|x a IH]; simpl; [reflexivity | now rewrite IH]. Qed.

Lemma two_digits (z : Z) :
  (0 <= z < 60)%Z ->
  String.length (padStart 2 "0" (number_to_string z)) = 2.
Proof.
  intros Hz.
  assert (Hn : exists n, z = Z.of_nat n /\ n < 60).
  { exists (Z.to_nat z). split; lia. }
  destruct Hn as (n & -> & Hn).
  do 60 (destruct n as [|n]; [reflexivity|]). lia.
Qed.

Lemma formatTime_nonneg (seconds : Q) :
  (0 <= seconds)%Q ->
  formatTime seconds
  = (padStart 2 "0" (number_to_string (Qfloor seconds / 60)) ++ ":"
     ++ padStart 2 "0" (number_to_string (Qfloor seconds mod 60)))%string.
Proof.
  intros Hs. unfold formatTime, Math_floor.
  destruct (Qeq_bool seconds 0) eqn:E.
  - apply Qeq_bool_iff in E. rewrite (Qfloor_comp _ _ E). reflexivity.
  - change 60%Q with (inject_Z 60).
    rewrite floor_div by lia. rewrite floor_rem by (assumption || lia).
    reflexivity.
Qed.

(** For a time that is not negative the label shows the whole seconds:
    minutes, padded to two digits, then the seconds of the minute on
    exactly two digits; so two times within the same whole second have
    the same label. *)
Theorem formatTime_shows_whole_seconds (seconds other : Q) :
  (0 <= seconds)%Q ->
  formatTime seconds
  = (padStart 2 "0" (number_to_string (Qfloor seconds / 60)) ++ ":"
     ++ padStart 2 "0" (number_to_string (Qfloor seconds mod 60)))%string /\
  String.length (padStart 2 "0" (number_to_string (Qfloor seconds mod 60))) = 2
  /\
  ((0 <= other)%Q -> Qfloor other = Qfloor seconds ->
   formatTime other = formatTime seconds).
Proof.
  intros Hs. split; [now apply formatTime_nonneg|]. split.
  - apply two_digits. apply Z.mod_pos_bound. lia.
  - intros Ho Heq. rewrite !formatTime_nonneg by assumption.
    now rewrite Heq.
Qed.

Lemma formatTime_shows_whole_seconds_witness :
  formatTime (754 # 10) = "01:15"%string /\
  formatTime (759 # 10) = formatTime (754 # 10).
Proof.
  assert (H : (0 <= 754 # 10)%Q) by discriminate.
  destruct (formatTime_shows_whole_seconds (754 # 10) (759 # 10) H)
    as (Hshape & _ & Hsame).
  split.
  - rewrite Hshape. reflexivity.
  - apply Hsame; [discriminate | reflexivity].
Defined.

Lemma of_Q_zero (q : Q) :
  (q == 0)%Q -> Double.of_Q q = SpecFloat.S754_zero false.
Proof.
  intros E. unfold Double.of_Q.
  assert (Hn : Qnum q = 0%Z).
  { unfold Qeq in E. simpl in E. lia. }
  now rewrite Hn.
Qed.

Lemma hundredths_whole (seconds : Q) :
  (js_rem seconds 1 == 0)%Q -> hundredths seconds = Some 0%Z.
Proof. intros E. unfold hundredths. now rewrite (of_Q_zero _ E). Qed.

Lemma js_rem_zero (seconds : Q) :
  (seconds == 0)%Q -> (js_rem seconds 1 == 0)%Q.
Proof.
  intros E. unfold js_rem, Math_trunc.
  assert (E' : (seconds / 1 == 0)%Q) by (rewrite E; reflexivity).
  destruct (Qle_bool 0 (seconds / 1)).
  - rewrite (Qfloor_comp _ _ E'), E. reflexivity.
  - rewrite (Qceiling_comp _ _ E'), E. reflexivity.
Qed.

(** The label with hundredths is the plain label followed by a dot and
    two more digits, the hundredths as the code computes them; for a whole
    number of seconds they are 00. *)
Theorem formatTimeMs_extends_formatTime (seconds : Q) :
  formatTimeMs seconds
  = (formatTime seconds ++ "."
     ++ padStart 2 "0" (whole_to_string (hundredths seconds)))%string /\
  ((js_rem seconds 1 == 0)%Q ->
   formatTimeMs seconds = (formatTime seconds ++ ".00")%string).
Proof.
  assert (Hext : formatTimeMs seconds
                 = (formatTime seconds ++ "."
                    ++ padStart 2 "0"
                         (whole_to_string (hundredths seconds)))%string).
  { unfold formatTimeMs, formatTime.
    destruct (Qeq_bool seconds 0) eqn:E.
    - apply Qeq_bool_iff in E.
      now rewrite (hundredths_whole _ (js_rem_zero _ E)).
    - now rewrite !string_app_assoc. }
  split; [exact Hext|].
  intros Hwhole. rewrite Hext, (hundredths_whole _ Hwhole). reflexivity.
Qed.

Lemma formatTimeMs_extends_formatTime_witness :
  formatTimeMs 75 = "01:15.00"%string /\
  formatTimeMs (1080863910568919 # 36028797018963968) = "00:00.03"%string.
Proof.
  destruct (formatTimeMs_extends_formatTime 75) as [_ Hwhole].
  destruct (formatTimeMs_extends_formatTime
              (1080863910568919 # 36028797018963968)) as [Hext _].
  split.
  - rewrite Hwhole by reflexivity. reflexivity.
  - rewrite Hext. vm_compute. reflexivity.
Defined.

(** The five markers under the timeline: the first is ["00:00"] and, for a
    duration that is not negative, the last is the label of the duration
    itself. *)
Theorem timeMarkers_span_the_duration (duration : Q) :
  (0 <= duration)%Q ->
  length (timeMarkers duration) = 5 /\
  nth_error (timeMarkers duration) 0 = Some "00:00"%string /\
  nth_error (timeMarkers duration) 4 = Some (formatTime duration).
Proof.
  intros Hd. unfold timeMarkers. split; [reflexivity|]. split.
  - cbn [seq map nth_error Z.of_nat]. f_equal. unfold formatTime.
    assert (E : (duration / 4 * inject_Z 0 == 0)%Q)
      by (change (inject_Z 0) with 0%Q; ring).
    apply Qeq_bool_iff in E. now rewrite E.
  - cbn [seq map nth_error]. f_equal.
    assert (E : (duration / 4 * inject_Z (Z.of_nat 4) == duration)%Q)
      by (change (inject_Z (Z.of_nat 4)) with 4%Q; field).
    assert (Hq : (0 <= duration / 4 * inject_Z (Z.of_nat 4))%Q)
      by (rewrite E; exact Hd).
    rewrite !formatTime_nonneg by assumption.
    now rewrite (Qfloor_comp _ _ E).
Qed.

Lemma timeMarkers_span_the_duration_witness :
  nth_error (timeMarkers 100) 4 = Some (formatTime 100).
Proof.
  assert (H : (0 <= 100)%Q) by discriminate.
  destruct (timeMarkers_span_the_duration 100 H) as (_ & _ & Hlast).
  exact Hlast.
Defined.

Lemma string_length_app (a b : string) :
  String.length (a ++ b) = String.length a + String.length b.
Proof. induction a as [|x a IH]; simpl; [reflexivity | now rewrite IH]. Qed.

Lemma string_app_inv (a a' b b' : string) :
  (a ++ b)%string = (a' ++ b')%string ->
  String.length b = String.length b' ->
  a = a' /\ b = b'.
Proof.
  revert a'. induction a as [|x a IH]; intros [|x' a'] H Hlen; simpl in H.
  - now split.
  - exfalso. rewrite H in Hlen. simpl in Hlen.
    rewrite string_length_app in Hlen. lia.
  - exfalso. rewrite <- H in Hlen. simpl in Hlen.
    rewrite string_length_app in Hlen. lia.
  - inversion H as [[Hx E]]. destruct (IH a' E Hlen) as [-> ->]. now split.
Qed.

Lemma decode_leading_zero (s : string) :
  decode_digits (String "0" s) = decode_digits s.
Proof.
  unfold decode_digits. simpl.
  destruct (NilEmpty.uint_of_string s); reflexivity.
Qed.

Lemma decode_number (z : Z) :
  (0 <= z)%Z -> decode_digits (number_to_string z) = Some z.
Proof.
  intros Hz. unfold decode_digits, number_to_string.
  pose proof (DecimalZ.of_to z) as Hof.
  destruct (Z.to_int z) as [d|d] eqn:E.
  - simpl. unfold NilZero.string_of_uint.
    destruct d; try (rewrite NilEmpty.usu; simpl; now rewrite <- Hof).
    simpl in *. now rewrite <- Hof.
  - exfalso. destruct z as [|p|p]; simpl in E; try discriminate. lia.
Qed.

Lemma decode_padStart (z : Z) :
  (0 <= z)%Z -> decode_digits (padStart 2 "0" (number_to_string z)) = Some z.
Proof.
  intros Hz. unfold padStart.
  induction (2 - String.length (number_to_string z)) as [|k IH]; simpl.
  - now apply decode_number.
  - now rewrite decode_leading_zero.
Qed.

(** For times that are not negative, two labels are equal exactly when
    the two times lie in the same whole second. *)
Theorem formatTime_equal_iff_same_second (seconds other : Q) :
  (0 <= seconds)%Q -> (0 <= other)%Q ->
  (formatTime seconds = formatTime other <-> Qfloor seconds = Qfloor other).
Proof.
  intros Hs Ho. rewrite !formatTime_nonneg by assumption. split.
  - intros H.
    assert (Hfs : (0 <= Qfloor seconds)%Z)
      by (change 0%Z with (Qfloor 0); now apply Qfloor_resp_le).
    assert (Hfo : (0 <= Qfloor other)%Z)
      by (change 0%Z with (Qfloor 0); now apply Qfloor_resp_le).
    apply string_app_inv in H as [Hm Hr].
    + apply (f_equal decode_digits) in Hm.
      rewrite !decode_padStart in Hm by (apply Z.div_pos; lia).
      simpl in Hr. inversion Hr as [Hr'].
      apply (f_equal decode_digits) in Hr'.
      rewrite !decode_padStart in Hr' by (apply Z.mod_pos_bound; lia).
      inversion Hm as [Hm']. inversion Hr' as [Hr''].
      rewrite (Z.div_mod (Qfloor seconds) 60), (Z.div_mod (Qfloor other) 60)
        by lia.
      now rewrite Hm', Hr''.
    + simpl. rewrite !two_digits by (apply Z.mod_pos_bound; lia).
      reflexivity.
  - intros ->. reflexivity.
Qed.

Lemma formatTime_equal_iff_same_second_witness :
  formatTime (754 # 10) <> formatTime (764 # 10).
Proof.
  assert (H : (0 <= 754 # 10)%Q) by discriminate.
  assert (H' : (0 <= 764 # 10)%Q) by discriminate.
  intros E.
  apply (formatTime_equal_iff_same_second (754 # 10) (764 # 10) H H') in E.
  discriminate E.
Defined.

(* ================================================================== *)
(** * Properties of the memo comparison and of the seek buttons *)
(* ================================================================== *)

Lemma strict_eq_iff (a b : slot) :
  ThumbnailStrip.strict_eq a b = true <-> a = b.
Proof.
  destruct a as [x|], b as [y|]; simpl; split; intros H;
    try discriminate; try reflexivity.
  - apply String.eqb_eq in H. now subst.
  - inversion H. apply String.eqb_refl.
Qed.

Lemma every_from_iff (next prev : list slot) (from : nat) :
  ThumbnailStrip.every_from (ThumbnailStrip.equals_at next) from prev = true
  <-> (forall i t, nth_error prev i = Some t ->
                   nth_error next (from + i) = Some t).
Proof.
  revert from. induction prev as [|t prev IH]; intros from; simpl.
  - split; [intros _ i t H; destruct i; discriminate | reflexivity].
  - rewrite andb_true_iff, IH. unfold ThumbnailStrip.equals_at. split.
    + intros [Hhead Htail] i u Hi. destruct i as [|i]; simpl in Hi.
      * inversion Hi; subst u. rewrite Nat.add_0_r.
        destruct (nth_error next from) as [v|]; [|discriminate].
        apply strict_eq_iff in Hhead. now subst.
      * rewrite <- Nat.add_succ_comm. now apply Htail.
    + intros H. split.
      * specialize (H 0 t eq_refl). rewrite Nat.add_0_r in H. rewrite H.
        now apply strict_eq_iff.
      * intros i u Hi. rewrite Nat.add_succ_comm. now apply (H (S i)).
Qed.

(** The comparison handed to [memo] is exact: it lets the strip skip a
    re-render exactly when the new thumbnails and loading flag are the
    ones it already shows. *)
Theorem strip_rerender_skipped_iff_same_props
  (prev next : ThumbnailStrip.Props) :
  ThumbnailStrip.areEqual prev next = true <-> prev = next.
Proof.
  unfold ThumbnailStrip.areEqual.
  destruct prev as [ts l], next as [ts' l']. simpl.
  rewrite !andb_true_iff, Bool.eqb_true_iff, Nat.eqb_eq, every_from_iff.
  split.
  - intros [[-> Hlen] Hnth]. f_equal.
    apply nth_error_ext. intros i.
    destruct (nth_error ts i) as [t|] eqn:E.
    + symmetry. now apply (Hnth i t).
    + symmetry. apply nth_error_None. apply nth_error_None in E. lia.
  - intros H. inversion H; subst. repeat split. intros i t Hi. exact Hi.
Qed.

Section SeekButtons.
Import VideoControls.
Local Open Scope Q_scope.

Lemma duration_or_0_eq p : duration_or_0 p == duration p.
Proof.
  unfold duration_or_0. destruct (Qeq_bool (duration p) 0) eqn:E.
  - apply Qeq_bool_iff in E. now rewrite E.
  - reflexivity.
Qed.
End SeekButtons.

(** The seek buttons never leave the media: stepping back never goes
    below 0, stepping forward never goes past the duration, and from a
    time within a media of known length both stay within it, back never
    moving forward and forward never moving back. *)
Theorem seek_buttons_stay_within_media (p : VideoControls.Player) :
  (0 <= VideoControls.currentTime (VideoControls.seekBackward p) /\
   VideoControls.currentTime (VideoControls.seekForward p)
   <= VideoControls.duration p /\
   (0 <= VideoControls.currentTime p <= VideoControls.duration p ->
    VideoControls.currentTime (VideoControls.seekBackward p)
    <= VideoControls.currentTime p /\
    VideoControls.currentTime p
    <= VideoControls.currentTime (VideoControls.seekForward p) /\
    0 <= VideoControls.currentTime (VideoControls.seekForward p) /\
    VideoControls.currentTime (VideoControls.seekBackward p)
    <= VideoControls.duration p))%Q.
Proof.
  unfold VideoControls.seekBackward, VideoControls.seekForward,
    Math_max, Math_min. simpl.
  pose proof (duration_or_0_eq p) as Hd.
  set (d0 := VideoControls.duration_or_0 p) in *.
  set (ct := VideoControls.currentTime p).
  set (d := VideoControls.duration p) in *.
  pose proof (Q.le_max_l 0 (ct - 10)) as M1.
  pose proof (Q.le_min_l d0 (ct + 10)) as M2.
  split; [exact M1|]. split; [lra|].
  intros [H0 H1].
  assert (M3 : (Qmax 0 (ct - 10) <= ct)%Q) by (apply Q.max_lub; lra).
  assert (M4 : (ct <= Qmin d0 (ct + 10))%Q) by (apply Q.min_glb; lra).
  repeat split; lra.
Qed.

Lemma seek_buttons_stay_within_media_witness :
  (VideoControls.currentTime
     (VideoControls.seekForward (VideoControls.mkPlayer 95 100))
   <= VideoControls.duration (VideoControls.mkPlayer 95 100))%Q /\
  (VideoControls.currentTime (VideoControls.mkPlayer 95 100)
   <= VideoControls.currentTime
        (VideoControls.seekForward (VideoControls.mkPlayer 95 100)))%Q.
Proof.
  destruct (seek_buttons_stay_within_media (VideoControls.mkPlayer 95 100))
    as (_ & Hle & Hin).
  split; [exact Hle|].
  destruct Hin as (_ & Hfwd & _); [split; discriminate | exact Hfwd].
Defined.

(** The seek buttons stop at the ends of the media: within ten seconds
    of the start, stepping back lands exactly on 0, and within ten seconds
    of the end, stepping forward lands exactly on the duration; so while
    the duration is still unknown (0), stepping forward from any time that
    is not negative goes to 0. *)
Theorem seek_buttons_stop_at_the_ends (p : VideoControls.Player) :
  ((VideoControls.currentTime p <= 10 ->
    VideoControls.currentTime (VideoControls.seekBackward p) == 0) /\
   (VideoControls.duration p <= VideoControls.currentTime p + 10 ->
    VideoControls.currentTime (VideoControls.seekForward p)
    == VideoControls.duration p) /\
   (VideoControls.duration p == 0 -> 0 <= VideoControls.currentTime p ->
    VideoControls.currentTime (VideoControls.seekForward p) == 0))%Q.
Proof.
  unfold VideoControls.seekBackward, VideoControls.seekForward,
    Math_max, Math_min. simpl.
  pose proof (duration_or_0_eq p) as Hd.
  set (d0 := VideoControls.duration_or_0 p) in *.
  set (ct := VideoControls.currentTime p).
  set (d := VideoControls.duration p) in *.
  split; [|split].
  - intros Hstart. apply Q.max_l. lra.
  - intros Hend. rewrite Q.min_l by lra. exact Hd.
  - intros Hunknown Hct. rewrite Q.min_l by lra. lra.
Qed.

Lemma seek_buttons_stop_at_the_ends_witness :
  (VideoControls.currentTime
     (VideoControls.seekBackward (VideoControls.mkPlayer 4 100)) == 0 /\
   VideoControls.currentTime
     (VideoControls.seekForward (VideoControls.mkPlayer 95 100)) == 100 /\
   VideoControls.currentTime
     (VideoControls.seekForward (VideoControls.mkPlayer 30 0)) == 0)%Q.
Proof.
  destruct (seek_buttons_stop_at_the_ends (VideoControls.mkPlayer 4 100))
    as (Hstart & _ & _).
  destruct (seek_buttons_stop_at_the_ends (VideoControls.mkPlayer 95 100))
    as (_ & Hend & _).
  destruct (seek_buttons_stop_at_the_ends (VideoControls.mkPlayer 30 0))
    as (_ & _ & Hunknown).
  split; [apply Hstart; discriminate|].
  split; [apply Hend; discriminate|].
  apply Hunknown; [reflexivity | discriminate].
Defined.

Lemma cacheKey_shared_iff_witness :
  cacheKey "file:///clip.mp4" (599 # 10) = cacheKey "file:///clip.mp4" (602 # 10)
  /\ cacheKey "file:///clip.mp4" (599 # 10) <> cacheKey "file:///clip.mp4" 61.
Proof.
  split.
  - apply (proj2 (cacheKey_shared_iff "file:///clip.mp4" "file:///clip.mp4"
                    (599 # 10) (602 # 10))).
    split; reflexivity.
  - intros H.
    apply (proj1 (cacheKey_shared_iff "file:///clip.mp4" "file:///clip.mp4"
                    (599 # 10) 61)) in H.
    destruct H as [_ H]. discriminate H.
Defined.

Lemma strip_rerender_skipped_iff_same_props_witness :
  ThumbnailStrip.areEqual
    (ThumbnailStrip.mkProps [Some "a.jpg"%string; None] true)
    (ThumbnailStrip.mkProps [Some "a.jpg"%string; Some "b.jpg"%string] true) <> true.
Proof.
  intros H.
  apply (proj1 (strip_rerender_skipped_iff_same_props
                  (ThumbnailStrip.mkProps [Some "a.jpg"%string; None] true)
                  (ThumbnailStrip.mkProps [Some "a.jpg"%string; Some "b.jpg"%string] true)))
    in H.
  discriminate H.
Defined.
